(** * Rate-Limiting-Guide: the TypeScript limiters, embedded and verified

    Source files embedded here:
    - [implementations/typescript/examples.ts] (second document, the
      rate-limiter library): [TokenBucketLimiter], [LeakyBucketLimiter],
      [FixedWindowLimiter], [SlidingWindowLogLimiter],
      [SlidingWindowCounterLimiter], [ConcurrentRequestsLimiter],
      [MultiTierLimiter], [MemoryStorage],
      [DistributedSlidingWindowCounter];
    - [implementations/typescript/redis-adapter.ts]: [RedisStorage.makeKey],
      [RedisTokenBucket], [RedisSlidingWindowCounter],
      [RedisFixedWindowCounter];
    - [examples/api-gateway/server.ts] (second document, the express
      middleware): [RateLimiterStore] and the use [rateLimit] makes of it.

    Conventions of the embedding.
    - [Date.now()] is an explicit argument [now : Z] (milliseconds).  A
      synchronous method reads the clock once: the few source methods that
      call [Date.now()] twice in one body do so within one turn of the event
      loop.
    - A JavaScript [number] that only ever holds an integer (counts, window
      starts, timestamps) is a [Z]; a [number] that holds a fraction (token
      counts, rates, seconds) is an exact rational [Q], where the source
      rounds the result of every operation to a binary64 double.  The two
      can part by a unit in the last place, and that shows where a
      comparison or a [Math.floor] falls exactly on a boundary: a bucket of
      capacity 1 refilled at 0.1 tokens per second can hold
      0.9999999999999999 tokens where the exact sum is 1, and
      [Math.floor (0.29 * 100)] is 28 where the exact product is 29.  What
      is proved here of fractional quantities is therefore bounds, orderings
      and the structure of the state, which rounding keeps (it is monotone,
      and exact on whole numbers of this size), and not the instant at which
      a fractional threshold is crossed; the time-to-live of
      [MemoryStorage] is exact for a whole number of seconds.  NaN and
      Infinity are outside the model; they arise in the source only from a
      zero rate or a zero window size.
    - [Math.floor (a / b) * b] on integers is [(a / b) * b] with [Z.div],
      which rounds towards minus infinity like [Math.floor].
    - The cost argument [tokens] is an integer ([Z]); the loops
      [for (i = 0; i < tokens; i++)] run [Z.to_nat tokens] times.
    - The optional [config.onRateLimit] observer receives the rejected result
      and is not part of the limiter state; it is left out.
    - The members of a [MultiTierLimiter] are distinct instances, each with
      a state of its own, and one composite call reads the same clock for all
      of them.
    - An [async] method of a distributed limiter is a sequence of storage
      operations with a continuation for each [await]; callers in flight
      interleave at those points. *)

From Stdlib Require Import ZArith QArith Qround Qminmax Lqa Lia List String DecimalString.
From stdpp Require Import base list gmap strings.
From Stdlib Require Import DecimalZ.
Import ListNotations.

Local Open Scope Z_scope.

(** ** Numbers *)

(** [a < b] on JavaScript numbers. *)
Definition Qlt_bool (a b : Q) : bool := negb (Qle_bool b a).

(** [ms / 1000] : milliseconds to seconds. *)
Definition seconds (ms : Z) : Q := (inject_Z ms / 1000)%Q.

(** ** [interface RateLimitResult] *)

Record RateLimitResult : Type := mkResult {
  allowed : bool;
  limit : Q;
  remaining : Q;
  resetAt : Q;
  retryAfter : option Q
}.

(** ** [abstract class RateLimiter]

    [allowRequest s now tokens] is the method run on the instance state [s]
    when the clock reads [now]; it returns the new state and the result.
    [reset s now] likewise. *)

Class RateLimiter (St : Type) : Type := {
  allowRequest : St -> Z -> Z -> St * RateLimitResult;
  reset : St -> Z -> St
}.

(** A call of [allowRequest]: the clock reading and the cost. *)
Abbreviation Call := (Z * Z)%type.

(** [within a W ts]: the timestamp [ts] lies in the sliding interval of
    length [W] that ends at [a + W], that is in [(a, a + W]].  This is the
    window the sliding log keeps at clock reading [a + W]: the entries
    [> now - windowSize]. *)
Definition within (a W ts : Z) : Prop := a < ts <= a + W.

#[global] Instance within_dec (a W ts : Z) : Decision (within a W ts).
Proof. unfold within. apply _. Defined.

(** ** [class FixedWindowLimiter] *)

Module FixedWindowLimiter.

Record t : Type := mk {
  windowSize : Z;   (* in milliseconds *)
  limit : Z;
  windowStart : Z;
  count : Z
}.

Definition getCurrentWindow (windowSize now : Z) : Z :=
  (now / windowSize) * windowSize.

(** [new FixedWindowLimiter(windowSize, limit)] when the clock reads [now];
    [windowSize] is in seconds. *)
Definition create (windowSize limit now : Z) : t :=
  let ws := windowSize * 1000 in
  mk ws limit (getCurrentWindow ws now) 0.

Definition allowRequest (s : t) (now tokens : Z) : t * RateLimitResult :=
  let currentWindow := getCurrentWindow (windowSize s) now in
  let s1 :=
    if negb (currentWindow =? windowStart s)
    then mk (windowSize s) (limit s) currentWindow 0
    else s in
  if count s1 + tokens <=? limit s1 then
    let s2 := mk (windowSize s1) (limit s1) (windowStart s1) (count s1 + tokens) in
    (s2, mkResult true (inject_Z (limit s2))
                  (inject_Z (limit s2 - count s2))
                  (inject_Z (windowStart s2 + windowSize s2))
                  None)
  else
    (s1, mkResult false (inject_Z (limit s1)) 0%Q
                  (inject_Z (windowStart s1 + windowSize s1))
                  (Some (seconds (windowStart s1 + windowSize s1 - now)))).

Definition reset (s : t) (now : Z) : t :=
  mk (windowSize s) (limit s) (getCurrentWindow (windowSize s) now) 0.

(** The count the limiter works from at clock reading [now]: the stored
    one, or zero when [now] falls in another window. *)
Definition countAt (s : t) (now : Z) : Z :=
  if getCurrentWindow (windowSize s) now =? windowStart s then count s else 0.

End FixedWindowLimiter.

#[global] Instance FixedWindow_RateLimiter : RateLimiter FixedWindowLimiter.t :=
  {| allowRequest := FixedWindowLimiter.allowRequest;
     reset := FixedWindowLimiter.reset |}.

(** ** [class TokenBucketLimiter] *)

Module TokenBucketLimiter.

Record t : Type := mk {
  capacity : Q;
  refillRate : Q;   (* tokens per second *)
  tokens : Q;
  lastRefill : Z
}.

Definition create (capacity refillRate : Q) (now : Z) : t :=
  mk capacity refillRate capacity now.

(** The sum is exact here; the source rounds the quotient, the product and
    the sum. *)
Definition refill (s : t) (now : Z) : t :=
  let elapsed := seconds (now - lastRefill s) in
  let tokensToAdd := (elapsed * refillRate s)%Q in
  mk (capacity s) (refillRate s)
     (Qmin (capacity s) (tokens s + tokensToAdd)%Q) now.

Definition allowRequest (s : t) (now requested : Z) : t * RateLimitResult :=
  let s1 := refill s now in
  if Qle_bool (inject_Z requested) (tokens s1) then
    let s2 := mk (capacity s1) (refillRate s1)
                 (tokens s1 - inject_Z requested)%Q (lastRefill s1) in
    (s2, mkResult true (capacity s2)
                  (inject_Z (Qfloor (tokens s2)))
                  (inject_Z now
                   + ((capacity s2 - tokens s2) / refillRate s2) * 1000)%Q
                  None)
  else
    let tokensNeeded := (inject_Z requested - tokens s1)%Q in
    let retryAfter := ((tokensNeeded / refillRate s1) * 1000)%Q in
    (s1, mkResult false (capacity s1) 0%Q
                  (inject_Z now + retryAfter)%Q
                  (Some (retryAfter / 1000)%Q)).

Definition reset (s : t) (now : Z) : t :=
  mk (capacity s) (refillRate s) (capacity s) now.

Definition getTokens (s : t) (now : Z) : t * Q :=
  let s1 := refill s now in (s1, tokens s1).

(** The capacity invariant: [0 <= tokens <= capacity]. *)
Definition tokensWithinCapacity (s : t) : Prop :=
  (0 <= tokens s)%Q /\ (tokens s <= capacity s)%Q.

End TokenBucketLimiter.

(** ** [class LeakyBucketLimiter] *)

Module LeakyBucketLimiter.

Record t : Type := mk {
  capacity : Z;
  leakRate : Q;     (* requests per second *)
  queue : list Z;
  lastLeak : Z
}.

Definition create (capacity : Z) (leakRate : Q) (now : Z) : t :=
  mk capacity leakRate [] now.

(** [for (let i = 0; i < Math.min(requestsToLeak, this.queue.length); i++)
      this.queue.shift()]
    from loop counter [i] on.  The bound is computed again on every
    iteration, from the queue as it has been shortened so far. *)
Fixpoint leakLoop (i requestsToLeak : Z) (queue : list Z) : list Z :=
  match queue with
  | [] => []
  | _ :: rest =>
      if i <? Z.min requestsToLeak (Z.of_nat (length queue))
      then leakLoop (i + 1) requestsToLeak rest
      else queue
  end.

(** [requestsToLeak] is the floor of the exact product here; the source
    floors the rounded one, which can be one less at a whole value. *)
Definition leak (s : t) (now : Z) : t :=
  let elapsed := seconds (now - lastLeak s) in
  let requestsToLeak := Qfloor (elapsed * leakRate s) in
  mk (capacity s) (leakRate s) (leakLoop 0 requestsToLeak (queue s)) now.

Definition allowRequest (s : t) (now tokens : Z) : t * RateLimitResult :=
  let s1 := leak s now in
  if Z.of_nat (length (queue s1)) + tokens <=? capacity s1 then
    let s2 := mk (capacity s1) (leakRate s1)
                 (queue s1 ++ replicate (Z.to_nat tokens) now) (lastLeak s1) in
    let len := Z.of_nat (length (queue s2)) in
    (s2, mkResult true (inject_Z (capacity s2))
                  (inject_Z (capacity s2 - len))
                  (inject_Z now + (inject_Z len / leakRate s2) * 1000)%Q
                  None)
  else
    let len := Z.of_nat (length (queue s1)) in
    let retryAfter :=
      ((inject_Z (len - capacity s1 + tokens) / leakRate s1) * 1000)%Q in
    (s1, mkResult false (inject_Z (capacity s1)) 0%Q
                  (inject_Z now + retryAfter)%Q
                  (Some (retryAfter / 1000)%Q)).

Definition reset (s : t) (now : Z) : t :=
  mk (capacity s) (leakRate s) [] now.

Definition getQueueLength (s : t) (now : Z) : t * Z :=
  let s1 := leak s now in (s1, Z.of_nat (length (queue s1))).

(** The capacity invariant: [0 <= queue.length <= capacity]. *)
Definition queueWithinCapacity (s : t) : Prop :=
  0 <= Z.of_nat (length (queue s)) <= capacity s.

End LeakyBucketLimiter.

(** ** [class SlidingWindowLogLimiter] *)

Module SlidingWindowLogLimiter.

Record t : Type := mk {
  windowSize : Z;   (* in milliseconds *)
  limit : Z;
  requests : list Z
}.

(** [windowSize] is in seconds. *)
Definition create (windowSize limit : Z) : t :=
  mk (windowSize * 1000) limit [].

(** [while (requests.length > 0 && requests[0] <= cutoff) requests.shift()] *)
Fixpoint shiftOld (cutoff : Z) (requests : list Z) : list Z :=
  match requests with
  | [] => []
  | oldest :: rest =>
      if oldest <=? cutoff then shiftOld cutoff rest else requests
  end.

Definition removeOldRequests (s : t) (now : Z) : t :=
  let cutoff := now - windowSize s in
  mk (windowSize s) (limit s) (shiftOld cutoff (requests s)).

(** [requests[0]] seen as a condition: [undefined] and [0] are falsy. *)
Definition truthyHead (requests : list Z) : option Z :=
  match requests with
  | [] => None
  | x :: _ => if x =? 0 then None else Some x
  end.

Definition allowRequest (s : t) (now tokens : Z) : t * RateLimitResult :=
  let s1 := removeOldRequests s now in
  if Z.of_nat (length (requests s1)) + tokens <=? limit s1 then
    let s2 := mk (windowSize s1) (limit s1)
                 (requests s1 ++ replicate (Z.to_nat tokens) now) in
    let oldestRequest := default now (truthyHead (requests s2)) in
    (s2, mkResult true (inject_Z (limit s2))
                  (inject_Z (limit s2 - Z.of_nat (length (requests s2))))
                  (inject_Z (oldestRequest + windowSize s2))
                  None)
  else
    let oldestRequest := truthyHead (requests s1) in
    let retryAfter :=
      match oldestRequest with
      | Some oldest => seconds (oldest + windowSize s1 - now)
      | None => 0%Q
      end in
    (s1, mkResult false (inject_Z (limit s1)) 0%Q
                  (match oldestRequest with
                   | Some oldest => inject_Z (oldest + windowSize s1)
                   | None => inject_Z now
                   end)
                  (Some (Qmax 0 retryAfter))).

Definition reset (s : t) (now : Z) : t :=
  mk (windowSize s) (limit s) [].

Definition getRequestCount (s : t) (now : Z) : t * Z :=
  let s1 := removeOldRequests s now in
  (s1, Z.of_nat (length (requests s1))).

(** The invariant that ties the log to the history [hist] of admitted
    units: the log is the history less a prefix of entries that were at or
    before the cutoff of the last call (at clock reading [lo]); the log
    holds at most [limit] entries; and no sliding interval holds more than
    [limit] entries of the history. *)
Definition logInv (s : t) (hist : list Z) (lo : Z) : Prop :=
  (exists dropped,
      hist = dropped ++ requests s
      /\ Forall (fun ts => ts <= lo - windowSize s) dropped)
  /\ Z.of_nat (length (requests s)) <= limit s
  /\ forall a, Z.of_nat (length (filter (within a (windowSize s)) hist)) <= limit s.

End SlidingWindowLogLimiter.

(** ** [class SlidingWindowCounterLimiter] *)

Module SlidingWindowCounterLimiter.

Record window : Type := mkWindow { start : Z; count : Z }.

Record t : Type := mk {
  windowSize : Z;   (* in milliseconds *)
  limit : Z;
  currentWindow : window;
  previousWindow : window
}.

(** [windowSize] is in seconds. *)
Definition create (windowSize limit : Z) : t :=
  mk (windowSize * 1000) limit (mkWindow 0 0) (mkWindow 0 0).

Definition getWindowStart (windowSize timestamp : Z) : Z :=
  (timestamp / windowSize) * windowSize.

Definition estimateCount (s : t) (now : Z) : Z :=
  let elapsed := now - start (currentWindow s) in
  let overlapPercent :=
    Qmax 0 (inject_Z (windowSize s - elapsed) / inject_Z (windowSize s)) in
  Qfloor (inject_Z (count (previousWindow s)) * overlapPercent)
  + count (currentWindow s).

Definition allowRequest (s : t) (now tokens : Z) : t * RateLimitResult :=
  let windowStart := getWindowStart (windowSize s) now in
  (* Move to new window if needed *)
  let s1 :=
    if negb (windowStart =? start (currentWindow s))
    then mk (windowSize s) (limit s) (mkWindow windowStart 0) (currentWindow s)
    else s in
  let estimatedCount := estimateCount s1 now in
  if estimatedCount + tokens <=? limit s1 then
    let s2 := mk (windowSize s1) (limit s1)
                 (mkWindow (start (currentWindow s1))
                           (count (currentWindow s1) + tokens))
                 (previousWindow s1) in
    (s2, mkResult true (inject_Z (limit s2))
                  (inject_Z (Z.max 0 (limit s2 - estimatedCount - tokens)))
                  (inject_Z (start (currentWindow s2) + windowSize s2))
                  None)
  else
    (s1, mkResult false (inject_Z (limit s1)) 0%Q
                  (inject_Z (start (currentWindow s1) + windowSize s1))
                  (Some (seconds (start (currentWindow s1) + windowSize s1 - now)))).

Definition reset (s : t) (now : Z) : t :=
  let windowStart := getWindowStart (windowSize s) now in
  mk (windowSize s) (limit s) (mkWindow windowStart 0) (mkWindow 0 0).

Definition getCurrentCount (s : t) (now : Z) : Z := estimateCount s now.

(** The state after each call of a sequence, in order. *)
Fixpoint states (s : t) (calls : list Call) : list t :=
  match calls with
  | [] => []
  | (now, tokens) :: rest =>
      let s1 := fst (allowRequest s now tokens) in
      s1 :: states s1 rest
  end.

(** How many of the calls moved the limiter to a new window. *)
Fixpoint transitions (s : t) (calls : list Call) : nat :=
  match calls with
  | [] => O
  | (now, tokens) :: rest =>
      let moved := negb (getWindowStart (windowSize s) now =? start (currentWindow s)) in
      ((if moved then 1 else 0) + transitions (fst (allowRequest s now tokens)) rest)%nat
  end.

End SlidingWindowCounterLimiter.

(** ** [class ConcurrentRequestsLimiter] *)

Module ConcurrentRequestsLimiter.

Record t : Type := mk {
  maxConcurrent : Z;
  activeRequests : Z
}.

Definition create (maxConcurrent : Z) : t := mk maxConcurrent 0.

Definition allowRequest (s : t) (tokens : Z) : t * RateLimitResult :=
  if activeRequests s + tokens <=? maxConcurrent s then
    let s1 := mk (maxConcurrent s) (activeRequests s + tokens) in
    (s1, mkResult true (inject_Z (maxConcurrent s1))
                  (inject_Z (maxConcurrent s1 - activeRequests s1))
                  0%Q    (* Not applicable for concurrent limiter *)
                  None)
  else
    (s, mkResult false (inject_Z (maxConcurrent s)) 0%Q 0%Q None).

(** Release tokens when request completes *)
Definition release (s : t) (tokens : Z) : t :=
  mk (maxConcurrent s) (Z.max 0 (activeRequests s - tokens)).

Definition reset (s : t) : t := mk (maxConcurrent s) 0.

Definition getActiveCount (s : t) : Z := activeRequests s.

(** The calls a client can make on the limiter. *)
Inductive op : Type :=
| AllowRequest (tokens : Z)
| Release (tokens : Z).

Definition cost (o : op) : Z :=
  match o with AllowRequest n => n | Release n => n end.

Definition perform (s : t) (o : op) : t :=
  match o with
  | AllowRequest n => fst (allowRequest s n)
  | Release n => release s n
  end.

Definition performAll (s : t) (ops : list op) : t := fold_left perform ops s.

Definition total (costs : list Z) : Z := fold_right Z.add 0 costs.

(** Total cost of the [allowRequest] calls of [ops] that were admitted,
    starting from state [s]. *)
Fixpoint admittedCost (s : t) (ops : list op) : Z :=
  match ops with
  | [] => 0
  | o :: rest =>
      (match o with
       | AllowRequest n => if allowed (snd (allowRequest s n)) then n else 0
       | Release _ => 0
       end) + admittedCost (perform s o) rest
  end.

End ConcurrentRequestsLimiter.

#[global] Instance TokenBucket_RateLimiter : RateLimiter TokenBucketLimiter.t :=
  {| allowRequest := TokenBucketLimiter.allowRequest;
     reset := TokenBucketLimiter.reset |}.

#[global] Instance LeakyBucket_RateLimiter : RateLimiter LeakyBucketLimiter.t :=
  {| allowRequest := LeakyBucketLimiter.allowRequest;
     reset := LeakyBucketLimiter.reset |}.

#[global] Instance SlidingWindowLog_RateLimiter :
  RateLimiter SlidingWindowLogLimiter.t :=
  {| allowRequest := SlidingWindowLogLimiter.allowRequest;
     reset := SlidingWindowLogLimiter.reset |}.

#[global] Instance SlidingWindowCounter_RateLimiter :
  RateLimiter SlidingWindowCounterLimiter.t :=
  {| allowRequest := SlidingWindowCounterLimiter.allowRequest;
     reset := SlidingWindowCounterLimiter.reset |}.

#[global] Instance Concurrent_RateLimiter :
  RateLimiter ConcurrentRequestsLimiter.t :=
  {| allowRequest := fun s _ tokens => ConcurrentRequestsLimiter.allowRequest s tokens;
     reset := fun s _ => ConcurrentRequestsLimiter.reset s |}.

(** ** Running a limiter over a sequence of calls *)

Section Run.
Context {St : Type} `{RateLimiter St}.

(** The state after the calls, and the result of each call in order. *)
Fixpoint run (s : St) (calls : list Call) : St * list RateLimitResult :=
  match calls with
  | [] => (s, [])
  | (now, tokens) :: rest =>
      let (s1, r) := allowRequest s now tokens in
      let (s2, rs) := run s1 rest in
      (s2, r :: rs)
  end.

(** The calls of the sequence that the limiter admitted. *)
Fixpoint admittedCalls (s : St) (calls : list Call) : list Call :=
  match calls with
  | [] => []
  | (now, tokens) :: rest =>
      let (s1, r) := allowRequest s now tokens in
      if allowed r then (now, tokens) :: admittedCalls s1 rest
      else admittedCalls s1 rest
  end.
End Run.

(** One admission timestamp per admitted unit of cost. *)
Definition units (calls : list Call) : list Z :=
  flat_map (fun c : Call => replicate (Z.to_nat (snd c)) (fst c)) calls.

(** The clock never goes back: [clockFrom t0 times] says that the readings
    [times] are taken in order, none before [t0]. *)
Fixpoint clockFrom (t0 : Z) (times : list Z) : Prop :=
  match times with
  | [] => True
  | t1 :: rest => t0 <= t1 /\ clockFrom t1 rest
  end.

Definition nondecreasing (times : list Z) : Prop :=
  match times with
  | [] => True
  | t0 :: rest => clockFrom t0 rest
  end.

(** Calls on a limiter through the common interface: [allowRequest] and
    [reset], each with the clock reading at the call. *)
Inductive Op : Type :=
| CallAllowRequest (now tokens : Z)
| CallReset (now : Z).

Definition opTime (o : Op) : Z :=
  match o with CallAllowRequest now _ => now | CallReset now => now end.

(** The cost of an [allowRequest] call is a positive integer. *)
Definition positiveCost (o : Op) : Prop :=
  match o with CallAllowRequest _ tokens => 0 < tokens | CallReset _ => True end.

Section Ops.
Context {St : Type} `{RateLimiter St}.

Definition applyOp (s : St) (o : Op) : St :=
  match o with
  | CallAllowRequest now tokens => fst (allowRequest s now tokens)
  | CallReset now => reset s now
  end.

Definition applyOps (s : St) (ops : list Op) : St := fold_left applyOp ops s.
End Ops.

(** ** [class MultiTierLimiter] *)

(** A member of the [RateLimiter[]] array: an instance of some class that
    extends [RateLimiter], with its current state. *)
Record Limiter : Type := mkLimiter {
  state : Type;
  methods : RateLimiter state;
  current : state
}.
Arguments mkLimiter {state methods} current.

Module MultiTierLimiter.

Definition t : Type := list Limiter.

(** [limiter.allowRequest(tokens)] on a member. *)
Definition memberAllowRequest (l : Limiter) (now tokens : Z)
  : Limiter * RateLimitResult :=
  let (s1, r) := @allowRequest _ (methods l) (current l) now tokens in
  (@mkLimiter _ (methods l) s1, r).

Definition memberReset (l : Limiter) (now : Z) : Limiter :=
  @mkLimiter _ (methods l) (@reset _ (methods l) (current l) now).

(** The [for (const limiter of this.limiters)] loop, entered with the
    [results] pushed so far.  It returns the members as the loop leaves
    them, the [results] array, and the result of the early [return] when
    a member rejected. *)
Fixpoint loop (limiters : list Limiter) (now tokens : Z)
         (results : list RateLimitResult)
  : list Limiter * list RateLimitResult * option RateLimitResult :=
  match limiters with
  | [] => ([], results, None)
  | limiter :: rest =>
      let (limiter1, result) := memberAllowRequest limiter now tokens in
      let results1 := results ++ [result] in
      if negb (allowed result) then (limiter1 :: rest, results1, Some result)
      else
        let '(rest1, results2, early) := loop rest now tokens results1 in
        (limiter1 :: rest1, results2, early)
  end.

(** [(most, current) => current.remaining < most.remaining ? current : most] *)
Definition moreRestrictive (most current : RateLimitResult) : RateLimitResult :=
  if Qlt_bool (remaining current) (remaining most) then current else most.

(** [results.reduce(f)] without an initial value; [None] is the
    [TypeError] that [reduce] throws on an empty array. *)
Definition reduce {A : Type} (f : A -> A -> A) (results : list A) : option A :=
  match results with
  | [] => None
  | first :: rest => Some (fold_left f rest first)
  end.

(** The members after the call and what the promise settles to: [Some r]
    when it resolves with [r], [None] when it rejects with the
    [TypeError] of [reduce]. *)
Definition allowRequest (limiters : t) (now tokens : Z)
  : t * option RateLimitResult :=
  let '(limiters1, results, early) := loop limiters now tokens [] in
  match early with
  | Some result => (limiters1, Some result)
  | None => (limiters1, reduce moreRestrictive results)
  end.

Definition reset (limiters : t) (now : Z) : t :=
  map (fun l => memberReset l now) limiters.

(** The composite over a sequence of calls. *)
Fixpoint run (limiters : t) (calls : list Call)
  : t * list (option RateLimitResult) :=
  match calls with
  | [] => (limiters, [])
  | (now, tokens) :: rest =>
      let (limiters1, r) := allowRequest limiters now tokens in
      let (limiters2, rs) := run limiters1 rest in
      (limiters2, r :: rs)
  end.

(** The call is rejected: the promise resolves with [allowed = false]. *)
Definition rejects (limiters : t) (now tokens : Z) : bool :=
  match snd (allowRequest limiters now tokens) with
  | Some r => negb (allowed r)
  | None => false
  end.

End MultiTierLimiter.

(** A single limiter over a sequence of calls, and whether it rejects the
    next one. *)
Fixpoint runMember (l : Limiter) (calls : list Call) : Limiter :=
  match calls with
  | [] => l
  | (now, tokens) :: rest =>
      runMember (fst (MultiTierLimiter.memberAllowRequest l now tokens)) rest
  end.

Definition memberAfter (l : Limiter) (now tokens : Z) : Limiter :=
  fst (MultiTierLimiter.memberAllowRequest l now tokens).

Definition memberResult (l : Limiter) (now tokens : Z) : RateLimitResult :=
  snd (MultiTierLimiter.memberAllowRequest l now tokens).

Definition memberAdmits (l : Limiter) (now tokens : Z) : bool :=
  allowed (memberResult l now tokens).

Definition memberRejects (l : Limiter) (now tokens : Z) : bool :=
  negb (allowed (memberResult l now tokens)).

(** The calls of the sequence that the member, run alone, admits. *)
Fixpoint memberAdmitted (l : Limiter) (calls : list Call) : list Call :=
  match calls with
  | [] => []
  | (now, tokens) :: rest =>
      let (l1, r) := MultiTierLimiter.memberAllowRequest l now tokens in
      if allowed r then (now, tokens) :: memberAdmitted l1 rest
      else memberAdmitted l1 rest
  end.

(** ** Shared storage and asynchronous methods

    A distributed limiter is an [async] method: between two [await]s it runs
    alone, and at each [await] of a storage operation other callers (other
    calls in the same process, other processes on the same store) may run.
    Each storage operation is taken as atomic, which is the most the stores
    offer: a Redis command, or a [MemoryStorage] method.  A key holds a
    number and the time-to-live (in seconds) it was last given; no key
    expires while the calls modelled here are in flight. *)

Abbreviation Store := (gmap string (Z * option Q)).

Inductive Async (A : Type) : Type :=
| Return (a : A)
  (* [await storage.get(key)], [await client.get(key)]: [None] is [null] *)
| AwaitGet (key : string) (k : option Z -> Async A)
  (* [await storage.set(key, value, ttl)] *)
| AwaitSet (key : string) (value : Z) (ttl : option Q) (k : Async A)
  (* [await storage.increment(key, amount)] of [MemoryStorage] *)
| AwaitIncrement (key : string) (amount : Z) (k : Z -> Async A)
  (* [await client.incrBy(key, amount)]: Redis INCRBY *)
| AwaitIncrBy (key : string) (amount : Z) (k : Z -> Async A)
  (* [await client.expire(key, seconds)]: Redis EXPIRE *)
| AwaitExpire (key : string) (ttl : Z) (k : Async A).
Arguments Return {A} a.
Arguments AwaitGet {A} key k.
Arguments AwaitSet {A} key value ttl k.
Arguments AwaitIncrement {A} key amount k.
Arguments AwaitIncrBy {A} key amount k.
Arguments AwaitExpire {A} key ttl k.

Definition storeGet (st : Store) (key : string) : option Z := fst <$> st !! key.

(** One storage operation of the method, on the store as it is now. *)
Definition step {A : Type} (p : Async A) (st : Store) : Async A * Store :=
  match p with
  | Return a => (Return a, st)
  | AwaitGet key k => (k (storeGet st key), st)
  | AwaitSet key value ttl k => (k, <[key := (value, ttl)]> st)
  | AwaitIncrement key amount k =>
      (* [current = await this.get(key) || 0; await this.set(key, current + amount)] *)
      let newValue := default 0 (storeGet st key) + amount in
      (k newValue, <[key := (newValue, None)]> st)
  | AwaitIncrBy key amount k =>
      let newValue := default 0 (storeGet st key) + amount in
      (k newValue, <[key := (newValue, st !! key ≫= snd)]> st)
  | AwaitExpire key ttl k =>
      (k, alter (fun e => (fst e, Some (inject_Z ttl))) key st)
  end.

(** Which of two callers in flight runs its next storage operation. *)
Inductive Caller : Type := First | Second.

Fixpoint interleave {A : Type} (schedule : list Caller)
         (p1 p2 : Async A) (st : Store) : Async A * Async A * Store :=
  match schedule with
  | [] => (p1, p2, st)
  | First :: rest => let (p1', st') := step p1 st in interleave rest p1' p2 st'
  | Second :: rest => let (p2', st') := step p2 st in interleave rest p1 p2' st'
  end.

(** The decimal text of an integer, as a template string prints it. *)
Definition string_of_Z (z : Z) : string := NilZero.string_of_int (Z.to_int z).

(** ** [class DistributedSlidingWindowCounter] *)

Module DistributedSlidingWindowCounter.

Record t : Type := mk {
  windowSize : Z;   (* in milliseconds *)
  limit : Z;
  keyPrefix : string;
  identifier : option string   (* [config.identifier] *)
}.

(** [s || d] on a string that may be missing: [undefined] and the empty
    string are falsy. *)
Definition orElse (s : option string) (d : string) : string :=
  match s with
  | Some EmptyString | None => d
  | Some v => v
  end.

(** [windowSize] is in seconds. *)
Definition create (windowSize limit : Z) (keyPrefix identifier : option string) : t :=
  mk (windowSize * 1000) limit (orElse keyPrefix "rate_limit") identifier.

Definition getWindowStart (windowSize timestamp : Z) : Z :=
  (timestamp / windowSize) * windowSize.

Definition key (s : t) (windowStart : Z) : string :=
  (keyPrefix s ++ ":" ++ orElse (identifier s) "default" ++ ":"
   ++ string_of_Z windowStart)%string.

Definition allowRequest (s : t) (now tokens : Z) : Async RateLimitResult :=
  let windowStart := getWindowStart (windowSize s) now in
  let prevWindowStart := windowStart - windowSize s in
  let currentKey := key s windowStart in
  let previousKey := key s prevWindowStart in
  (* Get counts from both windows *)
  AwaitGet currentKey (fun v1 =>
  AwaitGet previousKey (fun v2 =>
    let currentCount := default 0 v1 in
    let previousCount := default 0 v2 in
    (* Calculate estimated count *)
    let elapsed := now - windowStart in
    let overlapPercent :=
      Qmax 0 (inject_Z (windowSize s - elapsed) / inject_Z (windowSize s)) in
    let estimatedCount :=
      Qfloor (inject_Z previousCount * overlapPercent) + currentCount in
    if estimatedCount + tokens <=? limit s then
      (* Increment current window *)
      AwaitIncrement currentKey tokens (fun _ =>
      AwaitSet currentKey (currentCount + tokens)
               (Some (seconds (windowSize s) * 2)%Q)
        (Return (mkResult true (inject_Z (limit s))
                          (inject_Z (Z.max 0 (limit s - estimatedCount - tokens)))
                          (inject_Z (windowStart + windowSize s))
                          None)))
    else
      Return (mkResult false (inject_Z (limit s)) 0%Q
                       (inject_Z (windowStart + windowSize s))
                       (Some (seconds (windowStart + windowSize s - now)))))).

End DistributedSlidingWindowCounter.

(** ** [class RedisFixedWindowCounter] (redis-adapter.ts) *)

Module RedisFixedWindowCounter.

Record t : Type := mk {
  windowSize : Z;   (* in seconds *)
  limit : Z;
  identifier : string
}.

(** What [consume] resolves with. *)
Record result : Type := mkConsumed {
  allowed : bool;
  remaining : Z;
  resetAt : Z
}.

(** [now] is [Date.now()], in milliseconds; the method works on
    [Date.now() / 1000], and [Math.floor (now / 1000 / windowSize)] is
    [now / (1000 * windowSize)]. *)
Definition consume (s : t) (now tokens : Z) : Async result :=
  let windowStart := (now / (1000 * windowSize s)) * windowSize s in
  let key := ("fixed_window:" ++ identifier s ++ ":" ++ string_of_Z windowStart)%string in
  (* Get current count *)
  AwaitGet key (fun current =>
    let currentCount := default 0 current in
    if currentCount + tokens <=? limit s then
      (* Increment and set expiry *)
      AwaitIncrBy key tokens (fun newCount =>
      AwaitExpire key (windowSize s * 2)
        (Return (mkConsumed true (limit s - newCount)
                            ((windowStart + windowSize s) * 1000))))
    else
      Return (mkConsumed false 0 ((windowStart + windowSize s) * 1000))).

End RedisFixedWindowCounter.


(** Multi-tier dominance as the spec words it: the composite of [A] and [B]
    rejects the call [(now, tokens)] that follows [calls] whenever [A] alone,
    or [B] alone, having received the same [calls], rejects it. *)
Definition dominance (A B : Limiter) (calls : list Call) (now tokens : Z) : Prop :=
  memberRejects (runMember A calls) now tokens = true
  \/ memberRejects (runMember B calls) now tokens = true ->
  MultiTierLimiter.rejects (fst (MultiTierLimiter.run [A; B] calls)) now tokens = true.

(** ** Limiters used as concrete inputs *)

(** [new FixedWindowLimiter(1, limit)], created at clock reading 0. *)
Definition perSecond (limit : Z) : Limiter :=
  mkLimiter (FixedWindowLimiter.create 1 limit 0).

(** [new FixedWindowLimiter(10, limit)], created at clock reading 0. *)
Definition perTenSeconds (limit : Z) : Limiter :=
  mkLimiter (FixedWindowLimiter.create 10 limit 0).

(** [new ConcurrentRequestsLimiter(maxConcurrent)]. *)
Definition concurrent (maxConcurrent : Z) : Limiter :=
  mkLimiter (ConcurrentRequestsLimiter.create maxConcurrent).

(** What a caller sees of each result: the decision and [remaining], the
    latter in lowest terms. *)
Definition outcomes (results : list RateLimitResult) : list (bool * Q) :=
  map (fun r => (allowed r, Qred (remaining r))) results.


(** ** Vocabulary for further properties *)

(** The total cost of the calls that fall in the fixed window that starts at
    [w], for windows of [windowSize] milliseconds. *)
Fixpoint windowCost (windowSize w : Z) (calls : list Call) : Z :=
  match calls with
  | [] => 0
  | (now, tokens) :: rest =>
      (if FixedWindowLimiter.getCurrentWindow windowSize now =? w then tokens else 0)
      + windowCost windowSize w rest
  end.

(** The invariant that ties a fixed-window limiter to the history [hist] of
    the calls it admitted, after a call (or its creation) at clock reading
    [lo]. *)
Definition fixedWindowInv (s : FixedWindowLimiter.t) (hist : list Call) (lo : Z) : Prop :=
  FixedWindowLimiter.windowStart s
  = FixedWindowLimiter.getCurrentWindow (FixedWindowLimiter.windowSize s) lo
  /\ windowCost (FixedWindowLimiter.windowSize s) (FixedWindowLimiter.windowStart s) hist
     = FixedWindowLimiter.count s
  /\ Forall (fun c : Call =>
               FixedWindowLimiter.getCurrentWindow (FixedWindowLimiter.windowSize s) (fst c)
               <= FixedWindowLimiter.windowStart s) hist
  /\ forall w, windowCost (FixedWindowLimiter.windowSize s) w hist
               <= FixedWindowLimiter.limit s.

(** [countdown n m] is [m - 1; m - 2; ...; m - n]. *)
Fixpoint countdown (n : nat) (m : Z) : list Z :=
  match n with
  | O => []
  | S n' => (m - 1) :: countdown n' (m - 1)
  end.

(** A list of timestamps in non-decreasing order. *)
Fixpoint ascending (l : list Z) : Prop :=
  match l with
  | [] => True
  | x :: rest => Forall (Z.le x) rest /\ ascending rest
  end.

(** [recent cutoff ts]: the timestamp is after the cutoff. *)
Definition recent (cutoff ts : Z) : Prop := cutoff < ts.

#[global] Instance recent_dec (cutoff ts : Z) : Decision (recent cutoff ts).
Proof. unfold recent. apply _. Defined.

(** The sliding log holds exactly the admitted units [hist] that are more
    recent than the cutoff of the last call, which was at clock reading
    [lo]. *)
Definition logExact (s : SlidingWindowLogLimiter.t) (hist : list Z) (lo : Z) : Prop :=
  SlidingWindowLogLimiter.requests s
  = filter (recent (lo - SlidingWindowLogLimiter.windowSize s)) hist
  /\ ascending hist
  /\ Forall (fun ts => ts <= lo) hist.

(** The two window counts stay within [[0, limit]]. *)
Definition countsWithinLimit (s : SlidingWindowCounterLimiter.t) : Prop :=
  0 <= SlidingWindowCounterLimiter.count (SlidingWindowCounterLimiter.currentWindow s)
    <= SlidingWindowCounterLimiter.limit s
  /\ 0 <= SlidingWindowCounterLimiter.count (SlidingWindowCounterLimiter.previousWindow s)
       <= SlidingWindowCounterLimiter.limit s.


(** ** [class MemoryStorage]

    The [Map<string, { value; expires? }>] of the in-memory store, with
    numbers for values.  [expires] is an instant in milliseconds
    ([Date.now() + ttl * 1000], the time-to-live being in seconds and
    possibly fractional).  Each method takes the clock reading [now] it
    works with; [increment] awaits [get] and then [set], and is modelled as
    run without another caller in between. *)

Module MemoryStorage.

Abbreviation t := (gmap string (Z * option Q)).

(** A [number] seen as a condition: zero is falsy. *)
Definition truthy (q : Q) : bool := negb (Qeq_bool q 0).

(** [item.expires && item.expires < Date.now()] *)
Definition expired (expires : option Q) (now : Z) : bool :=
  match expires with
  | Some e => truthy e && Qlt_bool e (inject_Z now)
  | None => false
  end.

(** [get(key)]: the store as the method leaves it, and the value or [null]. *)
Definition get (store : t) (key : string) (now : Z) : t * option Z :=
  match store !! key with
  | None => (store, None)
  | Some (value, expires) =>
      if expired expires now then (delete key store, None)
      else (store, Some value)
  end.

(** [set(key, value, ttl)]: [ttl ? Date.now() + ttl * 1000 : undefined]. *)
Definition set (store : t) (key : string) (value : Z) (ttl : option Q) (now : Z) : t :=
  let expires :=
    match ttl with
    | Some seconds =>
        if truthy seconds then Some (inject_Z now + seconds * 1000)%Q else None
    | None => None
    end in
  <[key := (value, expires)]> store.

(** [increment(key, amount)] *)
Definition increment (store : t) (key : string) (amount : Z) (now : Z) : t * Z :=
  let (store1, found) := get store key now in
  let current := default 0 found in
  let newValue := current + amount in
  (set store1 key newValue None now, newValue).

(** [delete(key)]; named [remove] here, [delete] being the map operation. *)
Definition remove (store : t) (key : string) : t := delete key store.

Definition clear (store : t) : t := ∅.

(** A sequence of [increment] calls on one key: the amount and the clock
    reading of each. *)
Fixpoint incrementAll (store : t) (key : string) (calls : list (Z * Z)) : t * list Z :=
  match calls with
  | [] => (store, [])
  | (amount, now) :: rest =>
      let (store1, value) := increment store key amount now in
      let (store2, values) := incrementAll store1 key rest in
      (store2, value :: values)
  end.

End MemoryStorage.

(** [runningTotals acc amounts] is [acc + a1; acc + a1 + a2; ...]. *)
Fixpoint runningTotals (acc : Z) (amounts : list Z) : list Z :=
  match amounts with
  | [] => []
  | a :: rest => (acc + a) :: runningTotals (acc + a) rest
  end.

(** ** Distributed limiters, one caller at a time *)

(** The method run from its first storage operation to its result with no
    other caller in between. *)
Fixpoint runAlone {A : Type} (p : Async A) (st : Store) : A * Store :=
  match p with
  | Return a => (a, st)
  | AwaitGet key k => runAlone (k (storeGet st key)) st
  | AwaitSet key value ttl k => runAlone k (<[key := (value, ttl)]> st)
  | AwaitIncrement key amount k =>
      let newValue := default 0 (storeGet st key) + amount in
      runAlone (k newValue) (<[key := (newValue, None)]> st)
  | AwaitIncrBy key amount k =>
      let newValue := default 0 (storeGet st key) + amount in
      runAlone (k newValue) (<[key := (newValue, st !! key ≫= snd)]> st)
  | AwaitExpire key ttl k =>
      runAlone k (alter (fun e => (fst e, Some (inject_Z ttl))) key st)
  end.

(** Callers one after another: each call is [(now, tokens)]. *)
Fixpoint runEach {A : Type} (method : Z -> Z -> Async A) (calls : list Call) (st : Store)
  : list (Call * A) * Store :=
  match calls with
  | [] => ([], st)
  | (now, tokens) :: rest =>
      let (a, st1) := runAlone (method now tokens) st in
      let (results, st2) := runEach method rest st1 in
      (((now, tokens), a) :: results, st2)
  end.

(** The total cost of the calls that were admitted. *)
Definition admittedTotal {A : Type} (admitted : A -> bool) (results : list (Call * A)) : Z :=
  fold_right (fun '(call, a) total => (if admitted a then snd call else 0) + total)
             0 results.

(** ** [class RedisStorage]: key addressing *)

Module RedisStorage.

Definition makeKey (keyPrefix key : string) : string :=
  (keyPrefix ++ ":" ++ key)%string.

End RedisStorage.

(** ** [class RedisSlidingWindowCounter]

    The Lua script runs as one storage operation.  [GET] of a missing key is
    [false], so [tonumber(... or 0)] is 0; the script's reply is made of
    whole numbers. *)

Module RedisSlidingWindowCounter.

Record t : Type := mk {
  windowSize : Z;   (* in seconds *)
  limit : Z;
  identifier : string
}.

(** What [consume] resolves with. *)
Record result : Type := mkConsumed {
  allowed : bool;
  remaining : Z;
  resetAt : Z
}.

(** The script: the store after it, and the reply
    [{allowed, remaining, estimated_count}]. *)
Definition script (st : Store) (current_key previous_key : string)
           (window_size limit tokens : Z) (now : Q) (window_start : Z)
  : Store * (Z * Z * Z) :=
  (* Get counts *)
  let current := default 0 (storeGet st current_key) in
  let previous := default 0 (storeGet st previous_key) in
  (* Calculate estimated count *)
  let elapsed := (now - inject_Z window_start)%Q in
  let overlap_pct := ((inject_Z window_size - elapsed) / inject_Z window_size)%Q in
  let estimated_count := Qfloor (inject_Z previous * overlap_pct) + current in
  if estimated_count + tokens <=? limit then
    let st1 := <[current_key := (current + tokens, st !! current_key ≫= snd)]> st in
    let st2 := alter (fun e => (fst e, Some (inject_Z (window_size * 2)))) current_key st1 in
    (st2, (1, limit - estimated_count - tokens, estimated_count))
  else
    (st, (0, 0, estimated_count)).

Definition key (s : t) (windowStart : Z) : string :=
  ("sliding_window:" ++ identifier s ++ ":" ++ string_of_Z windowStart)%string.

(** [now] is [Date.now()], in milliseconds; the method works on
    [Date.now() / 1000], and [Math.floor (now / 1000 / windowSize)] is
    [now / (1000 * windowSize)]. *)
Definition consume (s : t) (st : Store) (now tokens : Z) : Store * result :=
  let windowStart := (now / (1000 * windowSize s)) * windowSize s in
  let prevWindowStart := windowStart - windowSize s in
  let currentKey := key s windowStart in
  let previousKey := key s prevWindowStart in
  let '(st1, (allowed, remaining, _)) :=
    script st currentKey previousKey (windowSize s) (limit s) tokens
           (seconds now) windowStart in
  (st1, mkConsumed (negb (allowed =? 0)) (Z.max 0 remaining)
                   ((windowStart + windowSize s) * 1000)).

(** Callers one after another; the script being one storage operation,
    every interleaving of concurrent callers is such a sequence. *)
Fixpoint consumeEach (s : t) (st : Store) (calls : list Call)
  : list (Call * result) * Store :=
  match calls with
  | [] => ([], st)
  | (now, tokens) :: rest =>
      let (st1, r) := consume s st now tokens in
      let (results, st2) := consumeEach s st1 rest in
      (((now, tokens), r) :: results, st2)
  end.

End RedisSlidingWindowCounter.

(** ** [class RedisTokenBucket]

    The bucket is a Redis hash with the fields [tokens] and [last_refill];
    [HMGET] of a missing hash gives [false] for both, so [tonumber(...) or
    ...] takes the defaults.  The script runs as one storage operation.  Its
    numbers are exact rationals here.  The third element of its reply,
    [retry_after], reaches [consume] through the reply conversion of the
    store and is left out of [consume]'s result. *)

Module RedisTokenBucket.

Record t : Type := mk {
  capacity : Q;
  refillRate : Q;
  identifier : string
}.

(** The hash: its two fields and the time-to-live last set, in seconds. *)
Record bucket : Type := mkBucket {
  tokens : Q;
  last_refill : Q;
  ttl : Z
}.

(** The script: the store after it, and the reply
    [{allowed, math.floor(tokens), retry_after}]. *)
Definition script (st : gmap string bucket) (key : string)
           (capacity refill_rate tokens_requested now : Q)
  : gmap string bucket * (Z * Z * Q) :=
  (* Get current state *)
  let tokens0 := default capacity (tokens <$> st !! key) in
  let last_refill0 := default now (last_refill <$> st !! key) in
  (* Refill tokens *)
  let elapsed := Qmax 0 (now - last_refill0) in
  let tokens_to_add := (elapsed * refill_rate)%Q in
  let tokens1 := Qmin capacity (tokens0 + tokens_to_add) in
  (* Try to consume *)
  let enough := Qle_bool tokens_requested tokens1 in
  let tokens2 := if enough then (tokens1 - tokens_requested)%Q else tokens1 in
  let allowed := if enough then 1 else 0 in
  (* Update state *)
  let st1 := <[key := mkBucket tokens2 now 3600]> st in
  (* Calculate retry_after *)
  let retry_after :=
    if enough then 0%Q else ((tokens_requested - tokens2) / refill_rate)%Q in
  (st1, (allowed, Qfloor tokens2, retry_after)).

Definition key (s : t) : string := ("token_bucket:" ++ identifier s)%string.

(** [consume(tokens)] at [Date.now() = now] milliseconds: the store after
    it, [allowed] and [remaining]. *)
Definition consume (s : t) (st : gmap string bucket) (now tokens : Z)
  : gmap string bucket * (bool * Z) :=
  let '(st1, (allowed, remaining, _)) :=
    script st (key s) (capacity s) (refillRate s) (inject_Z tokens) (seconds now) in
  (st1, (negb (allowed =? 0), remaining)).

Fixpoint consumeEach (s : t) (st : gmap string bucket) (calls : list Call)
  : list (Call * (bool * Z)) * gmap string bucket :=
  match calls with
  | [] => ([], st)
  | (now, tokens) :: rest =>
      let (st1, r) := consume s st now tokens in
      let (results, st2) := consumeEach s st1 rest in
      (((now, tokens), r) :: results, st2)
  end.

(** The capacity invariant on the stored bucket, when there is one. *)
Definition withinCapacity (s : t) (st : gmap string bucket) : Prop :=
  match st !! key s with
  | Some b => (0 <= tokens b)%Q /\ (tokens b <= capacity s)%Q
  | None => True
  end.

End RedisTokenBucket.

(** ** [class RateLimiterStore] and the [rateLimit] middleware
    ([examples/api-gateway/server.ts], the express middleware)

    The per-key limiters of the middleware.  [limiters] is the
    [Map<string, RateLimiter>]; a limiter found in the map is mutated in
    place by [allowRequest] and [release], which is written here as putting
    the new state back under its key. *)

Module RateLimiterStore.

Inductive Algorithm : Type :=
| TokenBucket | SlidingWindowCounter | FixedWindow | SlidingWindowLog | Concurrent.

(** The fields of [RateLimitMiddlewareConfig] that [createLimiter] reads;
    [None] is [undefined]. *)
Record Config : Type := mkConfig {
  algorithm : option Algorithm;
  windowSize : option Z;   (* in seconds *)
  limit : option Z;
  capacity : option Q;
  refillRate : option Q
}.

(** [a || b] on numbers: [undefined] and [0] are falsy. *)
Definition orElse (a : option Q) (b : Q) : Q :=
  match a with
  | Some q => if Qeq_bool q 0 then b else q
  | None => b
  end.

(** A limiter held in the map.  The middleware tells a
    [ConcurrentRequestsLimiter] from the other classes
    ([limiter instanceof ConcurrentRequestsLimiter]) and calls [release] on
    it, so that class is kept apart; a limiter of any other class is used
    through [allowRequest] alone. *)
Inductive Held : Type :=
| HeldConcurrent (s : ConcurrentRequestsLimiter.t)
| HeldOther (l : Limiter).

(** [createLimiter()] when the clock reads [now]. *)
Definition createLimiter (config : Config) (now : Z) : Held :=
  let algorithm := default SlidingWindowCounter (algorithm config) in
  let windowSize := default 60 (windowSize config) in
  let limit := default 100 (limit config) in
  match algorithm with
  | TokenBucket =>
      HeldOther
        (mkLimiter (TokenBucketLimiter.create
                      (orElse (capacity config) (inject_Z limit))
                      (orElse (refillRate config) (inject_Z limit / inject_Z windowSize)%Q)
                      now))
  | FixedWindow => HeldOther (mkLimiter (FixedWindowLimiter.create windowSize limit now))
  | SlidingWindowLog => HeldOther (mkLimiter (SlidingWindowLogLimiter.create windowSize limit))
  | Concurrent => HeldConcurrent (ConcurrentRequestsLimiter.create limit)
  | SlidingWindowCounter =>
      HeldOther (mkLimiter (SlidingWindowCounterLimiter.create windowSize limit))
  end.

(** [getLimiter(key)]: the map with the limiter in it, and the limiter. *)
Definition getLimiter (config : Config) (limiters : gmap string Held)
           (key : string) (now : Z) : gmap string Held * Held :=
  match limiters !! key with
  | Some limiter => (limiters, limiter)
  | None =>
      let limiter := createLimiter config now in
      (<[key := limiter]> limiters, limiter)
  end.

Definition clear (limiters : gmap string Held) : gmap string Held := ∅.

End RateLimiterStore.

Module rateLimit.

Import RateLimiterStore.

(** [limiter.allowRequest()], with the default cost 1, when the clock reads
    [now]. *)
Definition allowRequest (limiter : Held) (now : Z) : Held * RateLimitResult :=
  match limiter with
  | HeldConcurrent s =>
      let (s1, result) := ConcurrentRequestsLimiter.allowRequest s 1 in
      (HeldConcurrent s1, result)
  | HeldOther l =>
      let (l1, result) := MultiTierLimiter.memberAllowRequest l now 1 in
      (HeldOther l1, result)
  end.

(** [limiter.release()], as the ['finish'] and ['close'] handlers call it.
    The handlers are registered only when
    [limiter instanceof ConcurrentRequestsLimiter]. *)
Definition release (limiter : Held) : Held :=
  match limiter with
  | HeldConcurrent s => HeldConcurrent (ConcurrentRequestsLimiter.release s 1)
  | HeldOther l => HeldOther l
  end.

(** What reaches the store of one middleware.  [Request key created now] is
    a request that is not skipped and whose key is [key]: [created] is the
    clock reading of [getLimiter] (the limiter's constructor reads it when
    the key is new) and [now] that of [allowRequest].  [Completed key] is
    one run of a ['finish'] or ['close'] handler that an admitted request
    for [key] registered; the handler holds the limiter that the map holds
    for [key], since the middleware never removes a limiter.  The middleware
    registers both handlers, so one response can bring two such events. *)
Inductive Event : Type :=
| Request (key : string) (created now : Z)
| Completed (key : string).

(** One event: the map after it, and the result of [allowRequest] for a
    request. *)
Definition handle (config : Config) (limiters : gmap string Held) (event : Event)
  : gmap string Held * option RateLimitResult :=
  match event with
  | Request key created now =>
      let (limiters1, limiter) := getLimiter config limiters key created in
      let (limiter1, result) := allowRequest limiter now in
      (<[key := limiter1]> limiters1, Some result)
  | Completed key => (alter release key limiters, None)
  end.

(** A sequence of events; every result is paired with the key it was
    for. *)
Fixpoint serve (config : Config) (limiters : gmap string Held) (events : list Event)
  : gmap string Held * list (string * RateLimitResult) :=
  match events with
  | [] => (limiters, [])
  | event :: rest =>
      let (limiters1, result) := handle config limiters event in
      let (limiters2, results) := serve config limiters1 rest in
      (limiters2,
       match event, result with
       | Request key _ _, Some r => (key, r) :: results
       | _, _ => results
       end)
  end.

(** What one key sees of the events. *)
Inductive KeyEvent : Type :=
| KeyRequest (created now : Z)
| KeyCompleted.

Fixpoint eventsFor (key : string) (events : list Event) : list KeyEvent :=
  match events with
  | [] => []
  | Request k created now :: rest =>
      if decide (k = key) then KeyRequest created now :: eventsFor key rest
      else eventsFor key rest
  | Completed k :: rest =>
      if decide (k = key) then KeyCompleted :: eventsFor key rest
      else eventsFor key rest
  end.

(** One limiter on its own, built at its first request if there is none
    yet, over the events of its key: the limiter at the end, if any, and the
    results of the requests. *)
Fixpoint single (config : Config) (limiter : option Held) (events : list KeyEvent)
  : option Held * list RateLimitResult :=
  match events with
  | [] => (limiter, [])
  | KeyRequest created now :: rest =>
      let (limiter1, result) :=
        allowRequest (default (createLimiter config created) limiter) now in
      let (final, results) := single config (Some limiter1) rest in
      (final, result :: results)
  | KeyCompleted :: rest => single config (release <$> limiter) rest
  end.

End rateLimit.

(** The results for one key. *)
Definition resultsFor (key : string) (results : list (string * RateLimitResult))
  : list RateLimitResult :=
  map snd (filter (fun r : string * RateLimitResult => fst r = key) results).
(** * Properties *)

(** ** The concrete scenarios of the test suite, run on the embedding *)

(** [TokenBucketLimiter(10, 2)]: ten calls admitted with [remaining] 9 down
    to 0, the eleventh rejected with [retryAfter] half a second. *)
Example token_bucket_scenario :
  let results := snd (run (TokenBucketLimiter.create 10 2 0) (replicate 11 (0, 1))) in
  outcomes results
  = [(true, 9%Q); (true, 8%Q); (true, 7%Q); (true, 6%Q); (true, 5%Q);
     (true, 4%Q); (true, 3%Q); (true, 2%Q); (true, 1%Q); (true, 0%Q); (false, 0%Q)]
  /\ option_map Qred (last results ≫= retryAfter) = Some (1 # 2)%Q.
Proof. split; reflexivity. Qed.

(** [FixedWindowLimiter(1, 5)]: five admitted, the sixth rejected; 1100 ms
    later the next call is admitted with [remaining = 4]. *)
Example fixed_window_scenario :
  outcomes (snd (run (FixedWindowLimiter.create 1 5 0)
                     (replicate 6 (0, 1) ++ [(1100, 1)])))
  = [(true, 4%Q); (true, 3%Q); (true, 2%Q); (true, 1%Q); (true, 0%Q);
     (false, 0%Q); (true, 4%Q)].
Proof. reflexivity. Qed.

(** [SlidingWindowCounterLimiter(1, 10)]: filled in one window; half way
    into the next window five more are admitted and the sixth is rejected. *)
Example sliding_counter_scenario :
  map allowed (snd (run (SlidingWindowCounterLimiter.create 1 10)
                        (replicate 10 (1000, 1) ++ replicate 6 (2500, 1))))
  = replicate 15 true ++ [false].
Proof. reflexivity. Qed.

(** [ConcurrentRequestsLimiter(5)]: five admitted, one rejected; after
    [release(2)] two more are admitted and the third is rejected. *)
Example concurrent_scenario :
  let s5 := ConcurrentRequestsLimiter.performAll (ConcurrentRequestsLimiter.create 5)
              (replicate 5 (ConcurrentRequestsLimiter.AllowRequest 1)) in
  let s3 := ConcurrentRequestsLimiter.release s5 2 in
  let s5' := ConcurrentRequestsLimiter.performAll s3
               (replicate 2 (ConcurrentRequestsLimiter.AllowRequest 1)) in
  ConcurrentRequestsLimiter.activeRequests s5 = 5
  /\ allowed (snd (ConcurrentRequestsLimiter.allowRequest s5 1)) = false
  /\ ConcurrentRequestsLimiter.activeRequests s3 = 3
  /\ ConcurrentRequestsLimiter.activeRequests s5' = 5
  /\ allowed (snd (ConcurrentRequestsLimiter.allowRequest s5' 1)) = false.
Proof. repeat split. Qed.

(** The leak loop compares its counter with a bound that shrinks as the
    queue does: asked to leak 10 of 10 entries it removes 5. *)
Example leak_loop_scenario :
  LeakyBucketLimiter.leakLoop 0 10 [1; 2; 3; 4; 5; 6; 7; 8; 9; 10] = [6; 7; 8; 9; 10].
Proof. reflexivity. Qed.

(** ** Fixed window *)

Section FixedWindowFacts.
Import FixedWindowLimiter.


Lemma fixed_window_admits (s : t) (now tokens : Z) :
  countAt s now + tokens <= limit s ->
  allowRequest s now tokens =
    (mk (windowSize s) (limit s) (getCurrentWindow (windowSize s) now)
        (countAt s now + tokens),
     mkResult true (inject_Z (limit s))
              (inject_Z (limit s - (countAt s now + tokens)))
              (inject_Z (getCurrentWindow (windowSize s) now + windowSize s))
              None).
Proof.
  intros Hroom. unfold allowRequest, countAt in *.
  destruct (getCurrentWindow (windowSize s) now =? windowStart s) eqn:Hw; simpl.
  - apply Z.eqb_eq in Hw.
    destruct (count s + tokens <=? limit s) eqn:Hc; [|lia].
    simpl. rewrite Hw. reflexivity.
  - destruct (0 + tokens <=? limit s) eqn:Hc; [|lia].
    reflexivity.
Qed.

(** A burst of [n] unit requests at one clock reading is admitted whole
    when the window has room for it. *)
Lemma burst_admitted (n : nat) : forall (s : t) (now : Z),
  countAt s now + Z.of_nat n <= limit s ->
  let out := run s (replicate n (now, 1)) in
  Forall (fun r => allowed r = true) (snd out)
  /\ length (snd out) = n
  /\ windowSize (fst out) = windowSize s
  /\ limit (fst out) = limit s
  /\ (fst out = s \/ windowStart (fst out) = getCurrentWindow (windowSize s) now).
Proof.
  induction n as [|n IH]; intros s now Hroom; simpl.
  - repeat split; auto.
  - rewrite fixed_window_admits by lia.
    set (s1 := mk _ _ _ _).
    assert (Hsame : countAt s1 now = countAt s now + 1).
    { unfold countAt, s1; simpl. now rewrite Z.eqb_refl. }
    specialize (IH s1 now). simpl in IH.
    destruct (run s1 (replicate n (now, 1))) as [s2 rs] eqn:Hrun.
    simpl in *. destruct IH as (Hall & Hlen & Hws & Hlim & Hstart); [lia|].
    repeat split; auto.
    right. destruct Hstart as [-> | ->]; reflexivity.
Qed.

Lemma countAt_create (windowSize limit t0 now : Z) :
  countAt (create windowSize limit t0) now = 0.
Proof.
  unfold countAt, create. cbn [count windowStart FixedWindowLimiter.windowSize].
  destruct (Z.eqb _ _); reflexivity.
Qed.

Lemma countAt_other_window (s : t) (now : Z) :
  getCurrentWindow (windowSize s) now <> windowStart s -> countAt s now = 0.
Proof.
  intros Hne. unfold countAt.
  destruct (Z.eqb_spec (getCurrentWindow (windowSize s) now) (windowStart s));
    [contradiction | reflexivity].
Qed.
End FixedWindowFacts.

Lemma run_app {St : Type} `{RateLimiter St} (s : St) (xs ys : list Call) :
  run s (xs ++ ys) =
    (fst (run (fst (run s xs)) ys), snd (run s xs) ++ snd (run (fst (run s xs)) ys)).
Proof.
  revert s. induction xs as [|[now tokens] xs IH]; intros s; simpl.
  - now destruct (run s ys).
  - destruct (allowRequest s now tokens) as [s1 r].
    rewrite IH. destruct (run s1 xs) as [s2 rs]. reflexivity.
Qed.

(** C8. Fixed-window boundary: with a window of 1000 ms and limit [L], a
    fresh limiter admits [L] unit requests at t = 999 ms and then [L] more at
    t = 1001 ms: all [2 L] calls are admitted.  The limiter may have been
    created at any clock reading [t0]. *)
Theorem fixed_window_boundary (L : nat) (t0 : Z) :
  let fresh := FixedWindowLimiter.create 1 (Z.of_nat L) t0 in
  let calls : list Call := replicate L (999, 1) ++ replicate L (1001, 1) in
  let results := snd (run fresh calls) in
  length results = (2 * L)%nat /\ Forall (fun r => allowed r = true) results.
Proof.
  intros fresh calls results. subst results calls.
  rewrite run_app. cbn [snd].
  pose proof (burst_admitted L fresh 999) as H1. cbv zeta in H1.
  destruct H1 as (Hall1 & Hlen1 & Hws1 & Hlim1 & Hst1).
  { unfold fresh. rewrite countAt_create. cbn [FixedWindowLimiter.limit FixedWindowLimiter.create]. lia. }
  set (s1 := fst (run fresh (replicate L _))) in *.
  pose proof (burst_admitted L s1 1001) as H2. cbv zeta in H2.
  destruct H2 as (Hall2 & Hlen2 & _).
  { rewrite Hlim1.
    assert (Hzero : FixedWindowLimiter.countAt s1 1001 = 0).
    { destruct Hst1 as [-> | Hst1].
      - apply countAt_create.
      - apply countAt_other_window. rewrite Hws1, Hst1.
        unfold fresh. vm_compute. discriminate. }
    rewrite Hzero. unfold fresh. cbn [FixedWindowLimiter.limit FixedWindowLimiter.create]. lia. }
  split.
  - rewrite length_app, Hlen1, Hlen2. lia.
  - apply Forall_app. split; assumption.
Qed.

(** ** Concurrent-request limiter *)

Section ConcurrentFacts.
Import ConcurrentRequestsLimiter.

Lemma perform_maxConcurrent (s : t) (o : op) :
  maxConcurrent (perform s o) = maxConcurrent s.
Proof.
  destruct o as [n|n]; simpl; [|reflexivity].
  unfold allowRequest. destruct (Z.leb _ _); reflexivity.
Qed.

(** One call keeps the count non-negative, and raises it by no more than
    what it admits. *)
Lemma perform_bounds (s : t) (o : op) :
  0 <= activeRequests s -> 0 < cost o ->
  0 <= activeRequests (perform s o)
  /\ activeRequests (perform s o) <= activeRequests s + admittedCost s [o].
Proof.
  intros Hs Hc. destruct o as [n|n]; simpl in *.
  - unfold allowRequest.
    destruct (activeRequests s + n <=? maxConcurrent s); simpl; lia.
  - lia.
Qed.

Lemma performAll_bounds (ops : list op) : forall s : t,
  0 <= activeRequests s -> Forall (fun o => 0 < cost o) ops ->
  0 <= activeRequests (performAll s ops)
  /\ activeRequests (performAll s ops) <= activeRequests s + admittedCost s ops.
Proof.
  induction ops as [|o ops IH]; intros s Hs Hpos.
  - simpl. lia.
  - inversion Hpos as [|? ? Ho Hrest]; subst.
    destruct (perform_bounds s o Hs Ho) as [H0 H1].
    destruct (IH (perform s o) H0 Hrest) as [H2 H3].
    change (performAll s (o :: ops)) with (performAll (perform s o) ops).
    split; [exact H2|].
    cbn [admittedCost] in *. lia.
Qed.

(** A run of releases subtracts their total, stopping at zero. *)
Lemma releases_clamp (costs : list Z) : forall s : t,
  0 <= activeRequests s -> Forall (fun c => 0 < c) costs ->
  activeRequests (performAll s (map Release costs))
  = Z.max 0 (activeRequests s - total costs).
Proof.
  induction costs as [|c costs IH]; intros s Hs Hpos.
  - simpl. lia.
  - inversion Hpos as [|? ? Hc Hrest]; subst.
    change (performAll s (map Release (c :: costs)))
      with (performAll (release s c) (map Release costs)).
    rewrite IH; [|simpl; lia|assumption].
    cbn [total fold_right release activeRequests].
    fold (total costs).
    assert (0 <= total costs).
    { clear -Hrest. induction Hrest; simpl; [lia|]. fold (total l). lia. }
    lia.
Qed.
End ConcurrentFacts.

(** C9. Release is clamped: on a fresh [ConcurrentRequestsLimiter], after any
    interleaving [ops] of [allowRequest] and [release] calls (costs are
    positive integers) the active count is not negative; and when releases
    are then called for at least the total cost that [ops] had admitted, more
    often or for more than was admitted, the active count is exactly 0. *)
Theorem release_clamped_at_zero
  (maxConcurrent : Z) (ops : list ConcurrentRequestsLimiter.op) (releases : list Z) :
  Forall (fun o => 0 < ConcurrentRequestsLimiter.cost o) ops ->
  Forall (fun c => 0 < c) releases ->
  ConcurrentRequestsLimiter.admittedCost
    (ConcurrentRequestsLimiter.create maxConcurrent) ops
    <= ConcurrentRequestsLimiter.total releases ->
  let fresh := ConcurrentRequestsLimiter.create maxConcurrent in
  0 <= ConcurrentRequestsLimiter.activeRequests
         (ConcurrentRequestsLimiter.performAll fresh ops)
  /\ ConcurrentRequestsLimiter.activeRequests
       (ConcurrentRequestsLimiter.performAll fresh
          (ops ++ map ConcurrentRequestsLimiter.Release releases)) = 0.
Proof.
  intros Hops Hrel Hover fresh.
  destruct (performAll_bounds ops fresh) as [Hnonneg Hupper]; [simpl; lia|assumption|].
  split; [exact Hnonneg|].
  unfold ConcurrentRequestsLimiter.performAll at 1. rewrite fold_left_app.
  fold (ConcurrentRequestsLimiter.performAll fresh ops).
  fold (ConcurrentRequestsLimiter.performAll
          (ConcurrentRequestsLimiter.performAll fresh ops)
          (map ConcurrentRequestsLimiter.Release releases)).
  rewrite releases_clamp by assumption.
  change (ConcurrentRequestsLimiter.activeRequests fresh) with 0 in Hupper.
  subst fresh. lia.
Qed.

Lemma release_clamped_at_zero_witness :
  let ops := [ConcurrentRequestsLimiter.AllowRequest 3;
              ConcurrentRequestsLimiter.Release 5;
              ConcurrentRequestsLimiter.AllowRequest 2;
              ConcurrentRequestsLimiter.AllowRequest 4] in
  let fresh := ConcurrentRequestsLimiter.create 5 in
  0 <= ConcurrentRequestsLimiter.activeRequests
         (ConcurrentRequestsLimiter.performAll fresh ops)
  /\ ConcurrentRequestsLimiter.activeRequests
       (ConcurrentRequestsLimiter.performAll fresh
          (ops ++ map ConcurrentRequestsLimiter.Release [2; 2; 2])) = 0.
Proof.
  intros ops fresh.
  apply (release_clamped_at_zero 5 ops [2; 2; 2]).
  - repeat constructor.
  - repeat constructor.
  - vm_compute. discriminate.
Defined.

(** ** Token bucket and leaky bucket *)

Lemma seconds_nonneg (ms : Z) : 0 <= ms -> (0 <= seconds ms)%Q.
Proof.
  intros H. unfold seconds. apply Qle_shift_div_l; [reflexivity|].
  rewrite Qmult_0_l. change 0%Q with (inject_Z 0). now rewrite <- Zle_Qle.
Qed.

Section TokenBucketFacts.
Import TokenBucketLimiter.

Lemma refill_bounds (s : t) (now : Z) :
  (0 <= refillRate s)%Q -> lastRefill s <= now ->
  tokensWithinCapacity s -> tokensWithinCapacity (refill s now).
Proof.
  intros Hrate Hclock [Hlo Hhi]. unfold tokensWithinCapacity, refill.
  cbn [tokens capacity].
  assert (Hadd : (0 <= seconds (now - lastRefill s) * refillRate s)%Q).
  { apply Qmult_le_0_compat; [apply seconds_nonneg; lia | assumption]. }
  split.
  - apply Q.min_glb; lra.
  - apply Q.le_min_l.
Qed.

Lemma token_bucket_allowRequest_bounds (s : t) (now requested : Z) :
  (0 <= refillRate s)%Q -> lastRefill s <= now -> 0 < requested ->
  tokensWithinCapacity s ->
  tokensWithinCapacity (fst (allowRequest s now requested)).
Proof.
  intros Hrate Hclock Hcost Hinv.
  destruct (refill_bounds s now Hrate Hclock Hinv) as [Hlo Hhi].
  unfold allowRequest.
  destruct (Qle_bool (inject_Z requested) (tokens (refill s now))) eqn:Henough;
    cbn [fst]; [|split; assumption].
  apply Qle_bool_iff in Henough.
  assert (Hpos : (0 < inject_Z requested)%Q).
  { change 0%Q with (inject_Z 0). now rewrite <- Zlt_Qlt. }
  unfold tokensWithinCapacity. cbn [tokens capacity] in *. split; lra.
Qed.

Lemma token_bucket_applyOp_config (s : t) (o : Op) :
  capacity (applyOp s o) = capacity s
  /\ refillRate (applyOp s o) = refillRate s
  /\ lastRefill (applyOp s o) = opTime o.
Proof.
  destruct o as [now requested|now]; simpl; [|auto].
  unfold allowRequest. destruct (Qle_bool _ _); simpl; auto.
Qed.

Lemma token_bucket_applyOps_bounds (ops : list Op) : forall s : t,
  (0 <= capacity s)%Q -> (0 <= refillRate s)%Q ->
  clockFrom (lastRefill s) (map opTime ops) ->
  Forall positiveCost ops ->
  tokensWithinCapacity s ->
  tokensWithinCapacity (applyOps s ops) /\ capacity (applyOps s ops) = capacity s.
Proof.
  induction ops as [|o ops IH]; intros s Hcap Hrate Hclock Hcost Hinv.
  - simpl. auto.
  - destruct Hclock as [Hnow Hclock].
    inversion Hcost as [|? ? Ho Hrest]; subst.
    destruct (token_bucket_applyOp_config s o) as (Ecap & Erate & Elast).
    change (applyOps s (o :: ops)) with (applyOps (applyOp s o) ops).
    destruct (IH (applyOp s o)) as [Hfinal Hsame].
    + now rewrite Ecap.
    + now rewrite Erate.
    + now rewrite Elast.
    + assumption.
    + destruct o as [now requested|now].
      * apply token_bucket_allowRequest_bounds; assumption.
      * unfold tokensWithinCapacity. simpl. split; [assumption|apply Qle_refl].
    + split; [assumption|congruence].
Qed.
End TokenBucketFacts.

Section LeakyBucketFacts.
Import LeakyBucketLimiter.

Lemma leakLoop_length (queue : list Z) : forall i requestsToLeak : Z,
  (length (leakLoop i requestsToLeak queue) <= length queue)%nat.
Proof.
  induction queue as [|x rest IH]; intros i r; simpl; [lia|].
  destruct (Z.ltb _ _); [|simpl; lia].
  specialize (IH (i + 1) r). lia.
Qed.

Lemma leaky_applyOp_bounds (s : t) (o : Op) :
  0 <= capacity s -> positiveCost o ->
  queueWithinCapacity s ->
  queueWithinCapacity (applyOp s o) /\ capacity (applyOp s o) = capacity s.
Proof.
  intros Hcap Hcost [_ Hhi]. unfold queueWithinCapacity.
  destruct o as [now tokens|now]; simpl in *; [|lia].
  unfold allowRequest.
  pose proof (leakLoop_length (queue s) 0
                (Qfloor (seconds (now - lastLeak s) * leakRate s))) as Hleak.
  cbn [leak queue capacity].
  destruct (Z.leb_spec
              (Z.of_nat (length (leakLoop 0
                 (Qfloor (seconds (now - lastLeak s) * leakRate s)) (queue s)))
               + tokens) (capacity s)) as [Hroom|Hfull]; cbn [fst queue capacity].
  - rewrite length_app, length_replicate. lia.
  - unfold leak. cbn [queue capacity]. lia.
Qed.

Lemma leaky_applyOps_bounds (ops : list Op) : forall s : t,
  0 <= capacity s -> Forall positiveCost ops ->
  queueWithinCapacity s ->
  queueWithinCapacity (applyOps s ops) /\ capacity (applyOps s ops) = capacity s.
Proof.
  induction ops as [|o ops IH]; intros s Hcap Hcost Hinv.
  - simpl. auto.
  - inversion Hcost as [|? ? Ho Hrest]; subst.
    destruct (leaky_applyOp_bounds s o Hcap Ho Hinv) as [Hstep Ecap].
    change (applyOps s (o :: ops)) with (applyOps (applyOp s o) ops).
    destruct (IH (applyOp s o)) as [Hfinal Hsame]; [lia|assumption|assumption|].
    split; [assumption|congruence].
Qed.
End LeakyBucketFacts.

(** C6. Capacity invariant: for a [TokenBucketLimiter] and a
    [LeakyBucketLimiter] created at clock reading [t0] with non-negative
    capacity (and refill rate), after every sequence of [allowRequest] and
    [reset] calls with positive costs, on a clock that does not go back, the
    token count lies in [[0, capacity]] and so does the queue length. *)
Theorem capacity_invariant
  (capacity refillRate : Q) (queueCapacity : Z) (leakRate : Q)
  (t0 : Z) (ops : list Op) :
  (0 <= capacity)%Q -> (0 <= refillRate)%Q -> 0 <= queueCapacity ->
  clockFrom t0 (map opTime ops) ->
  Forall positiveCost ops ->
  let bucket := applyOps (TokenBucketLimiter.create capacity refillRate t0) ops in
  let leaky := applyOps (LeakyBucketLimiter.create queueCapacity leakRate t0) ops in
  ((0 <= TokenBucketLimiter.tokens bucket)%Q
   /\ (TokenBucketLimiter.tokens bucket <= capacity)%Q)
  /\ 0 <= Z.of_nat (length (LeakyBucketLimiter.queue leaky)) <= queueCapacity.
Proof.
  intros Hcap Hrate Hqcap Hclock Hcost bucket leaky. split.
  - destruct (token_bucket_applyOps_bounds ops (TokenBucketLimiter.create capacity refillRate t0))
      as [[Hlo Hhi] Ecap]; try assumption.
    + split; [assumption | apply Qle_refl].
    + fold bucket in Hlo, Hhi, Ecap. rewrite Ecap in Hhi. split; assumption.
  - destruct (leaky_applyOps_bounds ops (LeakyBucketLimiter.create queueCapacity leakRate t0))
      as [Hq Ecap]; try assumption.
    + unfold LeakyBucketLimiter.queueWithinCapacity. simpl. lia.
    + fold leaky in Hq, Ecap. unfold LeakyBucketLimiter.queueWithinCapacity in Hq.
      rewrite Ecap in Hq. exact Hq.
Qed.

Lemma capacity_invariant_witness :
  let ops := [CallAllowRequest 0 4; CallAllowRequest 250 7;
              CallReset 300; CallAllowRequest 1500 10; CallAllowRequest 1600 1] in
  let bucket := applyOps (TokenBucketLimiter.create 10 2 0) ops in
  let leaky := applyOps (LeakyBucketLimiter.create 10 2 0) ops in
  ((0 <= TokenBucketLimiter.tokens bucket)%Q
   /\ (TokenBucketLimiter.tokens bucket <= 10)%Q)
  /\ 0 <= Z.of_nat (length (LeakyBucketLimiter.queue leaky)) <= 10.
Proof.
  intros ops.
  apply (capacity_invariant 10 2 10 2 0 ops).
  - vm_compute. discriminate.
  - vm_compute. discriminate.
  - lia.
  - simpl. lia.
  - repeat constructor.
Defined.

(** ** Sliding-window log *)

Lemma filter_replicate_True {A : Type} (P : A -> Prop) `{forall x, Decision (P x)}
      (n : nat) (x : A) :
  P x -> filter P (replicate n x) = replicate n x.
Proof.
  intros Hx. induction n as [|n IH]; [reflexivity|].
  cbn [replicate]. rewrite filter_cons_True by assumption. now rewrite IH.
Qed.

Lemma filter_replicate_False {A : Type} (P : A -> Prop) `{forall x, Decision (P x)}
      (n : nat) (x : A) :
  ~ P x -> filter P (replicate n x) = [].
Proof.
  intros Hx. induction n as [|n IH]; [reflexivity|].
  cbn [replicate]. now rewrite filter_cons_False by assumption.
Qed.

Lemma filter_none {A : Type} (P : A -> Prop) `{forall x, Decision (P x)} (l : list A) :
  Forall (fun x => ~ P x) l -> filter P l = [].
Proof.
  induction 1 as [|x l Hx _ IH]; [reflexivity|].
  now rewrite filter_cons_False by assumption.
Qed.

Section SlidingLogFacts.
Import SlidingWindowLogLimiter.

(** The pruning loop removes a prefix, and only entries at or before the
    cutoff. *)
Lemma shiftOld_split (cutoff : Z) (requests : list Z) :
  exists dropped,
    requests = dropped ++ shiftOld cutoff requests
    /\ Forall (fun ts => ts <= cutoff) dropped.
Proof.
  induction requests as [|x rest IH]; simpl.
  - exists []. split; [reflexivity|constructor].
  - destruct (Z.leb_spec x cutoff) as [Hold|Hnew].
    + destruct IH as (dropped & Hsplit & Hall).
      exists (x :: dropped). split.
      * simpl. now rewrite <- Hsplit.
      * constructor; assumption.
    + exists []. split; [reflexivity|constructor].
Qed.

Lemma sliding_log_config (s : t) (now tokens : Z) :
  windowSize (fst (allowRequest s now tokens)) = windowSize s
  /\ limit (fst (allowRequest s now tokens)) = limit s.
Proof.
  unfold allowRequest. destruct (Z.leb _ _); simpl; auto.
Qed.

Lemma sliding_log_step (s : t) (hist : list Z) (lo now tokens : Z) :
  logInv s hist lo -> lo <= now ->
  logInv (fst (allowRequest s now tokens))
         (hist ++ (if allowed (snd (allowRequest s now tokens))
                   then replicate (Z.to_nat tokens) now else []))
         now.
Proof.
  intros ((dropped & Hhist & Hdropped) & Hlen & Hwin) Hclock.
  destruct (shiftOld_split (now - windowSize s) (requests s))
    as (dropped1 & Hsplit & Hdropped1).
  assert (Hall : Forall (fun ts => ts <= now - windowSize s) (dropped ++ dropped1)).
  { apply Forall_app. split; [|assumption].
    eapply Forall_impl; [exact Hdropped|]. simpl. intros; lia. }
  assert (Hkept : (length (shiftOld (now - windowSize s) (requests s))
                   <= length (requests s))%nat).
  { rewrite Hsplit at 2. rewrite length_app. lia. }
  unfold allowRequest, removeOldRequests. cbn [requests limit windowSize].
  destruct (Z.leb_spec
              (Z.of_nat (length (shiftOld (now - windowSize s) (requests s))) + tokens)
              (limit s)) as [Hroom|Hfull];
    cbn [fst snd allowed requests limit windowSize].
  - (* admitted *)
    assert (Hhist' : hist ++ replicate (Z.to_nat tokens) now
                     = (dropped ++ dropped1)
                         ++ (shiftOld (now - windowSize s) (requests s)
                             ++ replicate (Z.to_nat tokens) now)).
    { rewrite Hhist, Hsplit at 1. now rewrite <- !app_assoc. }
    assert (Hlen' : Z.of_nat (length (shiftOld (now - windowSize s) (requests s)
                                      ++ replicate (Z.to_nat tokens) now))
                    <= limit s).
    { rewrite length_app, length_replicate. lia. }
    unfold logInv. cbn [requests limit windowSize].
    split; [|split].
    + exists (dropped ++ dropped1). split; assumption.
    + exact Hlen'.
    + intros a. destruct (decide (within a (windowSize s) now)) as [Hin|Hout].
      * rewrite Hhist', filter_app.
        rewrite (filter_none _ (dropped ++ dropped1)).
        -- cbn [app]. etransitivity; [|exact Hlen'].
           apply Nat2Z.inj_le, length_filter.
        -- eapply Forall_impl; [exact Hall|]. unfold within in *. simpl. intros; lia.
      * rewrite filter_app, filter_replicate_False by assumption.
        rewrite app_nil_r. apply Hwin.
  - (* rejected *)
    rewrite app_nil_r. unfold logInv. cbn [requests limit windowSize].
    split; [|split].
    + exists (dropped ++ dropped1). split; [|assumption].
      rewrite Hhist, Hsplit at 1. now rewrite <- app_assoc.
    + lia.
    + exact Hwin.
Qed.

Lemma units_cons (now tokens : Z) (calls : list Call) :
  units ((now, tokens) :: calls) = replicate (Z.to_nat tokens) now ++ units calls.
Proof. reflexivity. Qed.

End SlidingLogFacts.

(** No interval of the history of admitted units ever holds more than
    [limit] entries. *)
Lemma admitted_units_bounded (calls : list Call) :
  forall (s : SlidingWindowLogLimiter.t) (hist : list Z) (lo : Z),
    SlidingWindowLogLimiter.logInv s hist lo -> clockFrom lo (map fst calls) ->
    forall a,
      Z.of_nat (length (filter (within a (SlidingWindowLogLimiter.windowSize s))
                               (hist ++ units (admittedCalls s calls))))
      <= SlidingWindowLogLimiter.limit s.
Proof.
  induction calls as [|[now tokens] calls IH]; intros s hist lo Hinv Hclock a.
  - simpl. rewrite app_nil_r. apply Hinv.
  - destruct Hclock as [Hnow Hclock]. cbn [map fst] in *.
    pose proof (sliding_log_step s hist lo now tokens Hinv Hnow) as Hstep.
    destruct (sliding_log_config s now tokens) as [Ews Elim].
    cbn [admittedCalls].
    change (allowRequest s now tokens)
      with (SlidingWindowLogLimiter.allowRequest s now tokens).
    destruct (SlidingWindowLogLimiter.allowRequest s now tokens) as [s1 r].
    cbn [fst snd] in *.
    specialize (IH s1 _ now Hstep Hclock a). rewrite Ews, Elim in IH.
    destruct (allowed r).
    + rewrite units_cons, app_assoc. exact IH.
    + rewrite app_nil_r in IH. exact IH.
Qed.

Lemma admittedCalls_positive {St : Type} `{RateLimiter St} (calls : list Call) :
  forall s : St,
    Forall (fun c : Call => 0 < snd c) calls ->
    Forall (fun c : Call => 0 < snd c) (admittedCalls s calls).
Proof.
  induction calls as [|[now tokens] calls IH]; intros s Hpos; simpl.
  - constructor.
  - inversion Hpos as [|? ? Hc Hrest]; subst.
    destruct (allowRequest s now tokens) as [s1 r].
    destruct (allowed r); [constructor; [assumption|]|]; now apply IH.
Qed.

(** With positive costs, an interval holds no more admitted calls than
    admitted units. *)
Lemma calls_le_units (a W : Z) (calls : list Call) :
  Forall (fun c : Call => 0 < snd c) calls ->
  (length (filter (fun c : Call => within a W (fst c)) calls)
   <= length (filter (within a W) (units calls)))%nat.
Proof.
  induction 1 as [|[now tokens] calls Hc _ IH]; [simpl; lia|].
  rewrite units_cons, filter_app, length_app. cbn [snd] in Hc.
  destruct (decide (within a W now)) as [Hin|Hout].
  - rewrite filter_cons_True by exact Hin.
    rewrite filter_replicate_True by exact Hin.
    rewrite length_replicate. cbn [length]. lia.
  - rewrite filter_cons_False by exact Hout. lia.
Qed.

(** C1. Sliding-log exactness: for a [SlidingWindowLogLimiter] with window
    [W] seconds and limit [L >= 0], and calls of positive cost at
    non-decreasing clock readings, no sliding interval [(a, a + W]] of length
    [W] holds more than [L] admitted requests, whether one counts the
    admitted calls or the units of cost they were admitted for. *)
Theorem sliding_log_exactness (W L : Z) (calls : list Call) (a : Z) :
  0 <= L ->
  nondecreasing (map fst calls) ->
  Forall (fun c : Call => 0 < snd c) calls ->
  let admitted := admittedCalls (SlidingWindowLogLimiter.create W L) calls in
  Z.of_nat (length (filter (fun c : Call => within a (W * 1000) (fst c)) admitted)) <= L
  /\ Z.of_nat (length (filter (within a (W * 1000)) (units admitted))) <= L.
Proof.
  intros HL Hclock Hpos admitted.
  assert (Hunits : Z.of_nat (length (filter (within a (W * 1000)) (units admitted))) <= L).
  { pose proof (admitted_units_bounded calls (SlidingWindowLogLimiter.create W L) []
                  (match calls with [] => 0 | c :: _ => fst c end)) as Hb.
    cbn [SlidingWindowLogLimiter.create SlidingWindowLogLimiter.windowSize
         SlidingWindowLogLimiter.limit app] in Hb.
    apply Hb.
    - unfold SlidingWindowLogLimiter.logInv. cbn. split; [|split].
      + exists []. split; [reflexivity|constructor].
      + exact HL.
      + intros _. exact HL.
    - destruct calls as [|[now tokens] calls]; [exact I|].
      cbn in *. split; [lia|exact Hclock]. }
  split; [|exact Hunits].
  etransitivity; [|exact Hunits].
  apply Nat2Z.inj_le, calls_le_units.
  now apply admittedCalls_positive.
Qed.

Lemma sliding_log_exactness_witness :
  let calls : list Call := [(0, 1); (400, 1); (400, 1); (1000, 1); (1200, 2)] in
  let admitted := admittedCalls (SlidingWindowLogLimiter.create 1 2) calls in
  Z.of_nat (length (filter (fun c : Call => within 300 (1 * 1000) (fst c)) admitted)) <= 2
  /\ Z.of_nat (length (filter (within 300 (1 * 1000)) (units admitted))) <= 2.
Proof.
  intros calls.
  apply (sliding_log_exactness 1 2 calls 300).
  - lia.
  - simpl. lia.
  - repeat constructor.
Defined.

(** ** Sliding-window counter *)

(** When a call falls in the window right after the current one, the shift
    leaves the two window starts exactly one window apart. *)
Lemma sliding_counter_adjacent_shift (s : SlidingWindowCounterLimiter.t) (now tokens : Z) :
  SlidingWindowCounterLimiter.windowSize s <> 0 ->
  SlidingWindowCounterLimiter.getWindowStart (SlidingWindowCounterLimiter.windowSize s) now
  = SlidingWindowCounterLimiter.start (SlidingWindowCounterLimiter.currentWindow s)
    + SlidingWindowCounterLimiter.windowSize s ->
  let s1 := fst (SlidingWindowCounterLimiter.allowRequest s now tokens) in
  SlidingWindowCounterLimiter.start (SlidingWindowCounterLimiter.currentWindow s1)
  - SlidingWindowCounterLimiter.start (SlidingWindowCounterLimiter.previousWindow s1)
  = SlidingWindowCounterLimiter.windowSize s1.
Proof.
  intros Hws Hnext. cbv zeta. unfold SlidingWindowCounterLimiter.allowRequest.
  rewrite Hnext.
  destruct (Z.eqb_spec
              (SlidingWindowCounterLimiter.start (SlidingWindowCounterLimiter.currentWindow s)
               + SlidingWindowCounterLimiter.windowSize s)
              (SlidingWindowCounterLimiter.start (SlidingWindowCounterLimiter.currentWindow s)))
    as [Heq|_]; [lia|].
  cbn [negb].
  match goal with
  | |- context [Z.leb ?a ?b] => destruct (Z.leb a b)
  end; cbn; lia.
Qed.

(** C3. The local sliding-window counter keeps whatever window it was last
    in as [previousWindow], however long ago that was.  With a 1000 ms
    window, calls at 1000, 2000 and 5000 ms make three transitions, and
    after the third the two window starts are 3000 ms apart, not 1000.  The
    stale window is still weighed in the estimate: with limit 10, ten
    requests admitted at 1000 ms make the limiter reject a request at
    5000 ms, three idle windows later. *)
Theorem sliding_counter_skipped_window :
  let fresh := SlidingWindowCounterLimiter.create 1 10 in
  let calls : list Call := [(1000, 1); (2000, 1); (5000, 1)] in
  SlidingWindowCounterLimiter.transitions fresh calls = 3%nat
  /\ (exists s,
        last (SlidingWindowCounterLimiter.states fresh calls) = Some s
        /\ SlidingWindowCounterLimiter.windowSize s = 1000
        /\ SlidingWindowCounterLimiter.start (SlidingWindowCounterLimiter.currentWindow s)
           - SlidingWindowCounterLimiter.start (SlidingWindowCounterLimiter.previousWindow s)
           = 3000)
  /\ map allowed (snd (run fresh (replicate 10 (1000, 1) ++ [(5000, 1)])))
     = replicate 10 true ++ [false].
Proof.
  split; [reflexivity|]. split; [|reflexivity].
  eexists. split; [reflexivity|]. split; reflexivity.
Qed.

(** ** Observability accessors *)

Lemma seconds_zero (now : Z) (rate : Q) : (seconds (now - now) * rate == 0)%Q.
Proof. rewrite Z.sub_diag. unfold seconds. field. Qed.

Section AccessorFacts.

Lemma refill_idempotent (s : TokenBucketLimiter.t) (now : Z) :
  let s1 := TokenBucketLimiter.refill s now in
  let s2 := TokenBucketLimiter.refill s1 now in
  (TokenBucketLimiter.tokens s2 == TokenBucketLimiter.tokens s1)%Q
  /\ TokenBucketLimiter.lastRefill s2 = TokenBucketLimiter.lastRefill s1
  /\ TokenBucketLimiter.capacity s2 = TokenBucketLimiter.capacity s
  /\ TokenBucketLimiter.refillRate s2 = TokenBucketLimiter.refillRate s.
Proof.
  cbv zeta. unfold TokenBucketLimiter.refill.
  cbn [TokenBucketLimiter.tokens TokenBucketLimiter.lastRefill
       TokenBucketLimiter.capacity TokenBucketLimiter.refillRate].
  repeat split.
  rewrite seconds_zero, Qplus_0_r.
  apply Q.min_r, Q.le_min_l.
Qed.

Lemma leakLoop_zero (queue : list Z) (requestsToLeak : Z) :
  requestsToLeak <= 0 -> LeakyBucketLimiter.leakLoop 0 requestsToLeak queue = queue.
Proof.
  intros Hr. destruct queue as [|x rest]; [reflexivity|].
  cbn [LeakyBucketLimiter.leakLoop].
  destruct (Z.ltb_spec 0 (Z.min requestsToLeak (Z.of_nat (length (x :: rest)))));
    [lia|reflexivity].
Qed.

Lemma leak_idempotent (s : LeakyBucketLimiter.t) (now : Z) :
  LeakyBucketLimiter.leak (LeakyBucketLimiter.leak s now) now
  = LeakyBucketLimiter.leak s now.
Proof.
  unfold LeakyBucketLimiter.leak at 1.
  cbn [LeakyBucketLimiter.lastLeak LeakyBucketLimiter.leak
       LeakyBucketLimiter.capacity LeakyBucketLimiter.leakRate
       LeakyBucketLimiter.queue].
  rewrite leakLoop_zero; [reflexivity|].
  rewrite (Qfloor_comp _ 0%Q) by apply seconds_zero. reflexivity.
Qed.

Lemma shiftOld_idempotent (cutoff : Z) (requests : list Z) :
  SlidingWindowLogLimiter.shiftOld cutoff
    (SlidingWindowLogLimiter.shiftOld cutoff requests)
  = SlidingWindowLogLimiter.shiftOld cutoff requests.
Proof.
  induction requests as [|x rest IH]; [reflexivity|].
  cbn [SlidingWindowLogLimiter.shiftOld].
  destruct (Z.leb_spec x cutoff) as [Hold|Hnew]; [exact IH|].
  cbn [SlidingWindowLogLimiter.shiftOld].
  destruct (Z.leb_spec x cutoff); [lia|reflexivity].
Qed.

Lemma removeOldRequests_idempotent (s : SlidingWindowLogLimiter.t) (now : Z) :
  SlidingWindowLogLimiter.removeOldRequests
    (SlidingWindowLogLimiter.removeOldRequests s now) now
  = SlidingWindowLogLimiter.removeOldRequests s now.
Proof.
  unfold SlidingWindowLogLimiter.removeOldRequests.
  cbn [SlidingWindowLogLimiter.windowSize SlidingWindowLogLimiter.limit
       SlidingWindowLogLimiter.requests].
  now rewrite shiftOld_idempotent.
Qed.

(** The leak loop only ever removes entries from the front of the queue. *)
Lemma leakLoop_suffix (queue : list Z) : forall i requestsToLeak : Z,
  exists n : nat, LeakyBucketLimiter.leakLoop i requestsToLeak queue = drop n queue.
Proof.
  induction queue as [|x rest IH]; intros i r.
  - exists O. reflexivity.
  - cbn [LeakyBucketLimiter.leakLoop].
    destruct (Z.ltb i (Z.min r (Z.of_nat (length (x :: rest))))).
    + destruct (IH (i + 1) r) as (n & Hn). exists (S n). exact Hn.
    + exists O. reflexivity.
Qed.

(** What the pruning loop leaves at the head of the log is newer than the
    cutoff. *)
Lemma shiftOld_head (cutoff : Z) (requests : list Z) (oldest : Z) (rest : list Z) :
  SlidingWindowLogLimiter.shiftOld cutoff requests = oldest :: rest -> cutoff < oldest.
Proof.
  induction requests as [|x l IH]; cbn [SlidingWindowLogLimiter.shiftOld]; [discriminate|].
  destruct (Z.leb_spec x cutoff); [exact IH|]. intros [= <- _]. assumption.
Qed.

End AccessorFacts.

(** C4, as the spec has it, fails: each accessor stores the lazy update it
    runs first.  One second after a reachable state, [getTokens] has added a
    token and moved [lastRefill], [getQueueLength] has emptied the queue and
    [getRequestCount] has emptied the log. *)
Lemma accessors_change_state :
  let bucket := applyOps (TokenBucketLimiter.create 10 1 0) [CallAllowRequest 0 5] in
  let leaky := applyOps (LeakyBucketLimiter.create 10 1 0) [CallAllowRequest 0 1] in
  let log := applyOps (SlidingWindowLogLimiter.create 1 10) [CallAllowRequest 0 1] in
  (~ (TokenBucketLimiter.tokens (fst (TokenBucketLimiter.getTokens bucket 1000))
      == TokenBucketLimiter.tokens bucket)%Q
   /\ TokenBucketLimiter.lastRefill (fst (TokenBucketLimiter.getTokens bucket 1000))
      <> TokenBucketLimiter.lastRefill bucket)
  /\ fst (LeakyBucketLimiter.getQueueLength leaky 1000) <> leaky
  /\ fst (SlidingWindowLogLimiter.getRequestCount log 1000) <> log.
Proof.
  repeat split; vm_compute; discriminate.
Qed.

(** C4, amended.  An accessor brings the limiter up to the clock reading
    [now] (refill, leak, pruning), stores that and returns the updated
    value: for every state and clock reading, [getTokens] leaves the bucket
    as [refill] does, with [lastRefill = now] and the tokens capped by the
    capacity, and returns the stored token count; [getQueueLength] leaves
    the bucket as [leak] does, with [lastLeak = now] and a queue that has
    lost entries at its front only, and returns the length of the stored
    queue; [getRequestCount] leaves the log as [removeOldRequests] does,
    having dropped from its front only entries at or before the cutoff
    [now - windowSize] and keeping at its head an entry newer than the
    cutoff, and returns the length of the stored log.  It leaves the
    configuration as it was; a second call at the same clock reading returns
    the same value and changes nothing more; and a following [allowRequest]
    at that clock reading decides as it would have without the accessor. *)
Theorem accessors_apply_lazy_update
  (bucket : TokenBucketLimiter.t) (leaky : LeakyBucketLimiter.t)
  (log : SlidingWindowLogLimiter.t) (now tokens : Z) :
  (let bucket1 := fst (TokenBucketLimiter.getTokens bucket now) in
   let bucket2 := fst (TokenBucketLimiter.getTokens bucket1 now) in
   TokenBucketLimiter.getTokens bucket now
   = (TokenBucketLimiter.refill bucket now,
      TokenBucketLimiter.tokens (TokenBucketLimiter.refill bucket now))
   /\ snd (TokenBucketLimiter.getTokens bucket now) = TokenBucketLimiter.tokens bucket1
   /\ TokenBucketLimiter.lastRefill bucket1 = now
   /\ (TokenBucketLimiter.tokens bucket1 <= TokenBucketLimiter.capacity bucket)%Q
   /\ TokenBucketLimiter.capacity bucket1 = TokenBucketLimiter.capacity bucket
   /\ TokenBucketLimiter.refillRate bucket1 = TokenBucketLimiter.refillRate bucket
   /\ (snd (TokenBucketLimiter.getTokens bucket1 now)
       == snd (TokenBucketLimiter.getTokens bucket now))%Q
   /\ (TokenBucketLimiter.tokens bucket2 == TokenBucketLimiter.tokens bucket1)%Q
   /\ TokenBucketLimiter.lastRefill bucket2 = TokenBucketLimiter.lastRefill bucket1
   /\ allowed (snd (TokenBucketLimiter.allowRequest bucket1 now tokens))
      = allowed (snd (TokenBucketLimiter.allowRequest bucket now tokens)))
  /\ (let leaky1 := fst (LeakyBucketLimiter.getQueueLength leaky now) in
      LeakyBucketLimiter.getQueueLength leaky now
      = (LeakyBucketLimiter.leak leaky now,
         Z.of_nat (length (LeakyBucketLimiter.queue (LeakyBucketLimiter.leak leaky now))))
      /\ snd (LeakyBucketLimiter.getQueueLength leaky now)
         = Z.of_nat (length (LeakyBucketLimiter.queue leaky1))
      /\ LeakyBucketLimiter.lastLeak leaky1 = now
      /\ (exists n : nat,
             LeakyBucketLimiter.queue leaky1 = drop n (LeakyBucketLimiter.queue leaky))
      /\ LeakyBucketLimiter.capacity leaky1 = LeakyBucketLimiter.capacity leaky
      /\ LeakyBucketLimiter.leakRate leaky1 = LeakyBucketLimiter.leakRate leaky
      /\ LeakyBucketLimiter.getQueueLength leaky1 now
         = (leaky1, snd (LeakyBucketLimiter.getQueueLength leaky now))
      /\ LeakyBucketLimiter.allowRequest leaky1 now tokens
         = LeakyBucketLimiter.allowRequest leaky now tokens)
  /\ (let log1 := fst (SlidingWindowLogLimiter.getRequestCount log now) in
      let cutoff := now - SlidingWindowLogLimiter.windowSize log in
      SlidingWindowLogLimiter.getRequestCount log now
      = (SlidingWindowLogLimiter.removeOldRequests log now,
         Z.of_nat (length (SlidingWindowLogLimiter.requests
                             (SlidingWindowLogLimiter.removeOldRequests log now))))
      /\ snd (SlidingWindowLogLimiter.getRequestCount log now)
         = Z.of_nat (length (SlidingWindowLogLimiter.requests log1))
      /\ (exists dropped : list Z,
             SlidingWindowLogLimiter.requests log
             = dropped ++ SlidingWindowLogLimiter.requests log1
             /\ Forall (fun ts => ts <= cutoff) dropped)
      /\ (forall oldest : Z,
             head (SlidingWindowLogLimiter.requests log1) = Some oldest ->
             cutoff < oldest)
      /\ SlidingWindowLogLimiter.windowSize log1 = SlidingWindowLogLimiter.windowSize log
      /\ SlidingWindowLogLimiter.limit log1 = SlidingWindowLogLimiter.limit log
      /\ SlidingWindowLogLimiter.getRequestCount log1 now
         = (log1, snd (SlidingWindowLogLimiter.getRequestCount log now))
      /\ SlidingWindowLogLimiter.allowRequest log1 now tokens
         = SlidingWindowLogLimiter.allowRequest log now tokens).
Proof.
  split; [|split].
  - cbv zeta. unfold TokenBucketLimiter.getTokens. cbn [fst snd].
    destruct (refill_idempotent bucket now) as (Htok & Hlast & _ & _).
    cbv zeta in Htok, Hlast.
    split; [reflexivity|]. split; [reflexivity|]. split; [reflexivity|].
    split.
    { unfold TokenBucketLimiter.refill. cbn [TokenBucketLimiter.tokens].
      apply Q.le_min_l. }
    repeat split; try assumption.
    unfold TokenBucketLimiter.allowRequest.
    assert (Hsame : Qle_bool (inject_Z tokens)
                      (TokenBucketLimiter.tokens
                         (TokenBucketLimiter.refill
                            (TokenBucketLimiter.refill bucket now) now))
                    = Qle_bool (inject_Z tokens)
                        (TokenBucketLimiter.tokens
                           (TokenBucketLimiter.refill bucket now))).
    { now rewrite Htok. }
    cbv zeta. rewrite Hsame. clear Hsame.
    destruct (Qle_bool (inject_Z tokens)
                (TokenBucketLimiter.tokens (TokenBucketLimiter.refill bucket now)));
      reflexivity.
  - cbv zeta. unfold LeakyBucketLimiter.getQueueLength,
      LeakyBucketLimiter.allowRequest. cbn [fst snd].
    rewrite leak_idempotent.
    split; [reflexivity|]. split; [reflexivity|]. split; [reflexivity|].
    split.
    { unfold LeakyBucketLimiter.leak. cbn [LeakyBucketLimiter.queue].
      apply leakLoop_suffix. }
    repeat split.
  - cbv zeta. unfold SlidingWindowLogLimiter.getRequestCount,
      SlidingWindowLogLimiter.allowRequest. cbn [fst snd].
    rewrite removeOldRequests_idempotent.
    split; [reflexivity|]. split; [reflexivity|].
    split.
    { unfold SlidingWindowLogLimiter.removeOldRequests.
      cbn [SlidingWindowLogLimiter.requests]. apply shiftOld_split. }
    split.
    { unfold SlidingWindowLogLimiter.removeOldRequests.
      cbn [SlidingWindowLogLimiter.requests]. intros oldest Hhead.
      destruct (SlidingWindowLogLimiter.shiftOld
                  (now - SlidingWindowLogLimiter.windowSize log)
                  (SlidingWindowLogLimiter.requests log)) as [|x rest] eqn:Hkept;
        [discriminate|].
      injection Hhead as ->. eapply shiftOld_head. exact Hkept. }
    repeat split.
Qed.

(** ** Multi-tier limiter *)

Lemma Qlt_bool_true (a b : Q) : Qlt_bool a b = true -> (a < b)%Q.
Proof.
  unfold Qlt_bool. intros H. apply negb_true_iff in H.
  apply Qnot_le_lt. intros Hle. apply Qle_bool_iff in Hle. congruence.
Qed.

Lemma Qlt_bool_false (a b : Q) : Qlt_bool a b = false -> (b <= a)%Q.
Proof.
  unfold Qlt_bool. intros H. apply negb_false_iff in H. now apply Qle_bool_iff.
Qed.

Section MultiTierFacts.
Import MultiTierLimiter.

Variables now tokens : Z.

Lemma memberAllowRequest_eta (l : Limiter) :
  memberAllowRequest l now tokens = (memberAfter l now tokens, memberResult l now tokens).
Proof. unfold memberAfter, memberResult. now destruct (memberAllowRequest l now tokens). Qed.

(** When every member admits, the loop consults them all, in order. *)
Lemma loop_all_admit (limiters : list Limiter) : forall results,
  Forall (fun l => memberAdmits l now tokens = true) limiters ->
  loop limiters now tokens results
  = (map (fun l => memberAfter l now tokens) limiters,
     results ++ map (fun l => memberResult l now tokens) limiters,
     None).
Proof.
  induction limiters as [|l rest IH]; intros results Hall; cbn [loop map].
  - now rewrite app_nil_r.
  - inversion Hall as [|? ? Hl Hrest]; subst.
    rewrite memberAllowRequest_eta. unfold memberAdmits in Hl. rewrite Hl.
    cbn [negb]. rewrite IH by assumption. now rewrite <- app_assoc.
Qed.

(** The first member that rejects ends the loop: the members after it are
    left as they were, and its result is the early return. *)
Lemma loop_first_reject (before : list Limiter) (m : Limiter) (after : list Limiter) :
  forall results,
    Forall (fun l => memberAdmits l now tokens = true) before ->
    memberRejects m now tokens = true ->
    loop (before ++ m :: after) now tokens results
    = (map (fun l => memberAfter l now tokens) before
         ++ memberAfter m now tokens :: after,
       results ++ map (fun l => memberResult l now tokens) before
         ++ [memberResult m now tokens],
       Some (memberResult m now tokens)).
Proof.
  induction before as [|l rest IH]; intros results Hall Hrej; cbn [loop map app].
  - rewrite memberAllowRequest_eta. unfold memberRejects in Hrej. now rewrite Hrej.
  - inversion Hall as [|? ? Hl Hrest]; subst.
    rewrite memberAllowRequest_eta. unfold memberAdmits in Hl. rewrite Hl.
    cbn [negb]. rewrite IH by assumption. now rewrite <- app_assoc.
Qed.

(** [reduce] with [moreRestrictive] picks an element of the array, and none
    has a smaller [remaining]. *)
Lemma fold_moreRestrictive (rest : list RateLimitResult) : forall first,
  let chosen := fold_left moreRestrictive rest first in
  In chosen (first :: rest)
  /\ Forall (fun r => (remaining chosen <= remaining r)%Q) (first :: rest).
Proof.
  induction rest as [|r rest IH]; intros first; cbn [fold_left].
  - split; [now left|]. constructor; [apply Qle_refl|constructor].
  - specialize (IH (moreRestrictive first r)). cbv zeta in IH.
    destruct IH as [Hin Hmin].
    set (chosen := fold_left moreRestrictive rest (moreRestrictive first r)) in *.
    inversion Hmin as [|? ? Hhead Htail]; subst.
    unfold moreRestrictive in Hin, Hhead.
    destruct (Qlt_bool (remaining r) (remaining first)) eqn:Hlt.
    + apply Qlt_bool_true in Hlt. split.
      * destruct Hin as [<-|Hin]; [right; now left|right; now right].
      * constructor; [lra|]. constructor; assumption.
    + apply Qlt_bool_false in Hlt. split.
      * destruct Hin as [<-|Hin]; [now left|right; now right].
      * constructor; [assumption|]. constructor; [lra|assumption].
Qed.
End MultiTierFacts.

(** C7. [MultiTierLimiter.allowRequest] consults the members in list order.
    If [m] is the first member that rejects, the members before it have been
    consulted (and have admitted), [m]'s result is returned as it is, and the
    members after [m] are not consulted: they are unchanged, and the
    [results] array holds nothing from them.  If every member admits, the
    result returned is one of the members' results, and no member's result
    has a smaller [remaining]. *)
Theorem multi_tier_allowRequest
  (before : list Limiter) (m : Limiter) (after : list Limiter) (now tokens : Z) :
  Forall (fun l => memberAdmits l now tokens = true) before ->
  let limiters := before ++ m :: after in
  let after_ l := memberAfter l now tokens in
  let result l := memberResult l now tokens in
  (memberRejects m now tokens = true ->
   MultiTierLimiter.loop limiters now tokens []
   = (map after_ before ++ after_ m :: after,
      map result before ++ [result m],
      Some (result m))
   /\ MultiTierLimiter.allowRequest limiters now tokens
      = (map after_ before ++ after_ m :: after, Some (result m)))
  /\ (memberAdmits m now tokens = true ->
      Forall (fun l => memberAdmits l now tokens = true) after ->
      exists chosen,
        MultiTierLimiter.allowRequest limiters now tokens
        = (map after_ limiters, Some chosen)
        /\ In chosen (map result limiters)
        /\ Forall (fun r => (remaining chosen <= remaining r)%Q) (map result limiters)).
Proof.
  intros Hbefore limiters after_ result. split.
  - intros Hrej.
    pose proof (loop_first_reject now tokens before m after [] Hbefore Hrej) as Hloop.
    cbn [app] in Hloop. split; [exact Hloop|].
    unfold MultiTierLimiter.allowRequest. fold limiters in Hloop. now rewrite Hloop.
  - intros Hm Hafter.
    assert (Hall : Forall (fun l => memberAdmits l now tokens = true) limiters).
    { apply Forall_app. split; [assumption|]. constructor; assumption. }
    pose proof (loop_all_admit now tokens limiters [] Hall) as Hloop.
    cbn [app] in Hloop.
    unfold MultiTierLimiter.allowRequest. rewrite Hloop.
    fold result. subst limiters.
    destruct before as [|b before']; cbn [app map MultiTierLimiter.reduce].
    + destruct (fold_moreRestrictive (map result after) (result m)) as [Hin Hmin].
      eexists. split; [reflexivity|]. split; assumption.
    + destruct (fold_moreRestrictive (map result (before' ++ m :: after)) (result b))
        as [Hin Hmin].
      eexists. split; [reflexivity|]. split; assumption.
Qed.

Lemma multi_tier_allowRequest_witness :
  (let before := [perSecond 5] in
   let m := concurrent 0 in
   let after := [perTenSeconds 20] in
   MultiTierLimiter.allowRequest (before ++ m :: after) 0 1
   = (map (fun l => memberAfter l 0 1) before ++ memberAfter m 0 1 :: after,
      Some (memberResult m 0 1)))
  /\ (let limiters := [perSecond 5] ++ perTenSeconds 20 :: [concurrent 3] in
      exists chosen,
        MultiTierLimiter.allowRequest limiters 0 1
        = (map (fun l => memberAfter l 0 1) limiters, Some chosen)
        /\ In chosen (map (fun l => memberResult l 0 1) limiters)
        /\ Forall (fun r => (remaining chosen <= remaining r)%Q)
                  (map (fun l => memberResult l 0 1) limiters)).
Proof.
  split.
  - apply (proj1 (multi_tier_allowRequest [perSecond 5] (concurrent 0)
                    [perTenSeconds 20] 0 1 ltac:(repeat constructor))).
    reflexivity.
  - apply (proj2 (multi_tier_allowRequest [perSecond 5] (perTenSeconds 20)
                    [concurrent 3] 0 1 ltac:(repeat constructor))).
    + reflexivity.
    + repeat constructor.
Defined.

Lemma fixed_window_same_window (t : Z) :
  0 <= t < 1000 -> FixedWindowLimiter.getCurrentWindow 1000 t = 0.
Proof.
  intros Ht. unfold FixedWindowLimiter.getCurrentWindow.
  rewrite Z.div_small by lia. reflexivity.
Qed.

(** What an admitted [allowRequest] charges, class by class: the cost is
    added to the window count, the queue, the log or the active count, or
    taken from the tokens. *)
Lemma admission_charges_cost (now tokens : Z) :
  0 < tokens ->
  (forall s : FixedWindowLimiter.t,
      allowed (snd (FixedWindowLimiter.allowRequest s now tokens)) = true ->
      FixedWindowLimiter.count (fst (FixedWindowLimiter.allowRequest s now tokens))
      = FixedWindowLimiter.countAt s now + tokens)
  /\ (forall s : TokenBucketLimiter.t,
      allowed (snd (TokenBucketLimiter.allowRequest s now tokens)) = true ->
      TokenBucketLimiter.tokens (fst (TokenBucketLimiter.allowRequest s now tokens))
      = (TokenBucketLimiter.tokens (TokenBucketLimiter.refill s now) - inject_Z tokens)%Q)
  /\ (forall s : LeakyBucketLimiter.t,
      allowed (snd (LeakyBucketLimiter.allowRequest s now tokens)) = true ->
      Z.of_nat (length (LeakyBucketLimiter.queue
                          (fst (LeakyBucketLimiter.allowRequest s now tokens))))
      = Z.of_nat (length (LeakyBucketLimiter.queue (LeakyBucketLimiter.leak s now)))
        + tokens)
  /\ (forall s : SlidingWindowLogLimiter.t,
      allowed (snd (SlidingWindowLogLimiter.allowRequest s now tokens)) = true ->
      Z.of_nat (length (SlidingWindowLogLimiter.requests
                          (fst (SlidingWindowLogLimiter.allowRequest s now tokens))))
      = Z.of_nat (length (SlidingWindowLogLimiter.requests
                            (SlidingWindowLogLimiter.removeOldRequests s now)))
        + tokens)
  /\ (forall s : SlidingWindowCounterLimiter.t,
      allowed (snd (SlidingWindowCounterLimiter.allowRequest s now tokens)) = true ->
      SlidingWindowCounterLimiter.count
        (SlidingWindowCounterLimiter.currentWindow
           (fst (SlidingWindowCounterLimiter.allowRequest s now tokens)))
      = (if SlidingWindowCounterLimiter.getWindowStart
              (SlidingWindowCounterLimiter.windowSize s) now
            =? SlidingWindowCounterLimiter.start (SlidingWindowCounterLimiter.currentWindow s)
         then SlidingWindowCounterLimiter.count (SlidingWindowCounterLimiter.currentWindow s)
         else 0)
        + tokens)
  /\ (forall s : ConcurrentRequestsLimiter.t,
      allowed (snd (ConcurrentRequestsLimiter.allowRequest s tokens)) = true ->
      ConcurrentRequestsLimiter.activeRequests
        (fst (ConcurrentRequestsLimiter.allowRequest s tokens))
      = ConcurrentRequestsLimiter.activeRequests s + tokens).
Proof.
  intros Hcost. repeat split; intros s.
  - unfold FixedWindowLimiter.allowRequest, FixedWindowLimiter.countAt.
    destruct (Z.eqb _ _); cbn [negb];
      match goal with |- context [Z.leb ?a ?b] => destruct (Z.leb a b) end;
      cbn; intros; congruence.
  - unfold TokenBucketLimiter.allowRequest.
    destruct (Qle_bool _ _); cbn; intros; congruence.
  - unfold LeakyBucketLimiter.allowRequest.
    destruct (Z.leb _ _); cbn [fst snd allowed LeakyBucketLimiter.queue];
      [|discriminate].
    intros _. rewrite length_app, length_replicate. lia.
  - unfold SlidingWindowLogLimiter.allowRequest.
    destruct (Z.leb _ _); cbn [fst snd allowed SlidingWindowLogLimiter.requests];
      [|discriminate].
    intros _. rewrite length_app, length_replicate. lia.
  - unfold SlidingWindowCounterLimiter.allowRequest.
    destruct (Z.eqb _ _); cbn [negb];
      match goal with |- context [Z.leb ?a ?b] => destruct (Z.leb a b) end;
      cbn; intros; congruence.
  - unfold ConcurrentRequestsLimiter.allowRequest.
    destruct (Z.leb _ _); cbn; intros; congruence.
Qed.

(** C10. No rollback.  When a later member [m] rejects, the composite
    returns [allowed = false], and every earlier member is left in the state
    its own admitted [allowRequest] produced: what it charged stays charged
    ([admission_charges_cost] says what each class charges).
    A call sequence that shows it: in [[concurrent 5; per-second 5;
    concurrent 1]] a call of cost 2 is rejected by the third member, after
    the first has raised its active count from 0 to 2 and the second its
    window count from 0 to 2; for the rest of that window the second member
    works from a count that is 2 higher. *)
Theorem multi_tier_no_rollback :
  (forall (before : list Limiter) (m : Limiter) (after : list Limiter) (now tokens : Z),
      Forall (fun l => memberAdmits l now tokens = true) before ->
      memberRejects m now tokens = true ->
      exists r,
        MultiTierLimiter.allowRequest (before ++ m :: after) now tokens
        = (map (fun l => memberAfter l now tokens) before
             ++ memberAfter m now tokens :: after,
           Some r)
        /\ allowed r = false)
  /\ (let charged := FixedWindowLimiter.mk 1000 5 0 2 in
      MultiTierLimiter.allowRequest [concurrent 5; perSecond 5; concurrent 1] 0 2
      = ([mkLimiter (ConcurrentRequestsLimiter.mk 5 2);
          mkLimiter charged;
          concurrent 1],
         Some (mkResult false 1 0 0 None))
      /\ forall t, 0 <= t < 1000 ->
           FixedWindowLimiter.countAt charged t
           = FixedWindowLimiter.countAt (FixedWindowLimiter.create 1 5 0) t + 2).
Proof.
  split.
  - intros before m after now tokens Hbefore Hrej.
    pose proof (loop_first_reject now tokens before m after [] Hbefore Hrej) as Hloop.
    exists (memberResult m now tokens). split.
    + unfold MultiTierLimiter.allowRequest. now rewrite Hloop.
    + unfold memberRejects in Hrej. now apply negb_true_iff in Hrej.
  - split; [reflexivity|].
    intros t Ht. rewrite countAt_create.
    unfold FixedWindowLimiter.countAt.
    cbn [FixedWindowLimiter.windowSize FixedWindowLimiter.windowStart
         FixedWindowLimiter.count].
    now rewrite fixed_window_same_window.
Qed.

Lemma multi_tier_no_rollback_witness :
  exists r,
    MultiTierLimiter.allowRequest ([perSecond 5; perTenSeconds 20] ++ concurrent 2 :: [perSecond 1]) 0 3
    = (map (fun l => memberAfter l 0 3) [perSecond 5; perTenSeconds 20]
         ++ memberAfter (concurrent 2) 0 3 :: [perSecond 1],
       Some r)
    /\ allowed r = false.
Proof.
  apply (proj1 multi_tier_no_rollback [perSecond 5; perTenSeconds 20]
               (concurrent 2) [perSecond 1] 0 3).
  - repeat constructor.
  - reflexivity.
Defined.

(** In the composite of [A] and [B], [A] sees every call and [B] only the
    calls that [A] admitted. *)
Lemma multi_tier_run_pair (calls : list Call) : forall A B : Limiter,
  fst (MultiTierLimiter.run [A; B] calls)
  = [runMember A calls; runMember B (memberAdmitted A calls)].
Proof.
  induction calls as [|[now tokens] calls IH]; intros A B; [reflexivity|].
  cbn [MultiTierLimiter.run runMember memberAdmitted].
  unfold MultiTierLimiter.allowRequest. cbn [MultiTierLimiter.loop].
  rewrite (memberAllowRequest_eta now tokens A).
  rewrite (memberAllowRequest_eta now tokens B).
  cbn [fst snd].
  destruct (allowed (memberResult A now tokens)); cbn [negb].
  - destruct (allowed (memberResult B now tokens)); cbn [negb];
      match goal with
      | |- context [MultiTierLimiter.run ?ls calls] =>
          specialize (IH (memberAfter A now tokens) (memberAfter B now tokens));
          destruct (MultiTierLimiter.run ls calls) as [ls2 rs] eqn:Hrun
      end; cbn [fst] in *; exact IH.
  - specialize (IH (memberAfter A now tokens) B).
    destruct (MultiTierLimiter.run [memberAfter A now tokens; B] calls)
      as [ls2 rs] eqn:Hrun.
    cbn [fst] in *. exact IH.
Qed.

Lemma multi_tier_pair_rejects (A B : Limiter) (now tokens : Z) :
  memberRejects A now tokens = true \/ memberRejects B now tokens = true ->
  MultiTierLimiter.rejects [A; B] now tokens = true.
Proof.
  intros Hrej. unfold MultiTierLimiter.rejects, MultiTierLimiter.allowRequest.
  cbn [MultiTierLimiter.loop].
  rewrite (memberAllowRequest_eta now tokens A).
  rewrite (memberAllowRequest_eta now tokens B).
  unfold memberRejects in Hrej.
  destruct (allowed (memberResult A now tokens)) eqn:HA; cbn [negb snd app] in *.
  - destruct Hrej as [Hrej|Hrej]; [discriminate|].
    destruct (allowed (memberResult B now tokens)) eqn:HB; cbn [negb snd] in *;
      [discriminate|]. now rewrite HB.
  - now rewrite HA.
Qed.

(** C2, as the spec has it, fails for [B].  [A] admits 1 per second, [B]
    admits 2 per ten seconds; calls of cost 1 at 0, 1 and 1000 ms.  [B]
    alone admits the first two and rejects the third.  In the composite, [A]
    rejects the second call, so [B] never sees it, and the third call is
    admitted by both. *)
Lemma dominance_fails_for_second_member :
  ~ dominance (perSecond 1) (perTenSeconds 2) [(0, 1); (1, 1)] 1000 1.
Proof.
  unfold dominance. intros H.
  assert (Hadm : MultiTierLimiter.rejects
                   (fst (MultiTierLimiter.run [perSecond 1; perTenSeconds 2]
                           [(0, 1); (1, 1)])) 1000 1 = false) by reflexivity.
  rewrite H in Hadm; [discriminate|].
  right. reflexivity.
Qed.

(** C2, amended.  The composite of [A] and [B] rejects a call whenever [A]
    alone, run on the same calls, rejects it, and whenever [B], run alone on
    those of the calls that [A] admitted, rejects it. *)
Theorem multi_tier_dominance (A B : Limiter) (calls : list Call) (now tokens : Z) :
  memberRejects (runMember A calls) now tokens = true
  \/ memberRejects (runMember B (memberAdmitted A calls)) now tokens = true ->
  MultiTierLimiter.rejects (fst (MultiTierLimiter.run [A; B] calls)) now tokens = true.
Proof.
  intros Hrej. rewrite multi_tier_run_pair. now apply multi_tier_pair_rejects.
Qed.

Lemma multi_tier_dominance_witness :
  MultiTierLimiter.rejects
    (fst (MultiTierLimiter.run [perSecond 2; perTenSeconds 2]
            [(0, 1); (1, 1); (2, 1)])) 1000 1 = true.
Proof.
  apply (multi_tier_dominance (perSecond 2) (perTenSeconds 2) [(0, 1); (1, 1); (2, 1)] 1000 1).
  right. reflexivity.
Defined.

(** ** Distributed limiters *)

(** C5.  [RedisFixedWindowCounter.consume] and
    [DistributedSlidingWindowCounter.allowRequest] read the count with one
    storage operation and write it with another.  With limit 1 and an empty
    store, two callers that both read before either writes are both admitted:
    the Redis counter ends at 2, and the sliding-window counter ends at 1
    after two admissions (the second [set] overwrites the first).  Run one
    after the other, the second caller is rejected. *)
Theorem check_then_increment_not_atomic :
  (let p := RedisFixedWindowCounter.consume
              (RedisFixedWindowCounter.mk 60 1 "user:123") 0 1 in
   (exists r1 r2 st,
       interleave [First; Second; First; Second; First; Second] p p ∅
       = (Return r1, Return r2, st)
       /\ RedisFixedWindowCounter.allowed r1 = true
       /\ RedisFixedWindowCounter.allowed r2 = true
       /\ storeGet st "fixed_window:user:123:0" = Some 2)
   /\ (exists r1 r2 st,
       interleave [First; First; First; Second] p p ∅
       = (Return r1, Return r2, st)
       /\ RedisFixedWindowCounter.allowed r1 = true
       /\ RedisFixedWindowCounter.allowed r2 = false
       /\ storeGet st "fixed_window:user:123:0" = Some 1))
  /\ (let p := DistributedSlidingWindowCounter.allowRequest
                 (DistributedSlidingWindowCounter.create 60 1 None (Some "user:123"))
                 0 1 in
      (exists r1 r2 st,
          interleave [First; First; Second; Second; First; First; Second; Second] p p ∅
          = (Return r1, Return r2, st)
          /\ allowed r1 = true
          /\ allowed r2 = true
          /\ storeGet st "rate_limit:user:123:0" = Some 1)
      /\ (exists r1 r2 st,
          interleave [First; First; First; First; Second; Second] p p ∅
          = (Return r1, Return r2, st)
          /\ allowed r1 = true
          /\ allowed r2 = false
          /\ storeGet st "rate_limit:user:123:0" = Some 1)).
Proof.
  split; split; do 3 eexists; (split; [vm_compute; reflexivity|]);
    repeat split; vm_compute; reflexivity.
Qed.

(** * Further properties of the limiters *)

(** ** Fixed window: counts, windows and [resetAt] *)

Lemma getCurrentWindow_bounds (windowSize now : Z) :
  0 < windowSize ->
  FixedWindowLimiter.getCurrentWindow windowSize now <= now
  /\ now < FixedWindowLimiter.getCurrentWindow windowSize now + windowSize.
Proof.
  intros Hws. unfold FixedWindowLimiter.getCurrentWindow.
  pose proof (Z.div_mod now windowSize ltac:(lia)) as Hdm.
  pose proof (Z.mod_pos_bound now windowSize Hws) as Hmod.
  nia.
Qed.

Lemma getCurrentWindow_mono (windowSize a b : Z) :
  0 < windowSize -> a <= b ->
  FixedWindowLimiter.getCurrentWindow windowSize a
  <= FixedWindowLimiter.getCurrentWindow windowSize b.
Proof.
  intros Hws Hab. unfold FixedWindowLimiter.getCurrentWindow.
  apply Z.mul_le_mono_nonneg_r; [lia|]. now apply Z.div_le_mono.
Qed.

(** From the start of the next window on, the clock is in another window. *)
Lemma getCurrentWindow_next (windowSize now later : Z) :
  0 < windowSize ->
  FixedWindowLimiter.getCurrentWindow windowSize now + windowSize <= later ->
  FixedWindowLimiter.getCurrentWindow windowSize now
  < FixedWindowLimiter.getCurrentWindow windowSize later.
Proof.
  intros Hws Hlater.
  pose proof (getCurrentWindow_mono windowSize _ _ Hws Hlater) as Hmono.
  assert (Hself : FixedWindowLimiter.getCurrentWindow windowSize
                    (FixedWindowLimiter.getCurrentWindow windowSize now + windowSize)
                  = FixedWindowLimiter.getCurrentWindow windowSize now + windowSize).
  { unfold FixedWindowLimiter.getCurrentWindow.
    replace (now / windowSize * windowSize + windowSize)
      with ((now / windowSize + 1) * windowSize) by lia.
    rewrite Z.div_mul by lia. reflexivity. }
  lia.
Qed.

Lemma fixed_window_allowRequest_shape (s : FixedWindowLimiter.t) (now tokens : Z) :
  let out := FixedWindowLimiter.allowRequest s now tokens in
  FixedWindowLimiter.windowSize (fst out) = FixedWindowLimiter.windowSize s
  /\ FixedWindowLimiter.limit (fst out) = FixedWindowLimiter.limit s
  /\ FixedWindowLimiter.windowStart (fst out)
     = FixedWindowLimiter.getCurrentWindow (FixedWindowLimiter.windowSize s) now
  /\ (if allowed (snd out)
      then FixedWindowLimiter.countAt s now + tokens <= FixedWindowLimiter.limit s
           /\ FixedWindowLimiter.count (fst out) = FixedWindowLimiter.countAt s now + tokens
           /\ remaining (snd out)
              = inject_Z (FixedWindowLimiter.limit s
                          - (FixedWindowLimiter.countAt s now + tokens))
      else FixedWindowLimiter.limit s < FixedWindowLimiter.countAt s now + tokens
           /\ FixedWindowLimiter.count (fst out) = FixedWindowLimiter.countAt s now
           /\ remaining (snd out) = 0%Q
           /\ resetAt (snd out)
              = inject_Z (FixedWindowLimiter.getCurrentWindow
                            (FixedWindowLimiter.windowSize s) now
                          + FixedWindowLimiter.windowSize s)
           /\ retryAfter (snd out)
              = Some (seconds (FixedWindowLimiter.getCurrentWindow
                                 (FixedWindowLimiter.windowSize s) now
                               + FixedWindowLimiter.windowSize s - now))).
Proof.
  cbv zeta. unfold FixedWindowLimiter.allowRequest, FixedWindowLimiter.countAt.
  destruct (Z.eqb_spec (FixedWindowLimiter.getCurrentWindow
                          (FixedWindowLimiter.windowSize s) now)
                       (FixedWindowLimiter.windowStart s)) as [Hw|Hw];
    cbn [negb];
    match goal with |- context [Z.leb ?a ?b] => destruct (Z.leb_spec a b) end;
    cbn in *; rewrite ?Hw; repeat split; auto; lia.
Qed.

Lemma countAt_range (s : FixedWindowLimiter.t) (now : Z) :
  0 <= FixedWindowLimiter.count s <= FixedWindowLimiter.limit s ->
  0 <= FixedWindowLimiter.countAt s now <= FixedWindowLimiter.limit s.
Proof.
  intros H. unfold FixedWindowLimiter.countAt. destruct (Z.eqb _ _); lia.
Qed.

Lemma fixed_window_applyOps_range (ops : list Op) : forall s : FixedWindowLimiter.t,
  Forall positiveCost ops ->
  0 <= FixedWindowLimiter.count s <= FixedWindowLimiter.limit s ->
  0 <= FixedWindowLimiter.count (applyOps s ops)
    <= FixedWindowLimiter.limit (applyOps s ops)
  /\ FixedWindowLimiter.limit (applyOps s ops) = FixedWindowLimiter.limit s.
Proof.
  induction ops as [|o ops IH]; intros s Hpos Hs; [simpl; lia|].
  inversion Hpos as [|? ? Ho Hrest]; subst.
  change (applyOps s (o :: ops)) with (applyOps (applyOp s o) ops).
  assert (Hstep : 0 <= FixedWindowLimiter.count (applyOp s o)
                    <= FixedWindowLimiter.limit (applyOp s o)
                  /\ FixedWindowLimiter.limit (applyOp s o) = FixedWindowLimiter.limit s).
  { destruct o as [now tokens|now]; cbn [applyOp positiveCost] in *.
    - change (allowRequest s now tokens)
        with (FixedWindowLimiter.allowRequest s now tokens).
      destruct (fixed_window_allowRequest_shape s now tokens) as (_ & Hlim & _ & Hcase).
      pose proof (countAt_range s now Hs) as Hat.
      destruct (allowed (snd (FixedWindowLimiter.allowRequest s now tokens)));
        rewrite Hlim; lia.
    - cbn. lia. }
  destruct Hstep as [Hrange Hlim].
  destruct (IH (applyOp s o) Hrest Hrange) as [Hfinal Hsame].
  split; [assumption|congruence].
Qed.

(** X1.  A fixed-window limiter with a non-negative limit keeps its count within
    [[0, limit]] over every sequence of [allowRequest] and [reset] calls of
    positive cost, whatever the clock does, and every result it returns has
    [0 <= remaining <= limit]. *)
Theorem fixed_window_count_within_limit
  (windowSize limit t0 : Z) (ops : list Op) (now tokens : Z) :
  0 <= limit -> Forall positiveCost ops -> 0 < tokens ->
  let s := applyOps (FixedWindowLimiter.create windowSize limit t0) ops in
  let r := snd (FixedWindowLimiter.allowRequest s now tokens) in
  0 <= FixedWindowLimiter.count s <= limit
  /\ (0 <= remaining r)%Q /\ (remaining r <= inject_Z limit)%Q.
Proof.
  intros Hlimit Hpos Htokens s r.
  destruct (fixed_window_applyOps_range ops
              (FixedWindowLimiter.create windowSize limit t0) Hpos)
    as [Hrange Hlim]; [cbn; lia|].
  fold s in Hrange, Hlim. cbn [FixedWindowLimiter.create FixedWindowLimiter.limit] in Hlim.
  rewrite Hlim in Hrange. split; [exact Hrange|].
  destruct (fixed_window_allowRequest_shape s now tokens) as (_ & _ & _ & Hcase).
  assert (Hat : 0 <= FixedWindowLimiter.countAt s now <= FixedWindowLimiter.limit s).
  { apply countAt_range. lia. }
  subst r. destruct (allowed (snd (FixedWindowLimiter.allowRequest s now tokens))).
  - destruct Hcase as (Hroom & _ & ->). rewrite Hlim in *.
    split; [change 0%Q with (inject_Z 0)|]; rewrite <- Zle_Qle; lia.
  - destruct Hcase as (_ & _ & -> & _).
    split; [apply Qle_refl|]. change 0%Q with (inject_Z 0). now rewrite <- Zle_Qle.
Qed.

Lemma fixed_window_count_within_limit_witness :
  let s := applyOps (FixedWindowLimiter.create 1 3 0)
             [CallAllowRequest 10 2; CallAllowRequest 20 2; CallReset 30;
              CallAllowRequest 40 3; CallAllowRequest 1500 1] in
  let r := snd (FixedWindowLimiter.allowRequest s 1600 5) in
  0 <= FixedWindowLimiter.count s <= 3
  /\ (0 <= remaining r)%Q /\ (remaining r <= inject_Z 3)%Q.
Proof.
  apply (fixed_window_count_within_limit 1 3 0 _ 1600 5).
  - lia.
  - repeat constructor.
  - lia.
Defined.

Lemma windowCost_app (windowSize w : Z) (xs ys : list Call) :
  windowCost windowSize w (xs ++ ys)
  = windowCost windowSize w xs + windowCost windowSize w ys.
Proof.
  induction xs as [|[now tokens] xs IH]; cbn [windowCost app]; lia.
Qed.

Lemma windowCost_earlier (windowSize w : Z) (hist : list Call) (bound : Z) :
  Forall (fun c : Call =>
            FixedWindowLimiter.getCurrentWindow windowSize (fst c) <= bound) hist ->
  bound < w -> windowCost windowSize w hist = 0.
Proof.
  intros Hall Hw. induction Hall as [|[now tokens] hist Hc _ IH]; [reflexivity|].
  cbn [windowCost fst] in *.
  destruct (Z.eqb_spec (FixedWindowLimiter.getCurrentWindow windowSize now) w); lia.
Qed.

Lemma fixed_window_step (s : FixedWindowLimiter.t) (hist : list Call) (lo now tokens : Z) :
  0 < FixedWindowLimiter.windowSize s -> 0 <= FixedWindowLimiter.limit s ->
  fixedWindowInv s hist lo -> lo <= now ->
  fixedWindowInv (fst (FixedWindowLimiter.allowRequest s now tokens))
    (hist ++ (if allowed (snd (FixedWindowLimiter.allowRequest s now tokens))
              then [(now, tokens)] else []))
    now.
Proof.
  intros Hws Hlimit (Hstart & Hcount & Hearlier & Hbound) Hclock.
  destruct (fixed_window_allowRequest_shape s now tokens)
    as (Ews & Elim & Estart & Hcase).
  set (ws := FixedWindowLimiter.windowSize s) in *.
  set (w := FixedWindowLimiter.getCurrentWindow ws now) in *.
  assert (Hmono : FixedWindowLimiter.windowStart s <= w).
  { rewrite Hstart. now apply getCurrentWindow_mono. }
  assert (Hat : windowCost ws w hist = FixedWindowLimiter.countAt s now).
  { unfold FixedWindowLimiter.countAt. fold ws w.
    destruct (Z.eqb_spec w (FixedWindowLimiter.windowStart s)) as [->|Hne];
      [exact Hcount|].
    apply (windowCost_earlier ws w hist (FixedWindowLimiter.windowStart s));
      [assumption|lia]. }
  assert (Hearlier' : Forall (fun c : Call =>
                                FixedWindowLimiter.getCurrentWindow ws (fst c) <= w) hist).
  { eapply Forall_impl; [exact Hearlier|]. cbn. intros; lia. }
  unfold fixedWindowInv. rewrite Ews, Elim, Estart. fold ws w.
  destruct (allowed (snd (FixedWindowLimiter.allowRequest s now tokens))).
  - destruct Hcase as (Hroom & Ecount & _). rewrite Ecount.
    split; [reflexivity|]. split; [|split].
    + rewrite windowCost_app, Hat. cbn [windowCost]. fold w.
      rewrite Z.eqb_refl. lia.
    + apply Forall_app. split; [assumption|]. constructor; [cbn; fold w; lia|constructor].
    + intros w'. rewrite windowCost_app. cbn [windowCost]. fold w.
      destruct (Z.eqb_spec w w') as [<-|Hne].
      * rewrite Hat. lia.
      * specialize (Hbound w'). fold ws in Hbound. lia.
  - destruct Hcase as (_ & Ecount & _). rewrite Ecount, app_nil_r.
    split; [reflexivity|]. split; [exact Hat|]. split; [assumption|].
    intros w'. apply Hbound.
Qed.

Lemma fixed_window_admitted_bounded (calls : list Call) :
  forall (s : FixedWindowLimiter.t) (hist : list Call) (lo : Z),
    0 < FixedWindowLimiter.windowSize s -> 0 <= FixedWindowLimiter.limit s ->
    fixedWindowInv s hist lo -> clockFrom lo (map fst calls) ->
    forall w,
      windowCost (FixedWindowLimiter.windowSize s) w (hist ++ admittedCalls s calls)
      <= FixedWindowLimiter.limit s.
Proof.
  induction calls as [|[now tokens] calls IH]; intros s hist lo Hws Hlimit Hinv Hclock w.
  - cbn. rewrite app_nil_r. apply Hinv.
  - destruct Hclock as [Hnow Hclock]. cbn [map fst] in *.
    pose proof (fixed_window_step s hist lo now tokens Hws Hlimit Hinv Hnow) as Hstep.
    destruct (fixed_window_allowRequest_shape s now tokens) as (Ews & Elim & _).
    cbn [admittedCalls].
    change (allowRequest s now tokens)
      with (FixedWindowLimiter.allowRequest s now tokens).
    destruct (FixedWindowLimiter.allowRequest s now tokens) as [s1 r].
    cbn [fst snd] in *.
    specialize (IH s1 _ now ltac:(lia) ltac:(lia) Hstep Hclock w).
    rewrite Ews, Elim in IH.
    destruct (allowed r).
    + rewrite <- app_assoc in IH. exact IH.
    + rewrite app_nil_r in IH. exact IH.
Qed.

(** X2.  On a clock that does not go back, a fixed-window limiter never admits
    more than [limit] units of cost among the calls that fall in one window. *)
Theorem fixed_window_bound_per_window
  (windowSize limit t0 : Z) (calls : list Call) (w : Z) :
  0 < windowSize -> 0 <= limit -> clockFrom t0 (map fst calls) ->
  windowCost (windowSize * 1000) w
             (admittedCalls (FixedWindowLimiter.create windowSize limit t0) calls)
  <= limit.
Proof.
  intros Hws Hlimit Hclock.
  pose proof (fixed_window_admitted_bounded calls
                (FixedWindowLimiter.create windowSize limit t0) [] t0) as Hb.
  cbn [FixedWindowLimiter.create FixedWindowLimiter.windowSize
       FixedWindowLimiter.limit app] in Hb.
  apply Hb; try assumption; [lia|].
  unfold fixedWindowInv.
  cbn [FixedWindowLimiter.create FixedWindowLimiter.windowSize FixedWindowLimiter.limit
       FixedWindowLimiter.windowStart FixedWindowLimiter.count windowCost].
  repeat split; auto; constructor.
Qed.

Lemma fixed_window_bound_per_window_witness :
  windowCost (1 * 1000) 1000
             (admittedCalls (FixedWindowLimiter.create 1 3 0)
                            [(999, 2); (1000, 2); (1001, 2); (1500, 1); (2100, 3)])
  <= 3.
Proof.
  apply (fixed_window_bound_per_window 1 3 0).
  - lia.
  - lia.
  - cbn. lia.
Defined.

(** X3.  [resetAt] is honest: when a fixed-window limiter (window size positive)
    rejects a request, [resetAt] is the start of the next window, it lies in
    the future ([retryAfter > 0]), and from that instant on the same request
    is admitted provided its cost is within the limit. *)
Theorem fixed_window_resetAt_honest
  (s : FixedWindowLimiter.t) (now tokens later : Z) :
  0 < FixedWindowLimiter.windowSize s ->
  allowed (snd (FixedWindowLimiter.allowRequest s now tokens)) = false ->
  let s1 := fst (FixedWindowLimiter.allowRequest s now tokens) in
  let reset := FixedWindowLimiter.windowStart s1 + FixedWindowLimiter.windowSize s1 in
  resetAt (snd (FixedWindowLimiter.allowRequest s now tokens)) = inject_Z reset
  /\ now < reset
  /\ retryAfter (snd (FixedWindowLimiter.allowRequest s now tokens))
     = Some (seconds (reset - now))
  /\ (0 < tokens <= FixedWindowLimiter.limit s -> reset <= later ->
      allowed (snd (FixedWindowLimiter.allowRequest s1 later tokens)) = true).
Proof.
  intros Hws Hrej s1 reset.
  destruct (fixed_window_allowRequest_shape s now tokens) as (Ews & Elim & Estart & Hcase).
  rewrite Hrej in Hcase. destruct Hcase as (_ & _ & _ & EresetAt & Eretry).
  fold s1 in Ews, Elim, Estart. subst reset. rewrite Ews, Estart.
  destruct (getCurrentWindow_bounds (FixedWindowLimiter.windowSize s) now Hws) as [_ Hnext].
  repeat split; try assumption.
  intros [Hpos Hfits] Hlater.
  destruct (fixed_window_allowRequest_shape s1 later tokens) as (_ & _ & _ & Hcase).
  destruct (allowed (snd (FixedWindowLimiter.allowRequest s1 later tokens)));
    [reflexivity|].
  destruct Hcase as (Hfull & _). exfalso.
  rewrite countAt_other_window in Hfull; [rewrite Elim in Hfull; lia|].
  rewrite Ews, Estart.
  pose proof (getCurrentWindow_next (FixedWindowLimiter.windowSize s) now later Hws Hlater).
  lia.
Qed.

Lemma fixed_window_resetAt_honest_witness :
  let s := applyOps (FixedWindowLimiter.create 1 2 0)
             [CallAllowRequest 100 1; CallAllowRequest 200 1] in
  let s1 := fst (FixedWindowLimiter.allowRequest s 300 2) in
  resetAt (snd (FixedWindowLimiter.allowRequest s 300 2)) = inject_Z 1000
  /\ retryAfter (snd (FixedWindowLimiter.allowRequest s 300 2)) = Some (seconds 700)
  /\ allowed (snd (FixedWindowLimiter.allowRequest s1 1000 2)) = true.
Proof.
  intros s s1.
  destruct (fixed_window_resetAt_honest s 300 2 1000) as (Hreset & _ & Hretry & Hlater).
  - vm_compute. reflexivity.
  - reflexivity.
  - split; [exact Hreset|]. split; [exact Hretry|].
    apply Hlater; [split; [lia | vm_compute; discriminate] | vm_compute; discriminate].
Defined.

(** ** Token bucket: capacity and bursts *)

Lemma token_bucket_allowRequest_shape (s : TokenBucketLimiter.t) (now requested : Z) :
  let s1 := TokenBucketLimiter.refill s now in
  let out := TokenBucketLimiter.allowRequest s now requested in
  if allowed (snd out)
  then (inject_Z requested <= TokenBucketLimiter.tokens s1)%Q
       /\ fst out = TokenBucketLimiter.mk (TokenBucketLimiter.capacity s)
                      (TokenBucketLimiter.refillRate s)
                      (TokenBucketLimiter.tokens s1 - inject_Z requested)%Q now
       /\ remaining (snd out)
          = inject_Z (Qfloor (TokenBucketLimiter.tokens s1 - inject_Z requested))
  else (TokenBucketLimiter.tokens s1 < inject_Z requested)%Q
       /\ fst out = s1
       /\ remaining (snd out) = 0%Q
       /\ retryAfter (snd out)
          = Some (((inject_Z requested - TokenBucketLimiter.tokens s1)
                   / TokenBucketLimiter.refillRate s * 1000) / 1000)%Q.
Proof.
  cbv zeta. unfold TokenBucketLimiter.allowRequest.
  destruct (Qle_bool (inject_Z requested)
              (TokenBucketLimiter.tokens (TokenBucketLimiter.refill s now))) eqn:Hle;
    cbn [fst snd allowed remaining retryAfter].
  - apply Qle_bool_iff in Hle. split; [exact Hle|]. split; reflexivity.
  - split; [|repeat split].
    apply Qnot_le_lt. intros Habs. apply Qle_bool_iff in Habs. congruence.
Qed.

(** X4.  Whatever its state and whatever the clock reads, a token bucket rejects
    a request that costs more than its capacity; a bucket of capacity 0
    rejects every request of positive cost. *)
Theorem token_bucket_rejects_over_capacity
  (s : TokenBucketLimiter.t) (now requested : Z) :
  (TokenBucketLimiter.capacity s < inject_Z requested)%Q ->
  allowed (snd (TokenBucketLimiter.allowRequest s now requested)) = false
  /\ remaining (snd (TokenBucketLimiter.allowRequest s now requested)) = 0%Q
  /\ fst (TokenBucketLimiter.allowRequest s now requested) = TokenBucketLimiter.refill s now.
Proof.
  intros Hover.
  pose proof (token_bucket_allowRequest_shape s now requested) as Hshape. cbv zeta in Hshape.
  destruct (allowed (snd (TokenBucketLimiter.allowRequest s now requested))).
  - destruct Hshape as (Henough & _). exfalso.
    assert (Hcap : (TokenBucketLimiter.tokens (TokenBucketLimiter.refill s now)
                    <= TokenBucketLimiter.capacity s)%Q) by apply Q.le_min_l.
    lra.
  - destruct Hshape as (_ & Hstate & Hrem & _). auto.
Qed.

Lemma token_bucket_rejects_over_capacity_witness :
  let s := TokenBucketLimiter.create 0 1 0 in
  allowed (snd (TokenBucketLimiter.allowRequest s 5000 1)) = false
  /\ remaining (snd (TokenBucketLimiter.allowRequest s 5000 1)) = 0%Q
  /\ fst (TokenBucketLimiter.allowRequest s 5000 1) = TokenBucketLimiter.refill s 5000.
Proof.
  apply (token_bucket_rejects_over_capacity (TokenBucketLimiter.create 0 1 0) 5000 1).
  reflexivity.
Defined.

Lemma refill_same_instant (s : TokenBucketLimiter.t) :
  (TokenBucketLimiter.tokens s <= TokenBucketLimiter.capacity s)%Q ->
  (TokenBucketLimiter.tokens (TokenBucketLimiter.refill s (TokenBucketLimiter.lastRefill s))
   == TokenBucketLimiter.tokens s)%Q.
Proof.
  intros Hcap. unfold TokenBucketLimiter.refill. cbn [TokenBucketLimiter.tokens].
  rewrite seconds_zero, Qplus_0_r. now apply Q.min_r.
Qed.

(** A burst of unit requests at the instant of the last refill: as long as
    whole tokens are left each one is admitted, and [remaining] counts
    down. *)
Lemma token_bucket_burst_admitted (n : nat) :
  forall (s : TokenBucketLimiter.t) (m : Z),
    (TokenBucketLimiter.tokens s == inject_Z m)%Q ->
    (TokenBucketLimiter.tokens s <= TokenBucketLimiter.capacity s)%Q ->
    Z.of_nat n <= m ->
    let out := run s (replicate n (TokenBucketLimiter.lastRefill s, 1)) in
    map (fun r => (allowed r, remaining r)) (snd out)
    = map (fun k => (true, inject_Z k)) (countdown n m)
    /\ (TokenBucketLimiter.tokens (fst out) == inject_Z (m - Z.of_nat n))%Q
    /\ TokenBucketLimiter.lastRefill (fst out) = TokenBucketLimiter.lastRefill s
    /\ TokenBucketLimiter.capacity (fst out) = TokenBucketLimiter.capacity s.
Proof.
  induction n as [|n IH]; intros s m Htok Hcap Hn; cbn [replicate run countdown map].
  - cbn [fst snd map]. rewrite Z.sub_0_r. auto.
  - change (allowRequest s (TokenBucketLimiter.lastRefill s) 1)
      with (TokenBucketLimiter.allowRequest s (TokenBucketLimiter.lastRefill s) 1).
    pose proof (token_bucket_allowRequest_shape s (TokenBucketLimiter.lastRefill s) 1)
      as Hshape. cbv zeta in Hshape.
    pose proof (refill_same_instant s Hcap) as Hsame.
    destruct (TokenBucketLimiter.allowRequest s (TokenBucketLimiter.lastRefill s) 1)
      as [s1 r] eqn:Hcall. cbn [fst snd] in Hshape.
    destruct (allowed r) eqn:Hallowed.
    + destruct Hshape as (_ & -> & Hrem).
      set (s1 := TokenBucketLimiter.mk _ _ _ _).
      assert (Htok1 : (TokenBucketLimiter.tokens s1 == inject_Z (m - 1))%Q).
      { unfold s1. cbn [TokenBucketLimiter.tokens].
        rewrite Hsame, Htok. unfold Zminus. rewrite inject_Z_plus, inject_Z_opp. reflexivity. }
      specialize (IH s1 (m - 1) Htok1).
      change (TokenBucketLimiter.lastRefill s1) with (TokenBucketLimiter.lastRefill s) in IH.
      change (TokenBucketLimiter.capacity s1) with (TokenBucketLimiter.capacity s) in IH.
      cbv zeta in IH.
      destruct (run s1 (replicate n (TokenBucketLimiter.lastRefill s, 1))) as [s2 rs].
      cbn [fst snd map] in *.
      destruct IH as (Hrs & Hfinal & Hlast & Hcapacity).
      { rewrite Htok1. rewrite Htok in Hcap.
        assert ((inject_Z (m - 1) <= inject_Z m)%Q) by (rewrite <- Zle_Qle; lia). lra. }
      { lia. }
      repeat split; try assumption.
      * rewrite Hrs, Hallowed, Hrem. f_equal. f_equal. f_equal.
        rewrite (Qfloor_comp _ (inject_Z (m - 1))); [apply Qfloor_Z|].
        exact Htok1.
      * replace (m - Z.of_nat (S n)) with (m - 1 - Z.of_nat n) by lia. exact Hfinal.
    + destruct Hshape as (Hshort & _). exfalso.
      rewrite Hsame, Htok in Hshort. rewrite <- Zlt_Qlt in Hshort. lia.
Qed.

(** X6.  Bursts up to capacity: a fresh token bucket of whole capacity [c] admits
    [c] unit requests made at the instant it was created, reporting
    [remaining] [c - 1] down to [0], and rejects the next one, whatever the
    refill rate. *)
Theorem token_bucket_burst (c : nat) (refillRate : Q) (t0 : Z) :
  let fresh := TokenBucketLimiter.create (inject_Z (Z.of_nat c)) refillRate t0 in
  map (fun r => (allowed r, remaining r)) (snd (run fresh (replicate (S c) (t0, 1))))
  = map (fun k => (true, inject_Z k)) (countdown c (Z.of_nat c)) ++ [(false, 0%Q)].
Proof.
  intros fresh. rewrite replicate_S_end, run_app. cbn [snd]. rewrite map_app.
  destruct (token_bucket_burst_admitted c fresh (Z.of_nat c))
    as (Hfirst & Hfinal & Hlast & Hcapacity).
  - reflexivity.
  - apply Qle_refl.
  - lia.
  - change (TokenBucketLimiter.lastRefill fresh) with t0 in *.
    rewrite Hfirst. f_equal.
    set (s := fst (run fresh (replicate c (t0, 1)))) in *.
    cbn [run]. change (allowRequest s t0 1) with (TokenBucketLimiter.allowRequest s t0 1).
    pose proof (token_bucket_allowRequest_shape s t0 1) as Hshape. cbv zeta in Hshape.
    destruct (TokenBucketLimiter.allowRequest s t0 1) as [s1 r]. cbn [fst snd map] in *.
    destruct (allowed r).
    + destruct Hshape as (Henough & _). exfalso.
      rewrite <- Hlast in Henough.
      rewrite refill_same_instant in Henough.
      * rewrite Hfinal, Z.sub_diag in Henough. vm_compute in Henough. now apply Henough.
      * rewrite Hfinal, Hcapacity, Z.sub_diag. unfold fresh.
        cbn [TokenBucketLimiter.create TokenBucketLimiter.capacity].
        rewrite <- Zle_Qle. lia.
    + destruct Hshape as (_ & _ & -> & _). reflexivity.
Qed.

(** ** Leaky bucket: what one [leak] drains *)

(** The leak loop in closed form.  Entered with counter [i] it removes
    [min (requestsToLeak - i) (ceil ((length - i) / 2))] entries from the
    front of the queue (none when that is negative). *)
Lemma leakLoop_closed_form (queue : list Z) : forall i requestsToLeak : Z,
  0 <= i ->
  LeakyBucketLimiter.leakLoop i requestsToLeak queue
  = drop (Z.to_nat (Z.min (requestsToLeak - i)
                          ((Z.of_nat (length queue) - i + 1) / 2))) queue.
Proof.
  induction queue as [|x rest IH]; intros i r Hi.
  - now rewrite drop_nil.
  - cbn [LeakyBucketLimiter.leakLoop].
    set (len := Z.of_nat (length (x :: rest))).
    assert (Hlen : Z.of_nat (length rest) = len - 1).
    { unfold len. cbn [length]. lia. }
    destruct (Z.ltb_spec i (Z.min r len)) as [Hgo|Hstop].
    + rewrite IH by lia. rewrite Hlen.
      replace (Z.to_nat (Z.min (r - i) ((len - i + 1) / 2)))
        with (S (Z.to_nat (Z.min (r - (i + 1)) ((len - 1 - (i + 1) + 1) / 2)))).
      * reflexivity.
      * replace (len - i + 1) with ((len - 1 - (i + 1) + 1) + 1 * 2) by lia.
        rewrite Z.div_add by lia.
        assert (0 <= (len - 1 - (i + 1) + 1) / 2) by (apply Z.div_pos; lia).
        lia.
    + replace (Z.to_nat (Z.min (r - i) ((len - i + 1) / 2))) with O; [reflexivity|].
      assert (Hcases : r - i <= 0 \/ (len - i + 1) / 2 <= 0).
      { destruct (Z.le_gt_cases r i) as [Hr|Hr]; [left; lia|right].
        assert ((len - i + 1) / 2 < 1) by (apply Z.div_lt_upper_bound; lia).
        lia. }
      lia.
Qed.

(** X7.  The loop of [leak] removes the oldest entries of the queue, but
    never more than half of them (rounded up), however many are due: its
    bound is read again from the queue as it shrinks.  Entered with
    [requestsToLeak] (whatever number the floor gave) it removes
    [min requestsToLeak (ceil (length / 2))] entries; so one [leak], at any
    clock reading, takes entries from the front only and leaves at least
    half of the queue (rounded down). *)
Theorem leak_drains_at_most_half
  (queue : list Z) (requestsToLeak : Z) (s : LeakyBucketLimiter.t) (now : Z) :
  (let len := Z.of_nat (length queue) in
   LeakyBucketLimiter.leakLoop 0 requestsToLeak queue
   = drop (Z.to_nat (Z.min requestsToLeak ((len + 1) / 2))) queue
   /\ Z.of_nat (length (LeakyBucketLimiter.leakLoop 0 requestsToLeak queue))
      = len - Z.max 0 (Z.min requestsToLeak ((len + 1) / 2)))
  /\ (let len := Z.of_nat (length (LeakyBucketLimiter.queue s)) in
      exists n : nat,
        Z.of_nat n <= (len + 1) / 2
        /\ LeakyBucketLimiter.queue (LeakyBucketLimiter.leak s now)
           = drop n (LeakyBucketLimiter.queue s)
        /\ len / 2
           <= Z.of_nat (length (LeakyBucketLimiter.queue (LeakyBucketLimiter.leak s now)))).
Proof.
  assert (Hhalf : forall len : Z, 0 <= len ->
                    (len + 1) / 2 < len + 1 /\ 0 <= (len + 1) / 2
                    /\ len - (len + 1) / 2 = len / 2).
  { intros len Hlen. split; [apply Z.div_lt_upper_bound; lia|].
    split; [apply Z.div_pos; lia|].
    pose proof (Z.div_mod len 2 ltac:(lia)) as Hdm.
    pose proof (Z.mod_pos_bound len 2 ltac:(lia)) as Hmod.
    pose proof (Z.div_mod (len + 1) 2 ltac:(lia)) as Hdm1.
    pose proof (Z.mod_pos_bound (len + 1) 2 ltac:(lia)) as Hmod1.
    lia. }
  split.
  - cbv zeta. rewrite leakLoop_closed_form by lia. rewrite !Z.sub_0_r.
    split; [reflexivity|].
    rewrite length_drop.
    destruct (Hhalf (Z.of_nat (length queue)) ltac:(lia)) as (Hlt & _ & _). lia.
  - cbv zeta. unfold LeakyBucketLimiter.leak. cbn [LeakyBucketLimiter.queue].
    set (r := Qfloor _). set (q := LeakyBucketLimiter.queue s).
    rewrite leakLoop_closed_form by lia. rewrite !Z.sub_0_r.
    destruct (Hhalf (Z.of_nat (length q)) ltac:(lia)) as (Hlt & Hpos & Hrest).
    exists (Z.to_nat (Z.min r ((Z.of_nat (length q) + 1) / 2))).
    split; [lia|]. split; [reflexivity|].
    rewrite length_drop. lia.
Qed.

(** ** Sliding-window log: what the log holds *)

Lemma ascending_app (xs ys : list Z) :
  ascending xs -> ascending ys ->
  (forall x y, In x xs -> In y ys -> x <= y) ->
  ascending (xs ++ ys).
Proof.
  induction xs as [|x xs IH]; intros Hxs Hys Hle; [exact Hys|].
  destruct Hxs as [Hhead Htail]. cbn [app ascending]. split.
  - apply Forall_app. split; [exact Hhead|].
    apply Forall_forall. intros y Hy. apply Hle; [now left|].
    now apply list_elem_of_In.
  - apply IH; [assumption..|]. intros a b Ha Hb. apply Hle; [now right|assumption].
Qed.

Lemma ascending_replicate (n : nat) (x : Z) : ascending (replicate n x).
Proof.
  induction n as [|n IH]; [exact I|]. cbn [replicate ascending]. split; [|exact IH].
  apply Forall_forall. intros y Hy. apply elem_of_replicate in Hy. lia.
Qed.

Lemma filter_all {A : Type} (P : A -> Prop) `{forall x, Decision (P x)} (l : list A) :
  Forall P l -> filter P l = l.
Proof.
  induction 1 as [|x l Hx _ IH]; [reflexivity|].
  rewrite filter_cons_True by assumption. now rewrite IH.
Qed.

Lemma ascending_filter (P : Z -> Prop) `{forall x, Decision (P x)} (l : list Z) :
  ascending l -> ascending (filter P l).
Proof.
  induction l as [|x rest IH]; intros Hasc; [exact I|].
  destruct Hasc as [Hhead Htail]. rewrite filter_cons.
  destruct (decide (P x)); [|now apply IH].
  cbn [ascending]. split; [|now apply IH].
  apply Forall_forall. intros y Hy. apply list_elem_of_filter in Hy.
  rewrite Forall_forall in Hhead. apply Hhead, Hy.
Qed.

(** On an ascending log the pruning loop keeps exactly the entries after
    the cutoff. *)
Lemma shiftOld_filter (cutoff : Z) (requests : list Z) :
  ascending requests ->
  SlidingWindowLogLimiter.shiftOld cutoff requests = filter (recent cutoff) requests.
Proof.
  induction requests as [|x rest IH]; intros Hasc; [reflexivity|].
  destruct Hasc as [Hhead Htail]. cbn [SlidingWindowLogLimiter.shiftOld].
  destruct (Z.leb_spec x cutoff) as [Hold|Hnew].
  - rewrite filter_cons_False by (unfold recent; lia). now apply IH.
  - rewrite filter_cons_True by exact Hnew. f_equal.
    symmetry. apply filter_all.
    eapply Forall_impl; [exact Hhead|]. unfold recent. cbn. intros; lia.
Qed.

Lemma logExact_prune (s : SlidingWindowLogLimiter.t) (hist : list Z) (lo now : Z) :
  logExact s hist lo -> lo <= now ->
  SlidingWindowLogLimiter.requests (SlidingWindowLogLimiter.removeOldRequests s now)
  = filter (recent (now - SlidingWindowLogLimiter.windowSize s)) hist.
Proof.
  intros (Hlog & Hasc & _) Hclock.
  unfold SlidingWindowLogLimiter.removeOldRequests.
  cbn [SlidingWindowLogLimiter.requests]. rewrite Hlog.
  rewrite shiftOld_filter by now apply ascending_filter.
  apply list_filter_filter_l. unfold recent. intros; lia.
Qed.

Lemma logExact_step (s : SlidingWindowLogLimiter.t) (hist : list Z) (lo now tokens : Z) :
  0 < SlidingWindowLogLimiter.windowSize s ->
  logExact s hist lo -> lo <= now ->
  logExact (fst (SlidingWindowLogLimiter.allowRequest s now tokens))
           (hist ++ (if allowed (snd (SlidingWindowLogLimiter.allowRequest s now tokens))
                     then replicate (Z.to_nat tokens) now else []))
           now.
Proof.
  intros Hws Hinv Hclock.
  pose proof (logExact_prune s hist lo now Hinv Hclock) as Hprune.
  destruct Hinv as (_ & Hasc & Hupper).
  assert (Hupper' : Forall (fun ts => ts <= now) hist).
  { eapply Forall_impl; [exact Hupper|]. cbn. intros; lia. }
  unfold SlidingWindowLogLimiter.allowRequest.
  destruct (Z.leb _ _); cbn [fst snd allowed]; unfold logExact;
    cbn [SlidingWindowLogLimiter.requests SlidingWindowLogLimiter.windowSize
         SlidingWindowLogLimiter.removeOldRequests].
  - change (SlidingWindowLogLimiter.shiftOld _ _)
      with (SlidingWindowLogLimiter.requests
              (SlidingWindowLogLimiter.removeOldRequests s now)).
    rewrite Hprune, filter_app.
    rewrite (filter_replicate_True _ _ now) by (unfold recent; lia).
    split; [reflexivity|]. split.
    + apply ascending_app; [assumption|apply ascending_replicate|].
      intros x y Hx Hy. apply list_elem_of_In, elem_of_replicate in Hy.
      rewrite Forall_forall in Hupper'. apply list_elem_of_In in Hx.
      specialize (Hupper' x Hx). lia.
    + apply Forall_app. split; [assumption|].
      apply Forall_forall. intros y Hy. apply elem_of_replicate in Hy. lia.
  - rewrite app_nil_r.
    change (SlidingWindowLogLimiter.shiftOld _ _)
      with (SlidingWindowLogLimiter.requests
              (SlidingWindowLogLimiter.removeOldRequests s now)).
    rewrite Hprune. auto.
Qed.

Lemma last_cons_default {A : Type} (l : list A) : forall x d : A,
  List.last (x :: l) d = List.last l x.
Proof.
  induction l as [|y l IH]; intros x d; [reflexivity|].
  change (List.last (x :: y :: l) d) with (List.last (y :: l) d).
  rewrite (IH y d), (IH y x). reflexivity.
Qed.

Lemma clockFrom_app (xs ys : list Z) : forall t0,
  clockFrom t0 (xs ++ ys) -> clockFrom t0 xs /\ clockFrom (List.last xs t0) ys.
Proof.
  induction xs as [|x xs IH]; intros t0 Hclock; [cbn; auto|].
  destruct Hclock as [Hle Hrest]. destruct (IH x Hrest) as [Hxs Hys].
  split; [split; assumption|]. now rewrite last_cons_default.
Qed.

Lemma logExact_run (calls : list Call) :
  forall (s : SlidingWindowLogLimiter.t) (hist : list Z) (lo : Z),
    0 < SlidingWindowLogLimiter.windowSize s ->
    logExact s hist lo -> clockFrom lo (map fst calls) ->
    logExact (fst (run s calls)) (hist ++ units (admittedCalls s calls))
             (List.last (map fst calls) lo)
    /\ SlidingWindowLogLimiter.windowSize (fst (run s calls))
       = SlidingWindowLogLimiter.windowSize s.
Proof.
  induction calls as [|[now tokens] calls IH]; intros s hist lo Hws Hinv Hclock.
  - cbn. rewrite app_nil_r. auto.
  - destruct Hclock as [Hnow Hclock]. cbn [map fst] in *.
    pose proof (logExact_step s hist lo now tokens Hws Hinv Hnow) as Hstep.
    destruct (sliding_log_config s now tokens) as [Ews _].
    cbn [run admittedCalls].
    change (allowRequest s now tokens)
      with (SlidingWindowLogLimiter.allowRequest s now tokens).
    destruct (SlidingWindowLogLimiter.allowRequest s now tokens) as [s1 r].
    cbn [fst snd] in *.
    destruct (IH s1 _ now ltac:(lia) Hstep Hclock) as [Hfinal Hsame].
    destruct (run s1 calls) as [s2 rs]. cbn [fst] in *.
    rewrite last_cons_default.
    split; [|congruence].
    destruct (allowed r).
    + rewrite units_cons, app_assoc. exact Hfinal.
    + rewrite app_nil_r in Hfinal. exact Hfinal.
Qed.

(** X8.  The log count is exact.  On a clock that does not go back, and with a
    positive window, [getRequestCount] returns the number of admitted units
    of cost whose timestamp lies within the last [windowSize] milliseconds,
    and leaves the log holding exactly those units, oldest first. *)
Theorem sliding_log_count_exact
  (windowSize limit t0 : Z) (calls : list Call) (later : Z) :
  0 < windowSize ->
  clockFrom t0 (map fst calls ++ [later]) ->
  let fresh := SlidingWindowLogLimiter.create windowSize limit in
  let counted := SlidingWindowLogLimiter.getRequestCount (fst (run fresh calls)) later in
  let inWindow := filter (recent (later - windowSize * 1000))
                         (units (admittedCalls fresh calls)) in
  snd counted = Z.of_nat (length inWindow)
  /\ SlidingWindowLogLimiter.requests (fst counted) = inWindow
  /\ ascending inWindow.
Proof.
  intros Hws Hclock fresh counted inWindow.
  destruct (clockFrom_app _ _ _ Hclock) as [Hcalls [Hlater _]].
  destruct (logExact_run calls fresh [] t0) as [Hinv Ews]; [cbn; lia| |exact Hcalls|].
  { unfold logExact. cbn. repeat split; constructor. }
  cbn [app] in Hinv.
  pose proof (logExact_prune _ _ _ later Hinv Hlater) as Hprune.
  rewrite Ews in Hprune.
  cbn [fresh SlidingWindowLogLimiter.create SlidingWindowLogLimiter.windowSize] in Hprune.
  subst counted. unfold SlidingWindowLogLimiter.getRequestCount. cbn [fst snd].
  fold fresh in Hprune. rewrite Hprune. fold inWindow.
  repeat split. apply ascending_filter. apply Hinv.
Qed.

Lemma sliding_log_count_exact_witness :
  let fresh := SlidingWindowLogLimiter.create 1 3 in
  let calls : list Call := [(100, 1); (600, 2); (700, 1); (1200, 1)] in
  let counted := SlidingWindowLogLimiter.getRequestCount (fst (run fresh calls)) 1650 in
  let inWindow := filter (recent (1650 - 1 * 1000)) (units (admittedCalls fresh calls)) in
  snd counted = Z.of_nat (length inWindow)
  /\ SlidingWindowLogLimiter.requests (fst counted) = inWindow
  /\ ascending inWindow.
Proof.
  apply (sliding_log_count_exact 1 3 0 [(100, 1); (600, 2); (700, 1); (1200, 1)] 1650).
  - lia.
  - cbn. lia.
Defined.

Lemma shiftOld_length (cutoff : Z) (requests : list Z) :
  (length (SlidingWindowLogLimiter.shiftOld cutoff requests) <= length requests)%nat.
Proof.
  destruct (shiftOld_split cutoff requests) as (dropped & Hsplit & _).
  rewrite Hsplit at 2. rewrite length_app. lia.
Qed.

Lemma sliding_log_admits_when_room (s : SlidingWindowLogLimiter.t) (now : Z) :
  Z.of_nat (length (SlidingWindowLogLimiter.shiftOld
                      (now - SlidingWindowLogLimiter.windowSize s)
                      (SlidingWindowLogLimiter.requests s))) + 1
  <= SlidingWindowLogLimiter.limit s ->
  allowed (snd (SlidingWindowLogLimiter.allowRequest s now 1)) = true.
Proof.
  intros Hroom. unfold SlidingWindowLogLimiter.allowRequest,
    SlidingWindowLogLimiter.removeOldRequests.
  cbn [SlidingWindowLogLimiter.requests SlidingWindowLogLimiter.limit].
  destruct (Z.leb_spec
              (Z.of_nat (length (SlidingWindowLogLimiter.shiftOld
                                   (now - SlidingWindowLogLimiter.windowSize s)
                                   (SlidingWindowLogLimiter.requests s))) + 1)
              (SlidingWindowLogLimiter.limit s)); [reflexivity|lia].
Qed.

(** X9.  [resetAt] is honest: when a sliding log that holds no more than its
    limit (at least 1) of positive timestamps rejects a unit request,
    [resetAt] is the instant its oldest entry leaves the window, that
    instant lies in the future, [retryAfter] is the positive time until then,
    and from that instant on a unit request is admitted. *)
Theorem sliding_log_resetAt_honest
  (s : SlidingWindowLogLimiter.t) (now later : Z) :
  0 < SlidingWindowLogLimiter.limit s ->
  Z.of_nat (length (SlidingWindowLogLimiter.requests s)) <= SlidingWindowLogLimiter.limit s ->
  Forall (fun ts => 0 < ts) (SlidingWindowLogLimiter.requests s) ->
  allowed (snd (SlidingWindowLogLimiter.allowRequest s now 1)) = false ->
  let out := SlidingWindowLogLimiter.allowRequest s now 1 in
  exists oldest wait,
    head (SlidingWindowLogLimiter.requests (fst out)) = Some oldest
    /\ resetAt (snd out) = inject_Z (oldest + SlidingWindowLogLimiter.windowSize s)
    /\ now < oldest + SlidingWindowLogLimiter.windowSize s
    /\ retryAfter (snd out) = Some wait
    /\ (wait == seconds (oldest + SlidingWindowLogLimiter.windowSize s - now))%Q
    /\ (0 < wait)%Q
    /\ (oldest + SlidingWindowLogLimiter.windowSize s <= later ->
        allowed (snd (SlidingWindowLogLimiter.allowRequest (fst out) later 1)) = true).
Proof.
  intros Hlimit Hlen Hpos Hrej out. subst out.
  unfold SlidingWindowLogLimiter.allowRequest in *.
  set (ws := SlidingWindowLogLimiter.windowSize s) in *.
  set (s1 := SlidingWindowLogLimiter.removeOldRequests s now) in *.
  assert (Hkept : SlidingWindowLogLimiter.requests s1
                  = SlidingWindowLogLimiter.shiftOld (now - ws)
                      (SlidingWindowLogLimiter.requests s)) by reflexivity.
  pose proof (shiftOld_length (now - ws) (SlidingWindowLogLimiter.requests s)) as Hshort.
  rewrite <- Hkept in Hshort.
  change (SlidingWindowLogLimiter.limit s1) with (SlidingWindowLogLimiter.limit s) in *.
  change (SlidingWindowLogLimiter.windowSize s1) with ws in *.
  destruct (Z.leb_spec (Z.of_nat (length (SlidingWindowLogLimiter.requests s1)) + 1)
                       (SlidingWindowLogLimiter.limit s)) as [Hroom|Hfull];
    cbn [fst snd allowed resetAt retryAfter] in *; [discriminate|].
  destruct (SlidingWindowLogLimiter.requests s1) as [|oldest rest] eqn:Hreqs;
    [cbn [length] in Hfull; lia|].
  assert (Hnew : now - ws < oldest).
  { symmetry in Hkept. eapply shiftOld_head. exact Hkept. }
  assert (Holdest : 0 < oldest).
  { destruct (shiftOld_split (now - ws) (SlidingWindowLogLimiter.requests s))
      as (dropped & Hsplit & _).
    rewrite <- Hkept in Hsplit. rewrite Hsplit in Hpos.
    apply Forall_app in Hpos. destruct Hpos as [_ Hpos].
    now inversion Hpos. }
  cbn [SlidingWindowLogLimiter.truthyHead].
  destruct (Z.eqb_spec oldest 0) as [?|_]; [lia|].
  assert (Hwait : (0 < seconds (oldest + ws - now))%Q).
  { unfold seconds. apply Qlt_shift_div_l; [reflexivity|].
    rewrite Qmult_0_l. change 0%Q with (inject_Z 0). rewrite <- Zlt_Qlt. lia. }
  exists oldest, (Qmax 0 (seconds (oldest + ws - now))).
  split; [reflexivity|]. split; [reflexivity|]. split; [lia|].
  split; [reflexivity|].
  assert (Hmax : (Qmax 0 (seconds (oldest + ws - now)) == seconds (oldest + ws - now))%Q).
  { apply Q.max_r. lra. }
  split; [exact Hmax|]. split; [rewrite Hmax; exact Hwait|].
  intros Hlater.
  apply sliding_log_admits_when_room.
  change (SlidingWindowLogLimiter.windowSize s1) with ws.
  change (SlidingWindowLogLimiter.limit s1) with (SlidingWindowLogLimiter.limit s).
  rewrite Hreqs. cbn [SlidingWindowLogLimiter.shiftOld].
  destruct (Z.leb_spec oldest (later - ws)) as [_|?]; [|lia].
  pose proof (shiftOld_length (later - ws) rest) as Hrest.
  cbn [length] in Hshort. lia.
Qed.

Lemma sliding_log_resetAt_honest_witness :
  let s := fst (run (SlidingWindowLogLimiter.create 1 2) [(100, 1); (400, 1)]) in
  exists oldest wait,
    head (SlidingWindowLogLimiter.requests
            (fst (SlidingWindowLogLimiter.allowRequest s 500 1))) = Some oldest
    /\ retryAfter (snd (SlidingWindowLogLimiter.allowRequest s 500 1)) = Some wait
    /\ (0 < wait)%Q
    /\ allowed (snd (SlidingWindowLogLimiter.allowRequest
                       (fst (SlidingWindowLogLimiter.allowRequest s 500 1)) 1100 1)) = true.
Proof.
  intros s.
  destruct (sliding_log_resetAt_honest s 500 1100)
    as (oldest & wait & Hhead & _ & _ & Hretry & _ & Hwait & Hlater).
  - vm_compute. reflexivity.
  - vm_compute. discriminate.
  - repeat constructor.
  - reflexivity.
  - exists oldest, wait.
    split; [exact Hhead|]. split; [exact Hretry|]. split; [exact Hwait|].
    apply Hlater. vm_compute in Hhead. injection Hhead as <-.
    vm_compute. discriminate.
Defined.

(** ** Sliding-window counter: counts and the estimate *)

Lemma Qfloor_nonneg (q : Q) : (0 <= q)%Q -> 0 <= Qfloor q.
Proof. intros H. change 0 with (Qfloor 0). now apply Qfloor_resp_le. Qed.

Lemma overlap_mono (windowSize e1 e2 : Z) :
  0 < windowSize -> e1 <= e2 ->
  (Qmax 0 (inject_Z (windowSize - e2) / inject_Z windowSize)
   <= Qmax 0 (inject_Z (windowSize - e1) / inject_Z windowSize))%Q.
Proof.
  intros Hws He. apply Q.max_le_compat_l.
  assert (Hpos : (0 < inject_Z windowSize)%Q).
  { change 0%Q with (inject_Z 0). now rewrite <- Zlt_Qlt. }
  apply Qle_shift_div_l; [exact Hpos|].
  assert (Hcancel : (inject_Z (windowSize - e2) / inject_Z windowSize * inject_Z windowSize
                     == inject_Z (windowSize - e2))%Q).
  { field. intros Hz. rewrite Hz in Hpos. now apply Qlt_irrefl in Hpos. }
  rewrite Hcancel. rewrite <- Zle_Qle. lia.
Qed.

Lemma estimateCount_lower (s : SlidingWindowCounterLimiter.t) (now : Z) :
  0 <= SlidingWindowCounterLimiter.count (SlidingWindowCounterLimiter.previousWindow s) ->
  SlidingWindowCounterLimiter.count (SlidingWindowCounterLimiter.currentWindow s)
  <= SlidingWindowCounterLimiter.estimateCount s now.
Proof.
  intros Hprev. unfold SlidingWindowCounterLimiter.estimateCount.
  assert (0 <= Qfloor (inject_Z (SlidingWindowCounterLimiter.count
                                   (SlidingWindowCounterLimiter.previousWindow s))
                       * Qmax 0 (inject_Z (SlidingWindowCounterLimiter.windowSize s
                                           - (now - SlidingWindowCounterLimiter.start
                                                      (SlidingWindowCounterLimiter.currentWindow s)))
                                 / inject_Z (SlidingWindowCounterLimiter.windowSize s)))).
  { apply Qfloor_nonneg, Qmult_le_0_compat; [|apply Q.le_max_l].
    change 0%Q with (inject_Z 0). now rewrite <- Zle_Qle. }
  lia.
Qed.

Lemma sliding_counter_allowRequest_range
  (s : SlidingWindowCounterLimiter.t) (now tokens : Z) :
  0 < tokens -> countsWithinLimit s ->
  let out := SlidingWindowCounterLimiter.allowRequest s now tokens in
  countsWithinLimit (fst out)
  /\ SlidingWindowCounterLimiter.limit (fst out) = SlidingWindowCounterLimiter.limit s
  /\ (0 <= remaining (snd out))%Q
  /\ (remaining (snd out) <= inject_Z (SlidingWindowCounterLimiter.limit s))%Q.
Proof.
  intros Htokens [Hcur Hprev]. cbv zeta.
  unfold SlidingWindowCounterLimiter.allowRequest.
  set (s1 := if negb _ then _ else s).
  assert (Hs1 : countsWithinLimit s1
                /\ SlidingWindowCounterLimiter.limit s1 = SlidingWindowCounterLimiter.limit s).
  { unfold s1, countsWithinLimit. destruct (negb _); cbn; lia. }
  destruct Hs1 as [[Hcur1 Hprev1] Hlim1].
  pose proof (estimateCount_lower s1 now ltac:(lia)) as Hest.
  assert (Hzero : (0 <= inject_Z (SlidingWindowCounterLimiter.limit s))%Q).
  { change 0%Q with (inject_Z 0). rewrite <- Zle_Qle. lia. }
  destruct (Z.leb_spec (SlidingWindowCounterLimiter.estimateCount s1 now + tokens)
                       (SlidingWindowCounterLimiter.limit s1)) as [Hroom|Hfull];
    cbn [fst snd remaining SlidingWindowCounterLimiter.limit].
  - split; [|split; [exact Hlim1|]].
    + unfold countsWithinLimit. cbn. lia.
    + split; [change 0%Q with (inject_Z 0)|]; rewrite <- Zle_Qle; lia.
  - split; [split; assumption|]. split; [exact Hlim1|].
    split; [apply Qle_refl|exact Hzero].
Qed.

Lemma sliding_counter_applyOps_range (ops : list Op) :
  forall s : SlidingWindowCounterLimiter.t,
    Forall positiveCost ops -> countsWithinLimit s ->
    countsWithinLimit (applyOps s ops)
    /\ SlidingWindowCounterLimiter.limit (applyOps s ops)
       = SlidingWindowCounterLimiter.limit s.
Proof.
  induction ops as [|o ops IH]; intros s Hpos Hs; [cbn; auto|].
  inversion Hpos as [|? ? Ho Hrest]; subst.
  change (applyOps s (o :: ops)) with (applyOps (applyOp s o) ops).
  assert (Hstep : countsWithinLimit (applyOp s o)
                  /\ SlidingWindowCounterLimiter.limit (applyOp s o)
                     = SlidingWindowCounterLimiter.limit s).
  { destruct o as [now tokens|now]; cbn [applyOp positiveCost] in *.
    - change (allowRequest s now tokens)
        with (SlidingWindowCounterLimiter.allowRequest s now tokens).
      destruct (sliding_counter_allowRequest_range s now tokens Ho Hs) as (H1 & H2 & _).
      auto.
    - destruct Hs as [Hcur _]. unfold countsWithinLimit. cbn. lia. }
  destruct Hstep as [Hrange Hlim].
  destruct (IH (applyOp s o) Hrest Hrange) as [Hfinal Hsame].
  split; [assumption|congruence].
Qed.

(** X10.  A sliding-window counter with a non-negative limit keeps both window
    counts within [[0, limit]] over every sequence of [allowRequest] and
    [reset] calls of positive cost, whatever the clock does, and every result
    it returns has [0 <= remaining <= limit]. *)
Theorem sliding_counter_counts_within_limit
  (windowSize limit : Z) (ops : list Op) (now tokens : Z) :
  0 <= limit -> Forall positiveCost ops -> 0 < tokens ->
  let s := applyOps (SlidingWindowCounterLimiter.create windowSize limit) ops in
  let r := snd (SlidingWindowCounterLimiter.allowRequest s now tokens) in
  (0 <= SlidingWindowCounterLimiter.count (SlidingWindowCounterLimiter.currentWindow s)
     <= limit)
  /\ (0 <= SlidingWindowCounterLimiter.count (SlidingWindowCounterLimiter.previousWindow s)
        <= limit)
  /\ (0 <= remaining r)%Q /\ (remaining r <= inject_Z limit)%Q.
Proof.
  intros Hlimit Hpos Htokens s r.
  destruct (sliding_counter_applyOps_range ops
              (SlidingWindowCounterLimiter.create windowSize limit) Hpos)
    as [Hrange Hlim]; [unfold countsWithinLimit; cbn; lia|].
  fold s in Hrange, Hlim.
  cbn [SlidingWindowCounterLimiter.create SlidingWindowCounterLimiter.limit] in Hlim.
  destruct (sliding_counter_allowRequest_range s now tokens Htokens Hrange)
    as (_ & _ & Hlo & Hhi).
  destruct Hrange as [Hcur Hprev]. rewrite Hlim in *.
  repeat split; try lia; assumption.
Qed.

Lemma sliding_counter_counts_within_limit_witness :
  let s := applyOps (SlidingWindowCounterLimiter.create 1 3)
             [CallAllowRequest 1000 2; CallAllowRequest 1100 2; CallAllowRequest 2500 1;
              CallReset 2600; CallAllowRequest 2700 3] in
  let r := snd (SlidingWindowCounterLimiter.allowRequest s 3100 1) in
  (0 <= SlidingWindowCounterLimiter.count (SlidingWindowCounterLimiter.currentWindow s) <= 3)
  /\ (0 <= SlidingWindowCounterLimiter.count (SlidingWindowCounterLimiter.previousWindow s) <= 3)
  /\ (0 <= remaining r)%Q /\ (remaining r <= inject_Z 3)%Q.
Proof.
  apply (sliding_counter_counts_within_limit 1 3 _ 3100 1).
  - lia.
  - repeat constructor.
  - lia.
Defined.

(** X11.  Within one window the estimate only decays: with a positive window size
    and non-negative window counts, the estimate at a later clock reading is
    no higher, so a request that is admitted now would also be admitted, from
    the same state, at any later instant of the same window. *)
Theorem sliding_counter_estimate_decays
  (s : SlidingWindowCounterLimiter.t) (now later tokens : Z) :
  0 < SlidingWindowCounterLimiter.windowSize s ->
  0 <= SlidingWindowCounterLimiter.count (SlidingWindowCounterLimiter.previousWindow s) ->
  0 <= SlidingWindowCounterLimiter.count (SlidingWindowCounterLimiter.currentWindow s) ->
  now <= later ->
  SlidingWindowCounterLimiter.getWindowStart (SlidingWindowCounterLimiter.windowSize s) now
  = SlidingWindowCounterLimiter.getWindowStart (SlidingWindowCounterLimiter.windowSize s) later ->
  SlidingWindowCounterLimiter.estimateCount s later
  <= SlidingWindowCounterLimiter.estimateCount s now
  /\ (allowed (snd (SlidingWindowCounterLimiter.allowRequest s now tokens)) = true ->
      allowed (snd (SlidingWindowCounterLimiter.allowRequest s later tokens)) = true).
Proof.
  intros Hws Hprev Hcur Hclock Hsame.
  assert (Hdecay : forall s' : SlidingWindowCounterLimiter.t,
             0 < SlidingWindowCounterLimiter.windowSize s' ->
             0 <= SlidingWindowCounterLimiter.count
                    (SlidingWindowCounterLimiter.previousWindow s') ->
             SlidingWindowCounterLimiter.estimateCount s' later
             <= SlidingWindowCounterLimiter.estimateCount s' now).
  { intros s' Hws' Hprev'. unfold SlidingWindowCounterLimiter.estimateCount.
    apply Z.add_le_mono_r, Qfloor_resp_le.
    rewrite !(Qmult_comm (inject_Z (SlidingWindowCounterLimiter.count _))).
    apply Qmult_le_compat_r.
    - apply overlap_mono; [exact Hws'|lia].
    - change 0%Q with (inject_Z 0). now rewrite <- Zle_Qle. }
  split; [now apply Hdecay|].
  unfold SlidingWindowCounterLimiter.allowRequest. rewrite <- Hsame.
  set (s1 := if negb _ then _ else s).
  assert (Hs1 : 0 < SlidingWindowCounterLimiter.windowSize s1
                /\ 0 <= SlidingWindowCounterLimiter.count
                         (SlidingWindowCounterLimiter.previousWindow s1)).
  { unfold s1. destruct (negb _); cbn; auto. }
  specialize (Hdecay s1 (proj1 Hs1) (proj2 Hs1)).
  destruct (Z.leb_spec (SlidingWindowCounterLimiter.estimateCount s1 now + tokens)
                       (SlidingWindowCounterLimiter.limit s1)) as [Hroom|Hfull];
    cbn [snd allowed]; [|discriminate].
  intros _.
  destruct (Z.leb_spec (SlidingWindowCounterLimiter.estimateCount s1 later + tokens)
                       (SlidingWindowCounterLimiter.limit s1)) as [_|Hfull];
    cbn [snd allowed]; [reflexivity|lia].
Qed.

Lemma sliding_counter_estimate_decays_witness :
  let s := fst (run (SlidingWindowCounterLimiter.create 1 10)
                    (replicate 10 (1000, 1) ++ [(2100, 1)])) in
  SlidingWindowCounterLimiter.estimateCount s 2900
  <= SlidingWindowCounterLimiter.estimateCount s 2500
  /\ allowed (snd (SlidingWindowCounterLimiter.allowRequest s 2900 4)) = true.
Proof.
  intros s.
  destruct (sliding_counter_estimate_decays s 2500 2900 4) as [Hdecay Hlater].
  - vm_compute. reflexivity.
  - vm_compute. discriminate.
  - vm_compute. discriminate.
  - lia.
  - reflexivity.
  - split; [exact Hdecay|]. apply Hlater. reflexivity.
Defined.

(** ** Concurrent-request limiter: the admission bound *)

Lemma concurrent_perform_range (s : ConcurrentRequestsLimiter.t) (o : ConcurrentRequestsLimiter.op) :
  0 < ConcurrentRequestsLimiter.cost o ->
  0 <= ConcurrentRequestsLimiter.activeRequests s <= ConcurrentRequestsLimiter.maxConcurrent s ->
  0 <= ConcurrentRequestsLimiter.activeRequests (ConcurrentRequestsLimiter.perform s o)
    <= ConcurrentRequestsLimiter.maxConcurrent s.
Proof.
  intros Hcost Hs. destruct o as [n|n]; cbn in *.
  - unfold ConcurrentRequestsLimiter.allowRequest.
    destruct (Z.leb_spec (ConcurrentRequestsLimiter.activeRequests s + n)
                         (ConcurrentRequestsLimiter.maxConcurrent s)); cbn; lia.
  - lia.
Qed.

Lemma concurrent_performAll_range (ops : list ConcurrentRequestsLimiter.op) :
  forall s : ConcurrentRequestsLimiter.t,
    Forall (fun o => 0 < ConcurrentRequestsLimiter.cost o) ops ->
    0 <= ConcurrentRequestsLimiter.activeRequests s <= ConcurrentRequestsLimiter.maxConcurrent s ->
    0 <= ConcurrentRequestsLimiter.activeRequests (ConcurrentRequestsLimiter.performAll s ops)
      <= ConcurrentRequestsLimiter.maxConcurrent s
    /\ ConcurrentRequestsLimiter.maxConcurrent (ConcurrentRequestsLimiter.performAll s ops)
       = ConcurrentRequestsLimiter.maxConcurrent s.
Proof.
  induction ops as [|o ops IH]; intros s Hpos Hs; [cbn; lia|].
  inversion Hpos as [|? ? Ho Hrest]; subst.
  change (ConcurrentRequestsLimiter.performAll s (o :: ops))
    with (ConcurrentRequestsLimiter.performAll (ConcurrentRequestsLimiter.perform s o) ops).
  pose proof (concurrent_perform_range s o Ho Hs) as Hstep.
  pose proof (perform_maxConcurrent s o) as Hmax.
  destruct (IH (ConcurrentRequestsLimiter.perform s o) Hrest) as [Hfinal Hsame];
    [rewrite Hmax; exact Hstep|].
  rewrite Hmax in *. auto.
Qed.

(** X12.  The number of active requests never exceeds [maxConcurrent]: over every
    interleaving of [allowRequest] and [release] calls of positive cost on a
    limiter with a non-negative maximum, the active count stays within
    [[0, maxConcurrent]]; and an admitted request followed by its own release
    leaves the limiter exactly as it was. *)
Theorem concurrent_active_within_max
  (maxConcurrent : Z) (ops : list ConcurrentRequestsLimiter.op) (tokens : Z) :
  0 <= maxConcurrent ->
  Forall (fun o => 0 < ConcurrentRequestsLimiter.cost o) ops ->
  0 < tokens ->
  let s := ConcurrentRequestsLimiter.performAll
             (ConcurrentRequestsLimiter.create maxConcurrent) ops in
  0 <= ConcurrentRequestsLimiter.activeRequests s <= maxConcurrent
  /\ (allowed (snd (ConcurrentRequestsLimiter.allowRequest s tokens)) = true ->
      ConcurrentRequestsLimiter.release
        (fst (ConcurrentRequestsLimiter.allowRequest s tokens)) tokens = s).
Proof.
  intros Hmax Hpos Htokens s.
  destruct (concurrent_performAll_range ops (ConcurrentRequestsLimiter.create maxConcurrent)
              Hpos) as [Hrange Hsame]; [cbn; lia|].
  fold s in Hrange, Hsame. cbn in Hrange. split; [exact Hrange|].
  unfold ConcurrentRequestsLimiter.allowRequest, ConcurrentRequestsLimiter.release.
  destruct (Z.leb _ _); cbn; [|discriminate]. intros _.
  destruct s as [m a]. cbn in *. f_equal. lia.
Qed.

Lemma concurrent_active_within_max_witness :
  let s := ConcurrentRequestsLimiter.performAll (ConcurrentRequestsLimiter.create 5)
             [ConcurrentRequestsLimiter.AllowRequest 3;
              ConcurrentRequestsLimiter.AllowRequest 3;
              ConcurrentRequestsLimiter.Release 1;
              ConcurrentRequestsLimiter.AllowRequest 2] in
  0 <= ConcurrentRequestsLimiter.activeRequests s <= 5
  /\ ConcurrentRequestsLimiter.release
       (fst (ConcurrentRequestsLimiter.allowRequest s 1)) 1 = s.
Proof.
  intros s.
  destruct (concurrent_active_within_max 5
              [ConcurrentRequestsLimiter.AllowRequest 3;
               ConcurrentRequestsLimiter.AllowRequest 3;
               ConcurrentRequestsLimiter.Release 1;
               ConcurrentRequestsLimiter.AllowRequest 2] 1) as [Hrange Hround].
  - lia.
  - repeat constructor.
  - lia.
  - split; [exact Hrange|]. apply Hround. reflexivity.
Defined.

(** ** Multi-tier limiter: when the composite admits *)

Lemma first_reject_split (now tokens : Z) (limiters : list Limiter) :
  Forall (fun l => memberAdmits l now tokens = true) limiters
  \/ exists before m after,
       limiters = before ++ m :: after
       /\ Forall (fun l => memberAdmits l now tokens = true) before
       /\ memberRejects m now tokens = true.
Proof.
  induction limiters as [|l rest IH]; [left; constructor|].
  destruct (memberAdmits l now tokens) eqn:Hl.
  - destruct IH as [Hall|(before & m & after & -> & Hbefore & Hrej)].
    + left. constructor; assumption.
    + right. exists (l :: before), m, after. repeat split; [|assumption].
      constructor; assumption.
  - right. exists [], l, rest. repeat split; [constructor|].
    unfold memberRejects. unfold memberAdmits in Hl. now rewrite Hl.
Qed.

(** X13.  The composite admits a request exactly when it has at least one member
    and every member, in the state it is in, admits the request.  With no
    members the call throws (the [reduce] of an empty array) instead of
    returning a result.  The call never changes the number of members. *)
Theorem multi_tier_admits_iff_all (limiters : list Limiter) (now tokens : Z) :
  ((exists r, snd (MultiTierLimiter.allowRequest limiters now tokens) = Some r
              /\ allowed r = true)
   <-> limiters <> []
       /\ Forall (fun l => memberAdmits l now tokens = true) limiters)
  /\ MultiTierLimiter.allowRequest [] now tokens = ([], None)
  /\ length (fst (MultiTierLimiter.allowRequest limiters now tokens)) = length limiters.
Proof.
  split; [|split; [reflexivity|]].
  - split.
    + intros (r & Hr & Hallowed).
      destruct (first_reject_split now tokens limiters)
        as [Hall|(before & m & after & -> & Hbefore & Hrej)].
      * split; [|exact Hall]. intros ->. discriminate.
      * exfalso. unfold MultiTierLimiter.allowRequest in Hr.
        rewrite (loop_first_reject now tokens before m after [] Hbefore Hrej) in Hr.
        cbn [snd] in Hr. injection Hr as <-.
        unfold memberRejects in Hrej. rewrite Hallowed in Hrej. discriminate.
    + intros [Hne Hall]. unfold MultiTierLimiter.allowRequest.
      rewrite (loop_all_admit now tokens limiters [] Hall). cbn [app snd].
      destruct limiters as [|l rest]; [contradiction|].
      cbn [map MultiTierLimiter.reduce].
      destruct (fold_moreRestrictive (map (fun l => memberResult l now tokens) rest)
                  (memberResult l now tokens)) as [Hin _].
      eexists. split; [reflexivity|].
      change (memberResult l now tokens :: map (fun l => memberResult l now tokens) rest)
        with (map (fun l => memberResult l now tokens) (l :: rest)) in Hin.
      apply in_map_iff in Hin. destruct Hin as (l' & <- & Hl').
      rewrite Forall_forall in Hall. apply (Hall l'). now apply list_elem_of_In.
  - unfold MultiTierLimiter.allowRequest.
    destruct (first_reject_split now tokens limiters)
      as [Hall|(before & m & after & -> & Hbefore & Hrej)].
    + rewrite (loop_all_admit now tokens limiters [] Hall). cbn [fst].
      now rewrite length_map.
    + rewrite (loop_first_reject now tokens before m after [] Hbefore Hrej). cbn [fst].
      rewrite !length_app, length_map. reflexivity.
Qed.

(** ** In-memory storage *)





(** What [get] returns depends on the entry of its key only. *)
Lemma memory_storage_get_lookup (store : gmap string (Z * option Q)) (key : string) (now : Z) :
  snd (MemoryStorage.get store key now)
  = match store !! key with
    | Some (value, expires) =>
        if MemoryStorage.expired expires now then None else Some value
    | None => None
    end
  /\ forall other, other <> key ->
       fst (MemoryStorage.get store key now) !! other = store !! other.
Proof.
  unfold MemoryStorage.get. destruct (store !! key) as [[value expires]|]; [|auto].
  destruct (MemoryStorage.expired expires now); cbn [fst snd]; split; auto.
  intros other Hne. now apply lookup_delete_ne.
Qed.

(** X15.  Keys do not interfere: [get], [set], [increment] and [delete] on one
    key leave what [get] returns for any other key unchanged. *)
Theorem memory_storage_keys_independent
  (store : gmap string (Z * option Q)) (key other : string)
  (value amount : Z) (ttl : option Q) (t0 now : Z) :
  other <> key ->
  let unchanged store' :=
    snd (MemoryStorage.get store' other now) = snd (MemoryStorage.get store other now) in
  unchanged (fst (MemoryStorage.get store key t0))
  /\ unchanged (MemoryStorage.set store key value ttl t0)
  /\ unchanged (fst (MemoryStorage.increment store key amount t0))
  /\ unchanged (MemoryStorage.remove store key).
Proof.
  intros Hne unchanged. subst unchanged. cbv beta.
  assert (Hsame : forall store' : gmap string (Z * option Q),
             store' !! other = store !! other ->
             snd (MemoryStorage.get store' other now)
             = snd (MemoryStorage.get store other now)).
  { intros store' Hlookup.
    rewrite (proj1 (memory_storage_get_lookup store' other now)).
    rewrite (proj1 (memory_storage_get_lookup store other now)).
    now rewrite Hlookup. }
  pose proof (proj2 (memory_storage_get_lookup store key t0) other Hne) as Hget.
  repeat split; apply Hsame.
  - exact Hget.
  - unfold MemoryStorage.set. now apply lookup_insert_ne.
  - unfold MemoryStorage.increment.
    destruct (MemoryStorage.get store key t0) as [store1 found]. cbn [fst] in *.
    unfold MemoryStorage.set. rewrite lookup_insert_ne by auto. exact Hget.
  - unfold MemoryStorage.remove. now apply lookup_delete_ne.
Qed.

Lemma memory_storage_keys_independent_witness :
  let store := MemoryStorage.set (MemoryStorage.set ∅ "a" 1 None 0) "b" 2 (Some 1%Q) 0 in
  snd (MemoryStorage.get (fst (MemoryStorage.increment store "a" 5 100)) "b" 200)
  = snd (MemoryStorage.get store "b" 200).
Proof.
  intros store.
  apply (memory_storage_keys_independent store "a" "b" 0 5 None 100 200).
  discriminate.
Defined.

Lemma memory_storage_increment_permanent
  (store : gmap string (Z * option Q)) (key : string) (amount now : Z) :
  let out := MemoryStorage.increment store key amount now in
  snd out = default 0 (snd (MemoryStorage.get store key now)) + amount
  /\ fst out !! key = Some (snd out, None).
Proof.
  cbv zeta. unfold MemoryStorage.increment.
  destruct (MemoryStorage.get store key now) as [store1 found]. cbn [fst snd].
  split; [reflexivity|]. unfold MemoryStorage.set. apply lookup_insert_eq.
Qed.

Lemma memory_storage_incrementAll_permanent (calls : list (Z * Z)) :
  forall (store : gmap string (Z * option Q)) (key : string) (value : Z),
    store !! key = Some (value, None) ->
    snd (MemoryStorage.incrementAll store key calls) = runningTotals value (map fst calls)
    /\ fst (MemoryStorage.incrementAll store key calls) !! key
       = Some (List.last (runningTotals value (map fst calls)) value, None).
Proof.
  induction calls as [|[amount now] calls IH]; intros store key value Hkey; [cbn; auto|].
  cbn [MemoryStorage.incrementAll map fst runningTotals].
  destruct (memory_storage_increment_permanent store key amount now) as [Hvalue Hstored].
  assert (Hfound : snd (MemoryStorage.get store key now) = Some value).
  { rewrite (proj1 (memory_storage_get_lookup store key now)), Hkey. reflexivity. }
  rewrite Hfound in Hvalue. cbn [default] in Hvalue.
  destruct (MemoryStorage.increment store key amount now) as [store1 v]. cbn [fst snd] in *.
  subst v. destruct (IH store1 key (value + amount) Hstored) as [Hvalues Hfinal].
  destruct (MemoryStorage.incrementAll store1 key calls) as [store2 values].
  cbn [fst snd] in *. rewrite Hvalues. split; [reflexivity|].
  now rewrite last_cons_default.
Qed.

(** X16.  [increment] adds up and makes the key permanent.  The first increment
    starts from the value [get] sees at that instant (0 for a missing or
    expired key) and stores the sum without a time-to-live, dropping any the
    key had; every later increment adds to it; and the total is read back at
    any clock reading. *)
Theorem memory_storage_increment_totals
  (store : gmap string (Z * option Q)) (key : string)
  (amount t1 : Z) (calls : list (Z * Z)) (later : Z) :
  let start := default 0 (snd (MemoryStorage.get store key t1)) in
  let out := MemoryStorage.incrementAll store key ((amount, t1) :: calls) in
  let totals := runningTotals start (amount :: map fst calls) in
  snd out = totals
  /\ MemoryStorage.get (fst out) key later = (fst out, Some (List.last totals start)).
Proof.
  cbv zeta. cbn [MemoryStorage.incrementAll runningTotals].
  destruct (memory_storage_increment_permanent store key amount t1) as [Hvalue Hstored].
  destruct (MemoryStorage.increment store key amount t1) as [store1 v]. cbn [fst snd] in *.
  subst v.
  destruct (memory_storage_incrementAll_permanent calls store1 key _ Hstored)
    as [Hvalues Hfinal].
  destruct (MemoryStorage.incrementAll store1 key calls) as [store2 values].
  cbn [fst snd] in *. rewrite Hvalues. split; [reflexivity|].
  rewrite last_cons_default.
  unfold MemoryStorage.get. rewrite Hfinal. reflexivity.
Qed.

(** ** Key addressing *)

Lemma int_of_string_of_int (d : Decimal.signed_int) :
  exists d', NilZero.int_of_string (NilZero.string_of_int d) = Some d'
             /\ Z.of_int d' = Z.of_int d.
Proof.
  destruct d as [u|u]; destruct u;
    try (eexists; split; [apply NilZero.isi; discriminate|reflexivity]).
  - exists (Decimal.Pos (Decimal.D0 Decimal.Nil)). split; reflexivity.
  - exists (Decimal.Neg (Decimal.D0 Decimal.Nil)). split; reflexivity.
Qed.

Lemma string_of_Z_inj (a b : Z) : string_of_Z a = string_of_Z b -> a = b.
Proof.
  unfold string_of_Z. intros Heq.
  destruct (int_of_string_of_int (Z.to_int a)) as (da & Ha & Hda).
  destruct (int_of_string_of_int (Z.to_int b)) as (db & Hb & Hdb).
  rewrite Heq in Ha. rewrite Ha in Hb. injection Hb as ->.
  rewrite !DecimalZ.of_to in Hda, Hdb. congruence.
Qed.

(** X17.  [makeKey] keeps the keys of one prefix apart, but not the keys of
    different prefixes: a colon in a prefix or a key can make two of them
    meet. *)
Theorem redis_makeKey_injective :
  (forall keyPrefix key1 key2 : string,
      RedisStorage.makeKey keyPrefix key1 = RedisStorage.makeKey keyPrefix key2 ->
      key1 = key2)
  /\ (exists prefix1 prefix2 key1 key2 : string,
        prefix1 <> prefix2 /\ key1 <> key2
        /\ RedisStorage.makeKey prefix1 key1 = RedisStorage.makeKey prefix2 key2).
Proof.
  split.
  - intros keyPrefix key1 key2 Heq. unfold RedisStorage.makeKey in Heq.
    apply String.app_inj in Heq. now apply String.app_inj in Heq.
  - exists "a"%string, "a:b"%string, "b:c"%string, "c"%string.
    repeat split; discriminate || reflexivity.
Qed.

(** The keys of the window-anchored counters: for one limiter, different
    window starts give different keys. *)
Lemma window_keys_distinct :
  (forall (s : DistributedSlidingWindowCounter.t) (w1 w2 : Z),
      DistributedSlidingWindowCounter.key s w1 = DistributedSlidingWindowCounter.key s w2 ->
      w1 = w2)
  /\ (forall (s : RedisSlidingWindowCounter.t) (w1 w2 : Z),
      RedisSlidingWindowCounter.key s w1 = RedisSlidingWindowCounter.key s w2 -> w1 = w2).
Proof.
  split; intros s w1 w2 Heq;
    unfold DistributedSlidingWindowCounter.key, RedisSlidingWindowCounter.key in Heq;
    repeat (apply String.app_inj in Heq); now apply string_of_Z_inj.
Qed.

(** ** The scripted sliding-window counter *)

Lemma window_overlap_nonneg (windowSize now : Z) :
  0 < windowSize ->
  (0 <= (inject_Z windowSize
         - (seconds now - inject_Z (now / (1000 * windowSize) * windowSize)))
        / inject_Z windowSize)%Q.
Proof.
  intros Hws.
  set (w := now / (1000 * windowSize)).
  assert (Hdiv : 1000 * windowSize * w <= now < 1000 * windowSize * (w + 1)).
  { pose proof (Z.div_mod now (1000 * windowSize) ltac:(lia)) as Hdm.
    pose proof (Z.mod_pos_bound now (1000 * windowSize) ltac:(lia)) as Hmod.
    fold w in Hdm. lia. }
  assert (Hpos : (0 < inject_Z windowSize)%Q).
  { change 0%Q with (inject_Z 0). now rewrite <- Zlt_Qlt. }
  apply Qle_shift_div_l; [exact Hpos|]. rewrite Qmult_0_l.
  assert (Hnum : (inject_Z windowSize - (seconds now - inject_Z (w * windowSize))
                  == inject_Z (1000 * (windowSize + w * windowSize) - now) / 1000)%Q).
  { unfold seconds, Zminus.
    repeat (rewrite inject_Z_plus || rewrite inject_Z_mult || rewrite inject_Z_opp).
    field. }
  rewrite Hnum. apply Qle_shift_div_l; [reflexivity|]. rewrite Qmult_0_l.
  change 0%Q with (inject_Z 0). rewrite <- Zle_Qle. lia.
Qed.

Lemma storeGet_incr_expire (st : Store) (key other : string) (value ttl : Z) (old : option Q) :
  storeGet (alter (fun e => (fst e, Some (inject_Z ttl))) key (<[key := (value, old)]> st)) key
  = Some value
  /\ (other <> key ->
      storeGet (alter (fun e => (fst e, Some (inject_Z ttl))) key
                      (<[key := (value, old)]> st)) other
      = storeGet st other).
Proof.
  unfold storeGet. split.
  - rewrite lookup_alter_eq, lookup_insert_eq. reflexivity.
  - intros Hne. rewrite lookup_alter_ne, lookup_insert_ne by auto. reflexivity.
Qed.

Lemma admittedTotal_cons {A : Type} (admitted : A -> bool)
      (call : Call) (a : A) (results : list (Call * A)) :
  admittedTotal admitted ((call, a) :: results)
  = (if admitted a then snd call else 0) + admittedTotal admitted results.
Proof. reflexivity. Qed.

(** One run of the sliding-window script: the previous window's count is
    left alone, and the current window's count grows by the cost when (and
    only when) the call is admitted, which needs room for it under the
    limit. *)
Lemma redis_sliding_consume_step
  (s : RedisSlidingWindowCounter.t) (st : Store) (now tokens : Z) :
  0 < RedisSlidingWindowCounter.windowSize s ->
  let ws := RedisSlidingWindowCounter.windowSize s in
  let start := now / (1000 * ws) * ws in
  let current := default 0 (storeGet st (RedisSlidingWindowCounter.key s start)) in
  0 <= default 0 (storeGet st (RedisSlidingWindowCounter.key s (start - ws))) ->
  let out := RedisSlidingWindowCounter.consume s st now tokens in
  storeGet (fst out) (RedisSlidingWindowCounter.key s (start - ws))
  = storeGet st (RedisSlidingWindowCounter.key s (start - ws))
  /\ (if RedisSlidingWindowCounter.allowed (snd out)
      then current + tokens <= RedisSlidingWindowCounter.limit s
           /\ storeGet (fst out) (RedisSlidingWindowCounter.key s start)
              = Some (current + tokens)
      else fst out = st).
Proof.
  intros Hws ws start current Hprev out. subst out.
  unfold RedisSlidingWindowCounter.consume, RedisSlidingWindowCounter.script.
  fold ws start. fold current.
  set (previous := default 0 (storeGet st (RedisSlidingWindowCounter.key s (start - ws)))) in *.
  set (estimate := Qfloor _ + current).
  assert (Hest : current <= estimate).
  { unfold estimate.
    assert (0 <= Qfloor (inject_Z previous
                         * ((inject_Z ws - (seconds now - inject_Z start)) / inject_Z ws))).
    { apply Qfloor_nonneg, Qmult_le_0_compat.
      - change 0%Q with (inject_Z 0). now rewrite <- Zle_Qle.
      - apply window_overlap_nonneg. exact Hws. }
    lia. }
  assert (Hkeys : RedisSlidingWindowCounter.key s (start - ws)
                  <> RedisSlidingWindowCounter.key s start).
  { intros Heq. apply (proj2 window_keys_distinct) in Heq. lia. }
  destruct (Z.leb_spec (estimate + tokens) (RedisSlidingWindowCounter.limit s))
    as [Hroom|Hfull]; cbn [fst snd RedisSlidingWindowCounter.allowed Z.eqb negb].
  - destruct (storeGet_incr_expire st (RedisSlidingWindowCounter.key s start)
                (RedisSlidingWindowCounter.key s (start - ws)) (current + tokens) (ws * 2)
                (st !! RedisSlidingWindowCounter.key s start ≫= snd)) as [Hcur Hother].
    split; [now apply Hother|]. split; [lia|exact Hcur].
  - split; reflexivity.
Qed.

(** X18.  The scripted counter never over-admits.  Callers of one window, run in
    any order (the script is one storage operation, so concurrent callers
    amount to some order), on a store where that window's key is still
    missing and the previous window's count is not negative: the total cost
    admitted stays within the limit, and the window's counter holds exactly
    that total. *)
Theorem redis_sliding_window_never_over_admits
  (s : RedisSlidingWindowCounter.t) (st : Store) (calls : list Call) (w : Z) :
  0 < RedisSlidingWindowCounter.windowSize s ->
  0 <= RedisSlidingWindowCounter.limit s ->
  Forall (fun c : Call =>
            0 < snd c /\ fst c / (1000 * RedisSlidingWindowCounter.windowSize s) = w) calls ->
  let ws := RedisSlidingWindowCounter.windowSize s in
  storeGet st (RedisSlidingWindowCounter.key s (w * ws)) = None ->
  0 <= default 0 (storeGet st (RedisSlidingWindowCounter.key s (w * ws - ws))) ->
  let out := RedisSlidingWindowCounter.consumeEach s st calls in
  let admitted := admittedTotal RedisSlidingWindowCounter.allowed (fst out) in
  0 <= admitted <= RedisSlidingWindowCounter.limit s
  /\ default 0 (storeGet (snd out) (RedisSlidingWindowCounter.key s (w * ws))) = admitted.
Proof.
  intros Hws Hlimit Hcalls ws Hfresh Hprev.
  assert (Hgen : forall (calls : list Call) (st : Store),
             Forall (fun c : Call => 0 < snd c /\ fst c / (1000 * ws) = w) calls ->
             0 <= default 0 (storeGet st (RedisSlidingWindowCounter.key s (w * ws - ws))) ->
             0 <= default 0 (storeGet st (RedisSlidingWindowCounter.key s (w * ws)))
               <= RedisSlidingWindowCounter.limit s ->
             let out := RedisSlidingWindowCounter.consumeEach s st calls in
             let admitted := admittedTotal RedisSlidingWindowCounter.allowed (fst out) in
             0 <= admitted
             /\ default 0 (storeGet (snd out) (RedisSlidingWindowCounter.key s (w * ws)))
                = default 0 (storeGet st (RedisSlidingWindowCounter.key s (w * ws))) + admitted
             /\ default 0 (storeGet (snd out) (RedisSlidingWindowCounter.key s (w * ws)))
                <= RedisSlidingWindowCounter.limit s).
  { clear st Hfresh Hprev calls Hcalls.
    induction calls as [|[now tokens] calls IH]; intros st Hcalls Hprev Hcur.
    - cbn. lia.
    - inversion Hcalls as [|? ? [Hcost Hwin] Hrest]; subst. cbn [fst snd] in *.
      pose proof (redis_sliding_consume_step s st now tokens Hws) as Hstep.
      cbv zeta in Hstep. fold ws in Hstep. specialize (Hstep Hprev).
      destruct Hstep as [Hkeep Hcase].
      cbn [RedisSlidingWindowCounter.consumeEach].
      destruct (RedisSlidingWindowCounter.consume s st now tokens) as [st1 r].
      cbn [fst snd] in *.
      assert (Hprev1 : 0 <= default 0 (storeGet st1
                              (RedisSlidingWindowCounter.key s (now / (1000 * ws) * ws - ws)))).
      { now rewrite Hkeep. }
      assert (Hcur1 : 0 <= default 0 (storeGet st1
                             (RedisSlidingWindowCounter.key s (now / (1000 * ws) * ws)))
                        <= RedisSlidingWindowCounter.limit s
                      /\ default 0 (storeGet st1
                             (RedisSlidingWindowCounter.key s (now / (1000 * ws) * ws)))
                         = default 0 (storeGet st
                             (RedisSlidingWindowCounter.key s (now / (1000 * ws) * ws)))
                           + (if RedisSlidingWindowCounter.allowed r then tokens else 0)).
      { destruct (RedisSlidingWindowCounter.allowed r).
        - destruct Hcase as [Hroom ->]. cbn [default from_option id]. lia.
        - subst st1. lia. }
      destruct Hcur1 as [Hcur1 Hgrow].
      specialize (IH st1 Hrest Hprev1 Hcur1). cbv zeta in IH.
      destruct (RedisSlidingWindowCounter.consumeEach s st1 calls) as [results st2].
      cbn [fst snd] in *. rewrite admittedTotal_cons. cbn [snd].
      destruct IH as (Hnonneg & Hsum & Hbound).
      destruct (RedisSlidingWindowCounter.allowed r); lia. }
  intros out admitted.
  destruct (Hgen calls st Hcalls Hprev) as (Hnonneg & Hsum & Hbound).
  { fold ws. rewrite Hfresh. cbn. lia. }
  fold out admitted in Hnonneg, Hsum, Hbound.
  fold ws in Hsum, Hbound. rewrite Hfresh in Hsum. cbn [default from_option id] in Hsum.
  fold ws. lia.
Qed.

Lemma redis_sliding_window_never_over_admits_witness :
  let s := RedisSlidingWindowCounter.mk 60 3 "user:123" in
  let calls : list Call := [(61000, 2); (60500, 2); (62000, 1); (119999, 1)] in
  let out := RedisSlidingWindowCounter.consumeEach s ∅ calls in
  let admitted := admittedTotal RedisSlidingWindowCounter.allowed (fst out) in
  0 <= admitted <= 3
  /\ default 0 (storeGet (snd out) (RedisSlidingWindowCounter.key s (1 * 60))) = admitted.
Proof.
  apply (redis_sliding_window_never_over_admits
           (RedisSlidingWindowCounter.mk 60 3 "user:123") ∅
           [(61000, 2); (60500, 2); (62000, 1); (119999, 1)] 1).
  - cbn. lia.
  - cbn. lia.
  - repeat constructor.
  - reflexivity.
  - vm_compute. discriminate.
Defined.

(** ** The scripted token bucket *)

Lemma redis_token_bucket_consume_step
  (s : RedisTokenBucket.t) (st : gmap string RedisTokenBucket.bucket) (now tokens : Z) :
  (0 <= RedisTokenBucket.capacity s)%Q -> (0 <= RedisTokenBucket.refillRate s)%Q ->
  0 < tokens ->
  RedisTokenBucket.withinCapacity s st ->
  let out := RedisTokenBucket.consume s st now tokens in
  RedisTokenBucket.withinCapacity s (fst out)
  /\ 0 <= snd (snd out)
  /\ (inject_Z (snd (snd out)) <= RedisTokenBucket.capacity s)%Q
  /\ (fst (snd out) = true -> (inject_Z tokens <= RedisTokenBucket.capacity s)%Q).
Proof.
  intros Hcap Hrate Hcost Hinv. cbv zeta.
  unfold RedisTokenBucket.consume, RedisTokenBucket.script.
  set (tokens0 := default (RedisTokenBucket.capacity s)
                    (RedisTokenBucket.tokens <$> st !! RedisTokenBucket.key s)).
  set (last0 := default (seconds now)
                  (RedisTokenBucket.last_refill <$> st !! RedisTokenBucket.key s)).
  assert (H0 : (0 <= tokens0)%Q /\ (tokens0 <= RedisTokenBucket.capacity s)%Q).
  { unfold tokens0, RedisTokenBucket.withinCapacity in *.
    destruct (st !! RedisTokenBucket.key s) as [b|]; cbn; [exact Hinv|].
    split; [exact Hcap|apply Qle_refl]. }
  set (added := (Qmax 0 (seconds now - last0) * RedisTokenBucket.refillRate s)%Q).
  assert (Hadded : (0 <= added)%Q).
  { apply Qmult_le_0_compat; [apply Q.le_max_l|exact Hrate]. }
  set (tokens1 := Qmin (RedisTokenBucket.capacity s) (tokens0 + added)).
  assert (H1 : (0 <= tokens1)%Q /\ (tokens1 <= RedisTokenBucket.capacity s)%Q).
  { split; [apply Q.min_glb; lra|apply Q.le_min_l]. }
  assert (Hreq : (0 < inject_Z tokens)%Q).
  { change 0%Q with (inject_Z 0). now rewrite <- Zlt_Qlt. }
  destruct (Qle_bool (inject_Z tokens) tokens1) eqn:Henough;
    cbn [fst snd Z.eqb negb]; unfold RedisTokenBucket.withinCapacity;
    rewrite lookup_insert_eq; cbn [RedisTokenBucket.tokens].
  - apply Qle_bool_iff in Henough.
    assert (H2 : (0 <= tokens1 - inject_Z tokens)%Q) by lra.
    split; [split; lra|]. split; [now apply Qfloor_nonneg|].
    split; [|intros _; lra].
    pose proof (Qfloor_le (tokens1 - inject_Z tokens)). lra.
  - split; [exact H1|]. split; [apply Qfloor_nonneg, H1|].
    split; [|discriminate].
    pose proof (Qfloor_le tokens1). lra.
Qed.

(** X19.  The scripted token bucket keeps [0 <= tokens <= capacity] whatever the
    clock does, going back included (the script clamps the elapsed time at
    0): with a non-negative capacity and refill rate and positive costs,
    after any sequence of [consume] calls at any clock readings the stored
    token count is within the capacity, every reported [remaining] lies in
    [[0, capacity]], and only requests that cost no more than the capacity
    are ever admitted. *)
Theorem redis_token_bucket_within_capacity
  (s : RedisTokenBucket.t) (st : gmap string RedisTokenBucket.bucket) (calls : list Call) :
  (0 <= RedisTokenBucket.capacity s)%Q -> (0 <= RedisTokenBucket.refillRate s)%Q ->
  Forall (fun c : Call => 0 < snd c) calls ->
  RedisTokenBucket.withinCapacity s st ->
  let out := RedisTokenBucket.consumeEach s st calls in
  RedisTokenBucket.withinCapacity s (snd out)
  /\ Forall (fun '(call, (allowed, remaining)) =>
               0 <= remaining
               /\ (inject_Z remaining <= RedisTokenBucket.capacity s)%Q
               /\ (allowed = true -> (inject_Z (snd call) <= RedisTokenBucket.capacity s)%Q))
            (fst out).
Proof.
  intros Hcap Hrate Hcalls. revert st.
  induction calls as [|[now tokens] calls IH]; intros st Hinv.
  - cbn. split; [exact Hinv|constructor].
  - inversion Hcalls as [|? ? Hcost Hrest]; subst. cbn [snd] in Hcost.
    pose proof (redis_token_bucket_consume_step s st now tokens Hcap Hrate Hcost Hinv)
      as Hstep. cbv zeta in Hstep.
    cbn [RedisTokenBucket.consumeEach].
    destruct (RedisTokenBucket.consume s st now tokens) as [st1 [allowed remaining]].
    cbn [fst snd] in Hstep. destruct Hstep as (Hinv1 & Hlo & Hhi & Hfits).
    specialize (IH Hrest st1 Hinv1). cbv zeta in IH.
    destruct (RedisTokenBucket.consumeEach s st1 calls) as [results st2].
    cbn [fst snd] in *. destruct IH as [Hfinal Hresults].
    split; [exact Hfinal|]. constructor; [|exact Hresults].
    cbn [snd]. auto.
Qed.

Lemma redis_token_bucket_within_capacity_witness :
  let s := RedisTokenBucket.mk 10 2 "user:123" in
  let out := RedisTokenBucket.consumeEach s ∅
               [(5000, 4); (4000, 7); (9000, 12); (1000, 3)] in
  RedisTokenBucket.withinCapacity s (snd out)
  /\ Forall (fun '(call, (allowed, remaining)) =>
               0 <= remaining
               /\ (inject_Z remaining <= RedisTokenBucket.capacity s)%Q
               /\ (allowed = true -> (inject_Z (snd call) <= RedisTokenBucket.capacity s)%Q))
            (fst out).
Proof.
  apply (redis_token_bucket_within_capacity (RedisTokenBucket.mk 10 2 "user:123") ∅
           [(5000, 4); (4000, 7); (9000, 12); (1000, 3)]).
  - vm_compute. discriminate.
  - vm_compute. discriminate.
  - repeat constructor.
  - exact I.
Defined.

(** ** The unscripted distributed counters, one caller at a time *)

(** [runAlone] takes the steps that [step] takes. *)
Lemma runAlone_step {A : Type} (p : Async A) (st : Store) :
  runAlone p st = runAlone (fst (step p st)) (snd (step p st)).
Proof. destruct p; reflexivity. Qed.

Lemma redis_fixed_window_alone (s : RedisFixedWindowCounter.t) (st : Store) (now tokens : Z) :
  let start := now / (1000 * RedisFixedWindowCounter.windowSize s)
               * RedisFixedWindowCounter.windowSize s in
  let key := ("fixed_window:" ++ RedisFixedWindowCounter.identifier s ++ ":"
              ++ string_of_Z start)%string in
  let current := default 0 (storeGet st key) in
  let out := runAlone (RedisFixedWindowCounter.consume s now tokens) st in
  if RedisFixedWindowCounter.allowed (fst out)
  then current + tokens <= RedisFixedWindowCounter.limit s
       /\ storeGet (snd out) key = Some (current + tokens)
       /\ RedisFixedWindowCounter.remaining (fst out)
          = RedisFixedWindowCounter.limit s - (current + tokens)
  else RedisFixedWindowCounter.limit s < current + tokens
       /\ snd out = st
       /\ RedisFixedWindowCounter.remaining (fst out) = 0.
Proof.
  cbv zeta. unfold RedisFixedWindowCounter.consume. cbn [runAlone].
  match goal with |- context [Z.leb ?a ?b] => destruct (Z.leb_spec a b) as [Hroom|Hfull] end;
    cbn [runAlone fst snd RedisFixedWindowCounter.allowed RedisFixedWindowCounter.remaining].
  - split; [exact Hroom|]. split; [|reflexivity].
    apply (storeGet_incr_expire st _ ""%string).
  - auto.
Qed.

(** X20.  Run one caller at a time, [RedisFixedWindowCounter.consume] does not
    over-admit: for callers of one window on a store where that window's key
    is missing, the total cost admitted stays within the limit and the key
    holds exactly that total.  (Interleaved callers do over-admit.) *)
Theorem redis_fixed_window_sequential
  (s : RedisFixedWindowCounter.t) (st : Store) (calls : list Call) (w : Z) :
  0 <= RedisFixedWindowCounter.limit s ->
  Forall (fun c : Call =>
            0 < snd c /\ fst c / (1000 * RedisFixedWindowCounter.windowSize s) = w) calls ->
  let key := ("fixed_window:" ++ RedisFixedWindowCounter.identifier s ++ ":"
              ++ string_of_Z (w * RedisFixedWindowCounter.windowSize s))%string in
  storeGet st key = None ->
  let out := runEach (RedisFixedWindowCounter.consume s) calls st in
  let admitted := admittedTotal RedisFixedWindowCounter.allowed (fst out) in
  0 <= admitted <= RedisFixedWindowCounter.limit s
  /\ default 0 (storeGet (snd out) key) = admitted.
Proof.
  intros Hlimit Hcalls key Hfresh.
  assert (Hgen : forall (calls : list Call) (st : Store),
             Forall (fun c : Call =>
                       0 < snd c
                       /\ fst c / (1000 * RedisFixedWindowCounter.windowSize s) = w) calls ->
             0 <= default 0 (storeGet st key) <= RedisFixedWindowCounter.limit s ->
             let out := runEach (RedisFixedWindowCounter.consume s) calls st in
             let admitted := admittedTotal RedisFixedWindowCounter.allowed (fst out) in
             0 <= admitted
             /\ default 0 (storeGet (snd out) key) = default 0 (storeGet st key) + admitted
             /\ default 0 (storeGet (snd out) key) <= RedisFixedWindowCounter.limit s).
  { clear st Hfresh calls Hcalls.
    induction calls as [|[now tokens] calls IH]; intros st Hcalls Hcur.
    - cbn. lia.
    - inversion Hcalls as [|? ? [Hcost Hwin] Hrest]; subst. cbn [fst snd] in *.
      pose proof (redis_fixed_window_alone s st now tokens) as Hstep.
      cbv zeta in Hstep. fold key in Hstep.
      cbn [runEach].
      destruct (runAlone (RedisFixedWindowCounter.consume s now tokens) st) as [r st1].
      cbn [fst snd] in *.
      assert (Hcur1 : 0 <= default 0 (storeGet st1 key) <= RedisFixedWindowCounter.limit s
                      /\ default 0 (storeGet st1 key)
                         = default 0 (storeGet st key)
                           + (if RedisFixedWindowCounter.allowed r then tokens else 0)).
      { destruct (RedisFixedWindowCounter.allowed r).
        - destruct Hstep as (Hroom & -> & _). cbn [default from_option id]. lia.
        - destruct Hstep as (_ & -> & _). lia. }
      destruct Hcur1 as [Hcur1 Hgrow].
      specialize (IH st1 Hrest Hcur1). cbv zeta in IH.
      destruct (runEach (RedisFixedWindowCounter.consume s) calls st1) as [results st2].
      cbn [fst snd] in *. rewrite admittedTotal_cons. cbn [snd].
      destruct IH as (Hnonneg & Hsum & Hbound).
      destruct (RedisFixedWindowCounter.allowed r); lia. }
  intros out admitted.
  destruct (Hgen calls st Hcalls) as (Hnonneg & Hsum & Hbound).
  { rewrite Hfresh. cbn. lia. }
  fold out admitted in Hnonneg, Hsum, Hbound.
  rewrite Hfresh in Hsum. cbn [default from_option id] in Hsum. lia.
Qed.

Lemma redis_fixed_window_sequential_witness :
  let s := RedisFixedWindowCounter.mk 60 3 "user:123" in
  let out := runEach (RedisFixedWindowCounter.consume s)
                     [(61000, 2); (60500, 2); (62000, 1); (119999, 1)] ∅ in
  let admitted := admittedTotal RedisFixedWindowCounter.allowed (fst out) in
  0 <= admitted <= 3
  /\ default 0 (storeGet (snd out) "fixed_window:user:123:60") = admitted.
Proof.
  apply (redis_fixed_window_sequential (RedisFixedWindowCounter.mk 60 3 "user:123") ∅
           [(61000, 2); (60500, 2); (62000, 1); (119999, 1)] 1).
  - cbn. lia.
  - repeat constructor.
  - reflexivity.
Defined.

Lemma distributed_sliding_alone
  (s : DistributedSlidingWindowCounter.t) (st : Store) (now tokens : Z) :
  DistributedSlidingWindowCounter.windowSize s <> 0 ->
  let ws := DistributedSlidingWindowCounter.windowSize s in
  let start := DistributedSlidingWindowCounter.getWindowStart ws now in
  let current := default 0 (storeGet st (DistributedSlidingWindowCounter.key s start)) in
  0 <= default 0 (storeGet st (DistributedSlidingWindowCounter.key s (start - ws))) ->
  let out := runAlone (DistributedSlidingWindowCounter.allowRequest s now tokens) st in
  storeGet (snd out) (DistributedSlidingWindowCounter.key s (start - ws))
  = storeGet st (DistributedSlidingWindowCounter.key s (start - ws))
  /\ (if allowed (fst out)
      then current + tokens <= DistributedSlidingWindowCounter.limit s
           /\ storeGet (snd out) (DistributedSlidingWindowCounter.key s start)
              = Some (current + tokens)
      else snd out = st).
Proof.
  intros Hws ws start current Hprev out. subst out.
  unfold DistributedSlidingWindowCounter.allowRequest. fold ws start.
  cbn [runAlone]. fold current.
  set (previous := default 0 (storeGet st (DistributedSlidingWindowCounter.key s (start - ws)))) in *.
  set (estimate := Qfloor _ + current).
  assert (Hest : current <= estimate).
  { unfold estimate.
    assert (0 <= Qfloor (inject_Z previous
                         * Qmax 0 (inject_Z (ws - (now - start)) / inject_Z ws))).
    { apply Qfloor_nonneg, Qmult_le_0_compat; [|apply Q.le_max_l].
      change 0%Q with (inject_Z 0). now rewrite <- Zle_Qle. }
    lia. }
  assert (Hkeys : DistributedSlidingWindowCounter.key s (start - ws)
                  <> DistributedSlidingWindowCounter.key s start).
  { intros Heq. apply (proj1 window_keys_distinct) in Heq. lia. }
  destruct (Z.leb_spec (estimate + tokens) (DistributedSlidingWindowCounter.limit s))
    as [Hroom|Hfull]; cbn [runAlone fst snd allowed].
  - unfold storeGet. rewrite lookup_insert_eq.
    rewrite !lookup_insert_ne by auto.
    split; [reflexivity|]. split; [lia|reflexivity].
  - split; reflexivity.
Qed.

(** X21.  Run one caller at a time, [DistributedSlidingWindowCounter.allowRequest]
    does not over-admit: for callers of one window on a store where that
    window's key is missing and the previous window's count is not negative,
    the total cost admitted stays within the limit and the window's key holds
    exactly that total.  (Interleaved callers do over-admit, and lose
    counts.) *)
Theorem distributed_sliding_window_sequential
  (s : DistributedSlidingWindowCounter.t) (st : Store) (calls : list Call) (start : Z) :
  DistributedSlidingWindowCounter.windowSize s <> 0 ->
  0 <= DistributedSlidingWindowCounter.limit s ->
  Forall (fun c : Call =>
            0 < snd c
            /\ DistributedSlidingWindowCounter.getWindowStart
                 (DistributedSlidingWindowCounter.windowSize s) (fst c) = start) calls ->
  let ws := DistributedSlidingWindowCounter.windowSize s in
  storeGet st (DistributedSlidingWindowCounter.key s start) = None ->
  0 <= default 0 (storeGet st (DistributedSlidingWindowCounter.key s (start - ws))) ->
  let out := runEach (DistributedSlidingWindowCounter.allowRequest s) calls st in
  let admitted := admittedTotal allowed (fst out) in
  0 <= admitted <= DistributedSlidingWindowCounter.limit s
  /\ default 0 (storeGet (snd out) (DistributedSlidingWindowCounter.key s start)) = admitted.
Proof.
  intros Hws Hlimit Hcalls ws Hfresh Hprev.
  assert (Hgen : forall (calls : list Call) (st : Store),
             Forall (fun c : Call =>
                       0 < snd c
                       /\ DistributedSlidingWindowCounter.getWindowStart ws (fst c) = start)
                    calls ->
             0 <= default 0 (storeGet st (DistributedSlidingWindowCounter.key s (start - ws))) ->
             0 <= default 0 (storeGet st (DistributedSlidingWindowCounter.key s start))
               <= DistributedSlidingWindowCounter.limit s ->
             let out := runEach (DistributedSlidingWindowCounter.allowRequest s) calls st in
             let admitted := admittedTotal allowed (fst out) in
             0 <= admitted
             /\ default 0 (storeGet (snd out) (DistributedSlidingWindowCounter.key s start))
                = default 0 (storeGet st (DistributedSlidingWindowCounter.key s start))
                  + admitted
             /\ default 0 (storeGet (snd out) (DistributedSlidingWindowCounter.key s start))
                <= DistributedSlidingWindowCounter.limit s).
  { clear st Hfresh Hprev calls Hcalls.
    induction calls as [|[now tokens] calls IH]; intros st Hcalls Hprev Hcur.
    - cbn. lia.
    - inversion Hcalls as [|? ? [Hcost Hwin] Hrest]; subst. cbn [fst snd] in *.
      pose proof (distributed_sliding_alone s st now tokens Hws) as Hstep.
      cbv zeta in Hstep. fold ws in Hstep. specialize (Hstep Hprev).
      destruct Hstep as [Hkeep Hcase].
      cbn [runEach].
      destruct (runAlone (DistributedSlidingWindowCounter.allowRequest s now tokens) st)
        as [r st1].
      cbn [fst snd] in *.
      set (start := DistributedSlidingWindowCounter.getWindowStart ws now) in *.
      assert (Hprev1 : 0 <= default 0 (storeGet st1
                              (DistributedSlidingWindowCounter.key s (start - ws)))).
      { now rewrite Hkeep. }
      assert (Hcur1 : 0 <= default 0 (storeGet st1 (DistributedSlidingWindowCounter.key s start))
                        <= DistributedSlidingWindowCounter.limit s
                      /\ default 0 (storeGet st1 (DistributedSlidingWindowCounter.key s start))
                         = default 0 (storeGet st (DistributedSlidingWindowCounter.key s start))
                           + (if allowed r then tokens else 0)).
      { destruct (allowed r).
        - destruct Hcase as [Hroom ->]. cbn [default from_option id]. lia.
        - subst st1. lia. }
      destruct Hcur1 as [Hcur1 Hgrow].
      specialize (IH st1 Hrest Hprev1 Hcur1). cbv zeta in IH.
      destruct (runEach (DistributedSlidingWindowCounter.allowRequest s) calls st1)
        as [results st2].
      cbn [fst snd] in *. rewrite admittedTotal_cons. cbn [snd].
      destruct IH as (Hnonneg & Hsum & Hbound).
      destruct (allowed r); lia. }
  intros out admitted.
  destruct (Hgen calls st Hcalls Hprev) as (Hnonneg & Hsum & Hbound).
  { rewrite Hfresh. cbn. lia. }
  fold out admitted in Hnonneg, Hsum, Hbound.
  rewrite Hfresh in Hsum. cbn [default from_option id] in Hsum. lia.
Qed.

Lemma distributed_sliding_window_sequential_witness :
  let s := DistributedSlidingWindowCounter.create 60 3 None (Some "user:123"%string) in
  let out := runEach (DistributedSlidingWindowCounter.allowRequest s)
                     [(61000, 2); (60500, 2); (62000, 1); (119999, 1)] ∅ in
  let admitted := admittedTotal allowed (fst out) in
  0 <= admitted <= 3
  /\ default 0 (storeGet (snd out) (DistributedSlidingWindowCounter.key s 60000)) = admitted.
Proof.
  apply (distributed_sliding_window_sequential
           (DistributedSlidingWindowCounter.create 60 3 None (Some "user:123"%string)) ∅
           [(61000, 2); (60500, 2); (62000, 1); (119999, 1)] 60000).
  - cbn. lia.
  - cbn. lia.
  - repeat constructor.
  - reflexivity.
  - vm_compute. discriminate.
Defined.

(** ** The middleware's per-key limiters *)

Lemma handle_same_key (config : RateLimiterStore.Config)
      (limiters : gmap string RateLimiterStore.Held) (key : string) (created now : Z) :
  let limiter := default (RateLimiterStore.createLimiter config created) (limiters !! key) in
  fst (rateLimit.handle config limiters (rateLimit.Request key created now)) !! key
  = Some (fst (rateLimit.allowRequest limiter now))
  /\ snd (rateLimit.handle config limiters (rateLimit.Request key created now))
     = Some (snd (rateLimit.allowRequest limiter now)).
Proof.
  cbv zeta. unfold rateLimit.handle, RateLimiterStore.getLimiter.
  destruct (limiters !! key) as [limiter|]; cbn [default from_option id];
    destruct (rateLimit.allowRequest _ now) as [limiter1 result]; cbn [fst snd];
    now rewrite lookup_insert_eq.
Qed.

Lemma handle_other_key (config : RateLimiterStore.Config)
      (limiters : gmap string RateLimiterStore.Held) (key : string) (event : rateLimit.Event) :
  match event with
  | rateLimit.Request k _ _ => k <> key
  | rateLimit.Completed k => k <> key
  end ->
  fst (rateLimit.handle config limiters event) !! key = limiters !! key.
Proof.
  destruct event as [k created now|k]; intros Hne.
  - unfold rateLimit.handle, RateLimiterStore.getLimiter.
    destruct (limiters !! k) as [limiter|];
      destruct (rateLimit.allowRequest _ now) as [limiter1 result]; cbn [fst];
      now rewrite ?lookup_insert_ne by exact Hne.
  - cbn [rateLimit.handle fst]. now rewrite lookup_alter_ne by exact Hne.
Qed.

Lemma serve_per_key (config : RateLimiterStore.Config) (key : string)
      (events : list rateLimit.Event) :
  forall limiters : gmap string RateLimiterStore.Held,
    fst (rateLimit.serve config limiters events) !! key
    = fst (rateLimit.single config (limiters !! key) (rateLimit.eventsFor key events))
    /\ resultsFor key (snd (rateLimit.serve config limiters events))
       = snd (rateLimit.single config (limiters !! key) (rateLimit.eventsFor key events)).
Proof.
  induction events as [|event events IH]; intros limiters.
  - split; reflexivity.
  - cbn [rateLimit.serve rateLimit.eventsFor].
    destruct event as [k created now|k]; destruct (decide (k = key)) as [->|Hne].
    + destruct (handle_same_key config limiters key created now) as (Hstate & Hresult).
      cbv zeta in Hstate, Hresult.
      destruct (rateLimit.handle config limiters (rateLimit.Request key created now))
        as [limiters1 result].
      cbn [fst snd] in Hstate, Hresult. subst result.
      specialize (IH limiters1). rewrite Hstate in IH.
      destruct (rateLimit.serve config limiters1 events) as [limiters2 results].
      cbn [rateLimit.single].
      destruct (rateLimit.allowRequest
                  (default (RateLimiterStore.createLimiter config created) (limiters !! key))
                  now) as [limiter1 result].
      cbn [fst snd] in IH.
      destruct (rateLimit.single config (Some limiter1) (rateLimit.eventsFor key events))
        as [final kept].
      cbn [fst snd] in *. destruct IH as (IHstate & IHresults).
      split; [exact IHstate|].
      unfold resultsFor in *.
      rewrite (filter_cons_True (fun r : string * RateLimitResult => fst r = key))
        by reflexivity.
      cbn [map snd]. now rewrite IHresults.
    + pose proof (handle_other_key config limiters key (rateLimit.Request k created now) Hne)
        as Hstate.
      destruct (rateLimit.handle config limiters (rateLimit.Request k created now))
        as [limiters1 result] eqn:Hhandle.
      cbn [fst] in Hstate.
      specialize (IH limiters1). rewrite Hstate in IH.
      destruct (rateLimit.serve config limiters1 events) as [limiters2 results].
      cbn [fst snd] in *. destruct IH as (IHstate & IHresults).
      split; [exact IHstate|].
      destruct result as [r|]; [|exact IHresults].
      unfold resultsFor in *.
      rewrite (filter_cons_False (fun r : string * RateLimitResult => fst r = key))
        by exact Hne.
      exact IHresults.
    + cbn [rateLimit.handle].
      specialize (IH (alter rateLimit.release key limiters)).
      rewrite lookup_alter_eq in IH.
      destruct (rateLimit.serve config (alter rateLimit.release key limiters) events)
        as [limiters2 results].
      cbn [rateLimit.single]. exact IH.
    + cbn [rateLimit.handle].
      specialize (IH (alter rateLimit.release k limiters)).
      rewrite lookup_alter_ne in IH by exact Hne.
      destruct (rateLimit.serve config (alter rateLimit.release k limiters) events)
        as [limiters2 results].
      exact IH.
Qed.

(** X22.  The middleware keeps one limiter per key, built by [createLimiter]
    at the first request for that key, and what happens for other keys never
    touches it.  Over any sequence of requests and of runs of the
    ['finish'] and ['close'] handlers (each a [release] on a
    [ConcurrentRequestsLimiter]), and from any map of limiters, the results
    for a key and the limiter the map holds for it at the end are those of
    that key's limiter on its own, over the events of that key alone; for
    the empty map of a new store, those of one fresh limiter of the
    configured algorithm. *)
Theorem rate_limiter_store_per_key (config : RateLimiterStore.Config)
        (limiters : gmap string RateLimiterStore.Held) (key : string)
        (events : list rateLimit.Event) :
  (fst (rateLimit.serve config limiters events) !! key
   = fst (rateLimit.single config (limiters !! key) (rateLimit.eventsFor key events))
   /\ resultsFor key (snd (rateLimit.serve config limiters events))
      = snd (rateLimit.single config (limiters !! key) (rateLimit.eventsFor key events)))
  /\ (fst (rateLimit.serve config ∅ events) !! key
      = fst (rateLimit.single config None (rateLimit.eventsFor key events))
      /\ resultsFor key (snd (rateLimit.serve config ∅ events))
         = snd (rateLimit.single config None (rateLimit.eventsFor key events))).
Proof.
  split; [apply serve_per_key|].
  pose proof (serve_per_key config key events ∅) as Hempty.
  now rewrite lookup_empty in Hempty.
Qed.
